(** * Snapshot history and derived statistics of open-processing-views

    A shallow embedding of the history/series/delta logic of the browser
    extension: [appendSnapshot], [drawPopupStats] and
    [computeSketchIncreasesFromSnapshots] of popup.js, and [buildState],
    [drawStats], [computeLatestSketchIncreasesFromSeries], [snapshotTime]
    and [snapshotLabel] of options.js.

    Conventions of the embedding:
    - a JavaScript number is a [Num]: an integer, NaN or a signed infinity
      (view counts, ids and time values are integers; doubles are exact on
      them below 2^53, and the sign of a difference of two time values is
      exact on the whole range of time values);
    - an absent (undefined) string field is [None]; [""] is kept apart from
      it because [===] tells them apart while [||] does not;
    - an array mutated in place is passed and returned as a list;
    - what a function writes into the page is returned as a value. *)

From Stdlib Require Import ZArith Lia Ascii String.
From stdpp Require Import base option list strings gmap sorting pretty.

(** ** JavaScript numbers and values *)

Inductive Num : Type :=
  | Fin (z : Z)
  | NaN
  | Inf (negative : bool).

Global Instance Num_eq_dec : EqDecision Num.
Proof. solve_decision. Defined.

(** [a - b] on numbers. *)
Definition Num_sub (a b : Num) : Num :=
  match a, b with
  | NaN, _ | _, NaN => NaN
  | Fin x, Fin y => Fin (x - y)
  | Fin _, Inf s => Inf (negb s)
  | Inf s, Fin _ => Inf s
  | Inf s, Inf s' => if Bool.eqb s s' then NaN else Inf s
  end.

(** [Number.isNaN] and [Number.isFinite]. *)
Definition Number_isNaN (v : Num) : bool :=
  match v with NaN => true | _ => false end.

Definition Number_isFinite (v : Num) : bool :=
  match v with Fin _ => true | _ => false end.

(** [v > 0], which is false on NaN. *)
Definition Num_pos (v : Num) : bool :=
  match v with Fin z => (0 <? z)%Z | Inf negative => negb negative | NaN => false end.

(** The values a JSON field can hold, as far as the code coerces them. *)
Inductive JsVal : Type :=
  | JsUndefined
  | JsNull
  | JsBool (b : bool)
  | JsNumber (n : Num)
  | JsString (s : string).

(** The two built-ins of the engine that the code calls on strings:
    [Date.parse], which yields a time value (an integer number of
    milliseconds) or NaN, and the string case of [Number(...)]. They belong
    to the engine, not to the repository, so the development is parametric
    in them. [time_value s = None] says that [Date.parse(s)] is NaN. *)
Class Engine : Type := {
  time_value : string → option Z;
  StringToNumber : string → Num;
}.

(** [Date.parse(s)]. *)
Definition Date_parse `{Engine} (s : string) : Num :=
  match time_value s with
  | Some t => Fin t
  | None => NaN
  end.

(** [Number(v)]. *)
Definition Number_ `{Engine} (v : JsVal) : Num :=
  match v with
  | JsUndefined => NaN
  | JsNull => Fin 0
  | JsBool b => Fin (if b then 1 else 0)
  | JsNumber n => n
  | JsString s => StringToNumber s
  end.

(** [String(n)] of an integer. *)
Definition Number_toString (n : Z) : string := pretty n.

(** ** A concrete engine for evaluating examples

    [iso_time_value] reads the two shapes of the ECMAScript date-time
    string format that occur in stored histories, [YYYY-MM-DD] (UTC
    midnight) and [YYYY-MM-DDTHH:mm:ss.sss] followed by [Z] or [±HH:mm],
    and is [None] (NaN) on any other string, the empty string included.
    [decimal_StringToNumber] reads an optionally signed run of decimal
    digits; the empty string is 0 and any other string is NaN. *)

Definition digit_of (c : ascii) : option Z :=
  let n := Z.of_nat (nat_of_ascii c) in
  if bool_decide (48 ≤ n ≤ 57)%Z then Some (n - 48)%Z else None.

Fixpoint read_digits (count : nat) (acc : Z) (s : string) : option (Z * string) :=
  match count with
  | O => Some (acc, s)
  | S count' =>
      match s with
      | String c rest => d ← digit_of c; read_digits count' (10 * acc + d)%Z rest
      | EmptyString => None
      end
  end.

Definition read_char (c : ascii) (s : string) : option string :=
  match s with
  | String c' rest => if bool_decide (c = c') then Some rest else None
  | EmptyString => None
  end.

(** Days from 1970-01-01 to the given civil date (proleptic Gregorian). *)
Definition days_from_civil (y m d : Z) : Z :=
  let y' := if (m <=? 2)%Z then (y - 1)%Z else y in
  let era := (y' `div` 400)%Z in
  let yoe := (y' - era * 400)%Z in
  let mp := if (2 <? m)%Z then (m - 3)%Z else (m + 9)%Z in
  let doy := ((153 * mp + 2) `div` 5 + d - 1)%Z in
  let doe := (yoe * 365 + yoe `div` 4 - yoe `div` 100 + doy)%Z in
  (era * 146097 + doe - 719468)%Z.

Definition read_date (s : string) : option (Z * string) :=
  '(y, s) ← read_digits 4 0 s;
  s ← read_char "-" s;
  '(m, s) ← read_digits 2 0 s;
  s ← read_char "-" s;
  '(d, s) ← read_digits 2 0 s;
  if bool_decide (1 ≤ m ≤ 12 ∧ 1 ≤ d ≤ 31)%Z
  then Some (days_from_civil y m d * 86400000, s)%Z else None.

Definition read_time (s : string) : option (Z * string) :=
  s ← read_char "T" s;
  '(h, s) ← read_digits 2 0 s;
  s ← read_char ":" s;
  '(mi, s) ← read_digits 2 0 s;
  s ← read_char ":" s;
  '(sec, s) ← read_digits 2 0 s;
  s ← read_char "." s;
  '(ms, s) ← read_digits 3 0 s;
  if bool_decide (h ≤ 23 ∧ mi ≤ 59 ∧ sec ≤ 59)%Z
  then Some (((h * 60 + mi) * 60 + sec) * 1000 + ms, s)%Z else None.

Definition read_offset (s : string) : option Z :=
  match s with
  | "Z"%string => Some 0%Z
  | String c s =>
      sign ← (if bool_decide (c = "+"%char) then Some 1%Z
              else if bool_decide (c = "-"%char) then Some (-1)%Z else None);
      '(h, s) ← read_digits 2 0 s;
      s ← read_char ":" s;
      '(mi, s) ← read_digits 2 0 s;
      if bool_decide (s = ""%string ∧ h ≤ 23 ∧ mi ≤ 59)%Z
      then Some (sign * (h * 60 + mi) * 60000)%Z else None
  | EmptyString => None
  end.

Definition iso_time_value (s : string) : option Z :=
  '(day, rest) ← read_date s;
  match rest with
  | EmptyString => Some day
  | _ =>
      '(time, rest') ← read_time rest;
      offset ← read_offset rest';
      Some (day + time - offset)%Z
  end.

Fixpoint read_all_digits (acc : Z) (s : string) : option Z :=
  match s with
  | EmptyString => Some acc
  | String c rest => d ← digit_of c; read_all_digits (10 * acc + d)%Z rest
  end.

Definition decimal_StringToNumber (s : string) : Num :=
  match s with
  | EmptyString => Fin 0
  | String c rest =>
      let unsigned (sign : Z) (body : string) :=
        match body with
        | EmptyString => NaN
        | _ => from_option (λ n, Fin (sign * n)) NaN (read_all_digits 0 body)
        end in
      if bool_decide (c = "-"%char) then unsigned (-1)%Z rest
      else if bool_decide (c = "+"%char) then unsigned 1%Z rest
      else unsigned 1%Z s
  end.

Definition iso_engine : Engine :=
  {| time_value := iso_time_value; StringToNumber := decimal_StringToNumber |}.

(** ** Data model *)

(** One record of a snapshot's [sketches] array. [views] is an integer, on
    which [Number(sketch?.views || 0)] is the identity; an absent [title]
    or [url] behaves as the empty string in every place the code reads
    it. *)
Record Sketch : Type := {
  sketch_id : JsVal;
  sketch_title : string;
  sketch_views : Z;
  sketch_url : string;
}.

Record Snapshot : Type := {
  date : option string;
  fetched_at : option string;
  page_url : string;
  sketches : list Sketch;
}.

Global Instance JsVal_eq_dec : EqDecision JsVal.
Proof. solve_decision. Defined.
Global Instance Sketch_eq_dec : EqDecision Sketch.
Proof. solve_decision. Defined.
Global Instance Snapshot_eq_dec : EqDecision Snapshot.
Proof. solve_decision. Defined.

(** ** Operators and array methods *)

(** [a || b] on optional strings: [a] when it is a non-empty string. *)
Definition truthy (a : option string) : bool :=
  match a with
  | Some s => negb (bool_decide (s = ""%string))
  | None => false
  end.

Definition js_or (a b : option string) : option string :=
  if truthy a then a else b.

(** [a || d] where the last operand [d] is a string. *)
Definition js_or_str (a : option string) (d : string) : string :=
  match a with
  | Some s => if bool_decide (s = ""%string) then d else s
  | None => d
  end.

(** [Array.prototype.findIndex]; [None] stands for -1. *)
Fixpoint findIndex {A} (p : A → bool) (l : list A) : option nat :=
  match l with
  | [] => None
  | x :: l' => if p x then Some O else S <$> findIndex p l'
  end.

(** [Array.prototype.sort(comparefn)]: a stable sort, as ECMAScript
    requires; a NaN from the comparator counts as +0 (CompareArrayElements),
    so only a positive result moves an element behind another. Written as
    insertion sort: every stable sort computes the same array when the
    comparator is consistent. *)
Section Sort.
Context {A : Type} (comparefn : A → A → Num).

Fixpoint sort_insert (x : A) (l : list A) : list A :=
  match l with
  | [] => [x]
  | y :: l' =>
      if Num_pos (comparefn x y) then y :: sort_insert x l' else x :: y :: l'
  end.

Fixpoint Array_sort (l : list A) : list A :=
  match l with
  | [] => []
  | x :: l' => sort_insert x (Array_sort l')
  end.
End Sort.

(** [Map]: a JavaScript Map keeps its entries in insertion order, and
    [set] on a key that is present keeps the entry's position. *)
Section OrderedMap.
Context {K V : Type} `{EqDecision K}.

Fixpoint Map_get (k : K) (m : list (K * V)) : option V :=
  match m with
  | [] => None
  | (k', v) :: m' => if decide (k = k') then Some v else Map_get k m'
  end.

Definition Map_has (k : K) (m : list (K * V)) : bool :=
  match Map_get k m with Some _ => true | None => false end.

Fixpoint Map_set (k : K) (v : V) (m : list (K * V)) : list (K * V) :=
  match m with
  | [] => [(k, v)]
  | (k', v') :: m' =>
      if decide (k = k') then (k, v) :: m' else (k', v') :: Map_set k v m'
  end.

Definition Map_values (m : list (K * V)) : list V := m.*2.
End OrderedMap.

(** [new Map(entries)] for a Map that is only read with [get]: later
    entries overwrite earlier ones. *)
Definition Map_of_entries {V} (entries : list (string * V)) : gmap string V :=
  foldl (λ m entry, <[entry.1 := entry.2]> m) ∅ entries.

(** ** Derived values *)

(** One point of a series, one series as stored in [bySketch] while the
    history is folded, and one series of [state.series]. *)
Record Point : Type := {
  timeLabel : string;
  point_date : string;
  point_views : Z;
}.

Record SeriesAcc : Type := {
  acc_id : Z;
  acc_title : string;
  acc_url : string;
  acc_points : gmap string Z;
}.

Record Series : Type := {
  series_id : Z;
  series_title : string;
  series_url : string;
  points : list Point;
  latestViews : Z;
}.

(** The part of [state] that [buildState] assigns. *)
Record State : Type := {
  normalizedHistory : list Snapshot;
  timeLabels : list string;
  series : list Series;
}.

(** One entry of a per-sketch increase list. *)
Record Increase : Type := {
  inc_id : Z;
  inc_title : string;
  inc_url : string;
  delta : Z;
}.

(** What [drawStats] and [drawPopupStats] write into the breakdown
    element, with the numbers the text is built from (the formatted dates
    are left out). *)
Inductive Breakdown : Type :=
  | WaitingForCaptures
  | WaitingForNextCapture
  | NewViews (latestDelta : Z) (increases : list Increase)
  | NoneObservedYet
  | NoneSince (lastIncreaseIndex : nat) (lastIncreaseBy : Z).

Global Instance Point_eq_dec : EqDecision Point.
Proof. solve_decision. Defined.
Global Instance Series_eq_dec : EqDecision Series.
Proof. solve_decision. Defined.
Global Instance Increase_eq_dec : EqDecision Increase.
Proof. solve_decision. Defined.
Global Instance Breakdown_eq_dec : EqDecision Breakdown.
Proof. solve_decision. Defined.

Section Model.
Context `{Engine}.

(** *** popup.js *)

(** The comparator of the [history.sort] call in [appendSnapshot]. *)
Definition appendSnapshot_compare (left right : Snapshot) : Num :=
  let leftTs := Date_parse (js_or_str (js_or (fetched_at left) (date left)) "") in
  let rightTs := Date_parse (js_or_str (js_or (fetched_at right) (date right)) "") in
  Num_sub leftTs rightTs.

Definition appendSnapshot (history : list Snapshot) (snapshot : Snapshot) : list Snapshot :=
  let duplicateIndex :=
    findIndex (λ entry, bool_decide (fetched_at entry = fetched_at snapshot)) history in
  match duplicateIndex with
  | Some duplicateIndex => <[duplicateIndex := snapshot]> history
  | None => Array_sort appendSnapshot_compare (history ++ [snapshot])
  end.

(** [String(sketch?.title || `Sketch ${sketchId}`)]. *)
Definition title_or_default (title : string) (sketchId : Z) : string :=
  js_or_str (Some title) ("Sketch " +:+ Number_toString sketchId).

Definition increases_compare (left right : Increase) : Num :=
  Fin (delta right - delta left).

Definition computeSketchIncreasesFromSnapshots
    (previousSnapshot latestSnapshot : Snapshot) : list Increase :=
  let previousById : gmap Z Z :=
    foldl (λ previousById sketch,
             match Number_ (sketch_id sketch) with
             | Fin sketchId => <[sketchId := sketch_views sketch]> previousById
             | _ => previousById
             end) ∅ (sketches previousSnapshot) in
  let increases :=
    foldl (λ increases sketch,
             match Number_ (sketch_id sketch) with
             | Fin sketchId =>
                 let latestViews := sketch_views sketch in
                 let previousViews := default 0%Z (previousById !! sketchId) in
                 let delta := (latestViews - previousViews)%Z in
                 if (0 <? delta)%Z
                 then increases ++ [ {| inc_id := sketchId;
                                        inc_title := title_or_default (sketch_title sketch) sketchId;
                                        inc_url := sketch_url sketch;
                                        delta := delta |} ]
                 else increases
             | _ => increases
             end) [] (sketches latestSnapshot) in
  Array_sort increases_compare increases.

(** The backward scan for the last increase, from [index] down to 1. *)
Fixpoint lastIncrease_scan (totals : list Z) (index : nat) : option nat :=
  match index with
  | O => None
  | S below =>
      match totals !! index, totals !! below with
      | Some here, Some before =>
          if (before <? here)%Z then Some index else lastIncrease_scan totals below
      | _, _ => lastIncrease_scan totals below
      end
  end.

Definition lastIncreaseIndex (totals : list Z) : option nat :=
  lastIncrease_scan totals (length totals - 1).

(** The tail of both stats functions, from the search for the last
    increase on. *)
Definition lastIncrease_breakdown (totals : list Z) : Breakdown :=
  match lastIncreaseIndex totals with
  | None => NoneObservedYet
  | Some lastIncreaseIndex =>
      NoneSince lastIncreaseIndex
        (default 0 (totals !! lastIncreaseIndex)
         - default 0 (totals !! (lastIncreaseIndex - 1)%nat))%Z
  end.

Definition popup_totals (history : list Snapshot) : list Z :=
  (λ snapshot,
     foldl (λ sum sketch, (sum + sketch_views sketch)%Z) 0%Z (sketches snapshot))
  <$> history.

(** [drawPopupStats] from the line after [totals] is computed; the
    arrays [totals] and [history] have the same length. *)
Definition drawPopupStats_totals (totals : list Z) (increases : list Increase)
    : Z * Breakdown :=
  match totals with
  | [] => (0%Z, WaitingForCaptures)
  | _ =>
      let latestTotal := default 0%Z (totals !! (length totals - 1)) in
      if bool_decide (length totals < 2) then (latestTotal, WaitingForNextCapture)
      else
        let latestDelta := (latestTotal - default 0 (totals !! (length totals - 2)%nat))%Z in
        if (0 <? latestDelta)%Z then (latestTotal, NewViews latestDelta increases)
        else (latestTotal, lastIncrease_breakdown totals)
  end.


(** *** options.js *)

Definition snapshotTime (snapshot : Snapshot) : Num :=
  let ts := Date_parse (js_or_str (js_or (fetched_at snapshot) (date snapshot)) "") in
  if Number_isNaN ts then Fin 0 else ts.

Definition snapshotLabel (snapshot : Snapshot) (index : nat) : string :=
  js_or_str (js_or (fetched_at snapshot) (date snapshot))
    ("snapshot-" +:+ Number_toString (Z.of_nat index + 1)).

Definition snapshotTime_compare (a b : Snapshot) : Num :=
  Num_sub (snapshotTime a) (snapshotTime b).

Definition latestViews_compare (a b : Series) : Num :=
  Fin (latestViews b - latestViews a).

(** The body of the inner loop of [buildState] for one sketch. *)
Definition record_sketch (snapshotLabelKey : string)
    (bySketch : list (Z * SeriesAcc)) (sketch : Sketch) : list (Z * SeriesAcc) :=
  match Number_ (sketch_id sketch) with
  | Fin sketchId =>
      let bySketch :=
        if Map_has sketchId bySketch then bySketch
        else Map_set sketchId
               {| acc_id := sketchId;
                  acc_title := title_or_default (sketch_title sketch) sketchId;
                  acc_url := sketch_url sketch;
                  acc_points := ∅ |} bySketch in
      match Map_get sketchId bySketch with
      | Some entry =>
          Map_set sketchId
            {| acc_id := acc_id entry; acc_title := acc_title entry;
               acc_url := acc_url entry;
               acc_points := <[snapshotLabelKey := sketch_views sketch]> (acc_points entry) |}
            bySketch
      | None => bySketch
      end
  | _ => bySketch
  end.

(** The outer loop: the history with its labels, folded into [bySketch]. *)
Definition labelled (normalizedHistory : list Snapshot) : list (string * Snapshot) :=
  imap (λ index snapshot, (snapshotLabel snapshot index, snapshot)) normalizedHistory.

Definition fold_history (normalizedHistory : list Snapshot) : list (Z * SeriesAcc) :=
  foldl (λ bySketch entry, foldl (record_sketch entry.1) bySketch (sketches entry.2))
    [] (labelled normalizedHistory).

Definition epoch_iso : string := "1970-01-01T00:00:00.000Z".

Definition make_series (timeLabels : list string)
    (snapshotDateByLabel : gmap string (option string)) (entry : SeriesAcc) : Series :=
  let points :=
    (λ timeLabel,
       {| timeLabel := timeLabel;
          point_date := js_or_str (mjoin (snapshotDateByLabel !! timeLabel)) epoch_iso;
          point_views := default 0%Z (acc_points entry !! timeLabel) |})
    <$> timeLabels in
  let latestViews :=
    match points !! (length points - 1) with
    | Some point => point_views point
    | None => 0%Z
    end in
  {| series_id := acc_id entry; series_title := acc_title entry;
     series_url := acc_url entry; points := points; latestViews := latestViews |}.

Definition time_labels (normalizedHistory : list Snapshot) : list string :=
  (λ entry, entry.1) <$> labelled normalizedHistory.

Definition snapshotDateByLabel (normalizedHistory : list Snapshot)
    : gmap string (option string) :=
  Map_of_entries
    ((λ entry, (entry.1, js_or (fetched_at entry.2) (date entry.2)))
     <$> labelled normalizedHistory).

(** The array that [.map] yields, before [.filter] and [.sort]. *)
Definition mapped_series (normalizedHistory : list Snapshot) : list Series :=
  make_series (time_labels normalizedHistory) (snapshotDateByLabel normalizedHistory)
  <$> Map_values (fold_history normalizedHistory).

Definition buildState (history : list Snapshot) : State :=
  let normalizedHistory := Array_sort snapshotTime_compare history in
  {| normalizedHistory := normalizedHistory;
     timeLabels := time_labels normalizedHistory;
     series :=
       Array_sort latestViews_compare
         (filter (λ item, Exists (λ point, (0 < point_views point)%Z) (points item))
            (mapped_series normalizedHistory)) |}.

Definition computeLatestSketchIncreasesFromSeries (series : list Series) : list Increase :=
  let increases :=
    foldl (λ increases line,
             if bool_decide (length (points line) < 2) then increases
             else
               let latestViews :=
                 default 0%Z (point_views <$> points line !! (length (points line) - 1)) in
               let previousViews :=
                 default 0%Z (point_views <$> points line !! (length (points line) - 2)) in
               let delta := (latestViews - previousViews)%Z in
               if (0 <? delta)%Z
               then increases ++ [ {| inc_id := series_id line;
                                      inc_title := title_or_default (series_title line) (series_id line);
                                      inc_url := series_url line;
                                      delta := delta |} ]
               else increases) [] series in
  Array_sort increases_compare increases.

Definition series_totals (series : list Series) (snapshots : list Snapshot) : list Z :=
  imap (λ snapshotIndex _,
          foldl (λ sum line,
                   (sum + default 0 (point_views <$> points line !! snapshotIndex))%Z)
            0%Z series) snapshots.

Definition latestTotal (totals : list Z) : Z :=
  match totals with
  | [] => 0%Z
  | _ => default 0%Z (totals !! (length totals - 1))
  end.

Definition previousTotal (totals : list Z) : option Z :=
  if bool_decide (1 < length totals) then totals !! (length totals - 2) else None.

Definition latestDelta (totals : list Z) : option Z :=
  match previousTotal totals with
  | None => None
  | Some previousTotal => Some (latestTotal totals - previousTotal)%Z
  end.

(** [drawStats] from the line after [totals] is computed. *)
Definition drawStats_totals (totals : list Z) (latestSketchIncreases : list Increase)
    : Z * Breakdown :=
  match latestDelta totals with
  | None => (latestTotal totals, WaitingForNextCapture)
  | Some latestDelta =>
      if (0 <? latestDelta)%Z
      then (latestTotal totals, NewViews latestDelta latestSketchIncreases)
      else (latestTotal totals, lastIncrease_breakdown totals)
  end.

Definition drawStats (series : list Series) (snapshots : list Snapshot) : Z * Breakdown :=
  let totals := series_totals series snapshots in
  let latestSketchIncreases := computeLatestSketchIncreasesFromSeries series in
  drawStats_totals totals latestSketchIncreases.

(** *** Notions used to state the properties *)

(** The effective timestamp of a snapshot as a time value, the number
    under which [snapshotTime] orders it. *)
Definition effective_time (snapshot : Snapshot) : Z :=
  match snapshotTime snapshot with
  | Fin t => t
  | _ => 0%Z
  end.

(** A run of captures merged one after the other, starting from the
    empty history. *)
Definition merge_all (snapshots : list Snapshot) : list Snapshot :=
  foldl appendSnapshot [] snapshots.

(** The input contract of a merge: a non-empty [fetched_at] that
    [Date.parse] reads. *)
Definition well_stamped (snapshot : Snapshot) : Prop :=
  ∃ stamp t, fetched_at snapshot = Some stamp ∧ stamp ≠ ""%string ∧
             time_value stamp = Some t.

(** [snapshot] is the last capture of the run with its [fetched_at]. *)
Definition last_capture (snapshots : list Snapshot) (snapshot : Snapshot) : Prop :=
  ∃ before after,
    snapshots = before ++ snapshot :: after ∧
    Forall (λ later, fetched_at later ≠ fetched_at snapshot) after.

(** The two states in which a stats function waits for more captures. *)
Definition is_waiting (b : Breakdown) : Prop :=
  b = WaitingForCaptures ∨ b = WaitingForNextCapture.

(** The id under which a record is counted, if [Number(sketch.id)] is
    finite, and the ids of a snapshot's records in order. *)
Definition finite_id (sketch : Sketch) : option Z :=
  match Number_ (sketch_id sketch) with
  | Fin sketchId => Some sketchId
  | _ => None
  end.

Definition finite_ids (snapshot : Snapshot) : list Z :=
  omap finite_id (sketches snapshot).

(** A snapshot without the records whose id is not a finite number. *)
Definition finite_only (snapshot : Snapshot) : Snapshot :=
  {| date := date snapshot; fetched_at := fetched_at snapshot;
     page_url := page_url snapshot;
     sketches := filter (λ sketch, is_Some (finite_id sketch)) (sketches snapshot) |}.

(** The writes of the two loops of [buildState], in order: a label and
    a record. *)
Definition writes_of (entries : list (string * Snapshot)) : list (string * Sketch) :=
  entries ≫= λ entry, (λ sketch, (entry.1, sketch)) <$> sketches entry.2.

(** The views last written for a sketch id under a label. *)
Definition last_write (writes : list (string * Sketch)) (sketchId : Z) (label : string)
    : option Z :=
  foldl (λ seen write,
           if bool_decide (finite_id write.2 = Some sketchId ∧ write.1 = label)
           then Some (sketch_views write.2) else seen) None writes.

(** The points recorded so far for a sketch id. *)
Definition points_of (bySketch : list (Z * SeriesAcc)) (sketchId : Z) : gmap string Z :=
  match Map_get sketchId bySketch with
  | Some entry => acc_points entry
  | None => ∅
  end.

(** The two loops of [buildState] run over the writes in order. *)
Definition record_writes (writes : list (string * Sketch))
    (bySketch : list (Z * SeriesAcc)) : list (Z * SeriesAcc) :=
  foldl (λ bySketch write, record_sketch write.1 bySketch write.2) bySketch writes.

(** The Map [previousById] of [computeSketchIncreasesFromSnapshots], and
    what one pass of each increase loop pushes. *)
Definition previousById_of (previousSnapshot : Snapshot) : gmap Z Z :=
  foldl (λ previousById sketch,
           match Number_ (sketch_id sketch) with
           | Fin sketchId => <[sketchId := sketch_views sketch]> previousById
           | _ => previousById
           end) ∅ (sketches previousSnapshot).

Definition snapshot_increase (previousById : gmap Z Z) (sketch : Sketch)
    : option Increase :=
  match Number_ (sketch_id sketch) with
  | Fin sketchId =>
      let delta := (sketch_views sketch - default 0 (previousById !! sketchId))%Z in
      if (0 <? delta)%Z
      then Some {| inc_id := sketchId;
                   inc_title := title_or_default (sketch_title sketch) sketchId;
                   inc_url := sketch_url sketch;
                   delta := delta |}
      else None
  | _ => None
  end.

Definition series_increase (line : Series) : option Increase :=
  if bool_decide (length (points line) < 2) then None
  else
    let delta :=
      (default 0 (point_views <$> points line !! (length (points line) - 1)%nat)
       - default 0 (point_views <$> points line !! (length (points line) - 2)%nat))%Z in
    if (0 <? delta)%Z
    then Some {| inc_id := series_id line;
                 inc_title := title_or_default (series_title line) (series_id line);
                 inc_url := series_url line;
                 delta := delta |}
    else None.

(** An increase without its title and url. *)
Definition id_and_delta (increase : Increase) : Z * Z :=
  (inc_id increase, delta increase).

End Model.

(** ** Sample data *)

Definition sketch_record (sketchId : Z) (title : string) (views : Z) : Sketch :=
  {| sketch_id := JsNumber (Fin sketchId); sketch_title := title;
     sketch_views := views; sketch_url := "" |}.

Definition capture (day stamp : option string) (records : list Sketch) : Snapshot :=
  {| date := day; fetched_at := stamp;
     page_url := "https://openprocessing.org/user/78298"; sketches := records |}.

(** Two captures of the sketches A, B and C: C appears in the second. *)
Definition ranking_previous : Snapshot :=
  capture (Some "2026-02-22") (Some "2026-02-22T21:00:00.000+01:00")
    [sketch_record 1 "A" 10; sketch_record 2 "B" 5].

Definition ranking_latest : Snapshot :=
  capture (Some "2026-02-23") (Some "2026-02-23T21:00:00.000+01:00")
    [sketch_record 1 "A" 12; sketch_record 2 "B" 5; sketch_record 3 "C" 3].

(** A capture and a second capture under the same [fetched_at]. *)
Definition first_capture : Snapshot :=
  capture (Some "2026-02-23") (Some "2026-02-23T21:00:00.000+01:00")
    [sketch_record 1 "A" 10].

Definition recapture : Snapshot :=
  capture (Some "2026-02-23") (Some "2026-02-23T21:00:00.000+01:00")
    [sketch_record 1 "A" 12; sketch_record 2 "B" 5].

(** Captures that carry a date and no [fetched_at], and a stamped one
    between them. *)
Definition dated_early : Snapshot :=
  capture (Some "2026-01-05") None [sketch_record 1 "A" 10].

Definition stamped_middle : Snapshot :=
  capture (Some "2026-01-10") (Some "2026-01-10T12:00:00.000+01:00")
    [sketch_record 1 "A" 11].

Definition dated_late : Snapshot :=
  capture (Some "2026-01-20") None [sketch_record 1 "A" 12].

(** A capture with neither [fetched_at] nor [date]. *)
Definition undated_capture : Snapshot :=
  capture None None [sketch_record 1 "A" 7].

(** Two captures whose labels coincide: the first has only a date, the
    second has that string as its [fetched_at]. *)
Definition day_only : Snapshot :=
  capture (Some "2026-01-01") None [sketch_record 1 "A" 5].

Definition day_stamped : Snapshot :=
  capture (Some "2026-01-01") (Some "2026-01-01") [sketch_record 2 "B" 3].

(** A sketch that is renamed between two captures. *)
Definition before_rename : Snapshot :=
  capture (Some "2026-02-22") (Some "2026-02-22T21:00:00.000+01:00")
    [sketch_record 1 "Old title" 10].

Definition after_rename : Snapshot :=
  capture (Some "2026-02-23") (Some "2026-02-23T21:00:00.000+01:00")
    [sketch_record 1 "New title" 12].

(** A capture with two records whose id is not a finite number. *)
Definition with_ghost_records : Snapshot :=
  capture (Some "2026-02-23") (Some "2026-02-23T21:00:00.000+01:00")
    [ {| sketch_id := JsUndefined; sketch_title := "no id"; sketch_views := 99;
         sketch_url := "" |};
      sketch_record 1 "A" 10;
      {| sketch_id := JsString "n/a"; sketch_title := "text id"; sketch_views := 4;
         sketch_url := "" |} ].

(** A capture in which one sketch has no views. *)
Definition with_unviewed : Snapshot :=
  capture (Some "2026-02-23") (Some "2026-02-23T21:00:00.000+01:00")
    [sketch_record 1 "A" 10; sketch_record 4 "D" 0].

(** ** The rest of popup.js and options.js

    The capture flow, the badge, the page script and the text helpers of
    popup.js; the sketch filter, the summary line and the text helpers
    of options.js. The chart, the legend and the download are drawing
    and file code around d3 and the DOM; [computeYDomain] computes in
    floating point; they are not part of the model. *)


(** *** Storage and capture (popup.js) *)

(** What [chrome.storage.local] holds under the storage key: nothing,
    a value that is not an array, or an array of snapshots. *)
Inductive Stored : Type :=
  | StoredNothing
  | StoredNotArray
  | StoredHistory (history : list Snapshot).

Definition loadSnapshotHistory (stored : Stored) : list Snapshot :=
  match stored with
  | StoredHistory value => value
  | _ => []
  end.

Definition saveSnapshotHistory (history : list Snapshot) : Stored :=
  StoredHistory history.

(** [Math.round(n / d)] for integers [n] and [d > 0]: the nearest
    integer, a half rounding up. The floating-point quotient of the code
    rounds to this integer for every total that a page of view counts can
    reach (the quotient stays far below 2^32, where a double still
    separates the halves of [1 / d]). *)
Definition Math_round_div (n d : Z) : Z := ((2 * n + d) `div` (2 * d))%Z.

Definition formatBadgeNumber (value : Z) : string :=
  let number := value in
  if (number <=? 0)%Z then "0"
  else if (1000000 <=? number)%Z
       then Number_toString (Math_round_div number 1000000) +:+ "M"
  else if (1000 <=? number)%Z
       then Number_toString (Math_round_div number 1000) +:+ "K"
  else Number_toString number.

(** The badge text that [updateBadgeForTab] sets. *)
Definition updateBadgeForTab (sketches : list Sketch) : string :=
  let totalViews := foldl (λ sum sketch, (sum + sketch_views sketch)%Z) 0%Z sketches in
  formatBadgeNumber totalViews.

(** The calls of the browser that [captureCurrentPage] awaits, in the
    order of the source. Each returns a promise that the browser may
    reject; [refreshStoredCount] and [updateBadgeForTab] stand for the
    calls they await. *)
Inductive ChromeCall : Type :=
  | TabsQuery
  | ExecuteScript
  | StorageGet
  | StorageSet
  | RefreshStoredCount
  | UpdateBadge.

Global Instance ChromeCall_eq_dec : EqDecision ChromeCall.
Proof. solve_decision. Defined.

(** The active tab, what the injected page script returned ([None]: no
    payload, [Some None]: a payload whose [sketches] is not an array),
    the two readings of the clock, [todayUTC()] and
    [nowAmsterdamTimestamp()], and which of the awaited calls the
    browser rejects on this click. *)
Record Tab : Type := {
  tab_id : option Z;
  tab_url : option string;
}.

Record Attempt : Type := {
  attempt_tab : option Tab;
  attempt_payload : option (option (list Sketch));
  attempt_today : string;
  attempt_now : string;
  attempt_rejects : ChromeCall → bool;
}.

(** What the [catch] of [captureCurrentPage] receives: one of the four
    errors that the function throws, or the rejection of an awaited
    call. *)
Inductive CaptureError : Type :=
  | NoActiveTab
  | NotOpenProcessing
  | UnexpectedScrapeResult
  | NoSketchesFound
  | Rejected (call : ChromeCall).

(** What a successful capture reports: the snapshot shown in the
    preview, the two counts of the status line and the badge text. *)
Record Captured : Type := {
  captured_snapshot : Snapshot;
  captured_sketches : nat;
  captured_snapshots : nat;
  captured_badge : string;
}.

Section Capture.
Context `{Engine}.

(** [captureCurrentPage] from the query for the tab to the snapshot it
    builds. *)
Definition capture_snapshot (attempt : Attempt) : CaptureError + Snapshot :=
  if attempt_rejects attempt TabsQuery then inl (Rejected TabsQuery)
  else
    match attempt_tab attempt with
    | None => inl NoActiveTab
    | Some tab =>
        match tab_id tab, tab_url tab with
        | Some id, Some url =>
            if bool_decide (id = 0%Z ∨ url = ""%string) then inl NoActiveTab
            else if negb (String.prefix "https://openprocessing.org/" url)
                 then inl NotOpenProcessing
            else if attempt_rejects attempt ExecuteScript
                 then inl (Rejected ExecuteScript)
            else
              match attempt_payload attempt with
              | Some (Some payload_sketches) =>
                  match payload_sketches with
                  | [] => inl NoSketchesFound
                  | _ =>
                      inr {| date := Some (attempt_today attempt);
                             fetched_at := Some (attempt_now attempt);
                             page_url := url;
                             sketches := payload_sketches |}
                  end
              | _ => inl UnexpectedScrapeResult
              end
        | _, _ => inl NoActiveTab
        end
    end.

(** [captureCurrentPage]: the storage after the click, and what the
    click shows, the error or the report. The history is stored before
    [refreshStoredCount] and [updateBadgeForTab] are awaited; a write
    that the browser rejects stores nothing. *)
Definition captureCurrentPage (stored : Stored) (attempt : Attempt)
    : Stored * (CaptureError + Captured) :=
  match capture_snapshot attempt with
  | inl error => (stored, inl error)
  | inr snapshot =>
      if attempt_rejects attempt StorageGet then (stored, inl (Rejected StorageGet))
      else
        let history := loadSnapshotHistory stored in
        let history := appendSnapshot history snapshot in
        if attempt_rejects attempt StorageSet then (stored, inl (Rejected StorageSet))
        else
          let stored := saveSnapshotHistory history in
          if attempt_rejects attempt RefreshStoredCount
          then (stored, inl (Rejected RefreshStoredCount))
          else if attempt_rejects attempt UpdateBadge
          then (stored, inl (Rejected UpdateBadge))
          else
            (stored,
             inr {| captured_snapshot := snapshot;
                    captured_sketches := length (sketches snapshot);
                    captured_snapshots := length history;
                    captured_badge := updateBadgeForTab (sketches snapshot) |})
  end.

(** A run of clicks on the capture button. *)
Definition capture_run (stored : Stored) (attempts : list Attempt) : Stored :=
  foldl (λ stored attempt, (captureCurrentPage stored attempt).1) stored attempts.

(** The snapshot that a click stores: the click gets as far as the
    snapshot, and the browser rejects neither the read nor the write of
    the storage. The storage the click starts from plays no part. *)
Definition captured_of (stored : Stored) (attempt : Attempt) : option Snapshot :=
  match capture_snapshot attempt with
  | inr snapshot =>
      if attempt_rejects attempt StorageGet || attempt_rejects attempt StorageSet
      then None else Some snapshot
  | inl _ => None
  end.

(** [formatRelativeTime], with the reading of [Date.now()]. *)
Definition formatRelativeTime (now : Z) (value : option string) : string :=
  match Date_parse (js_or_str value "") with
  | Fin time =>
      let elapsedMs := (now - time)%Z in
      if (elapsedMs <? 0)%Z then "just now"
      else
        let minuteMs := (60 * 1000)%Z in
        let hourMs := (60 * minuteMs)%Z in
        let dayMs := (24 * hourMs)%Z in
        if (elapsedMs <? hourMs)%Z
        then
          let minutes := Z.max 1 (elapsedMs `div` minuteMs) in
          Number_toString minutes +:+ " min ago"
        else if (elapsedMs <? dayMs)%Z
        then Number_toString (elapsedMs `div` hourMs) +:+ "h ago"
        else Number_toString (elapsedMs `div` dayMs) +:+ "d ago"
  | _ => ""
  end.
End Capture.

(** *** Text helpers *)

(** [truncateLabel] over strings of UTF-16 code units of any type, with
    the white space test of [trim] and the ellipsis character. *)
Section Truncate.
Context {Char : Type} (is_white : Char → bool) (ellipsis : Char).

Fixpoint trimStart (text : list Char) : list Char :=
  match text with
  | [] => []
  | c :: rest => if is_white c then trimStart rest else text
  end.

Definition trimEnd (text : list Char) : list Char :=
  reverse (trimStart (reverse text)).

Definition trim (text : list Char) : list Char := trimEnd (trimStart text).

(** A text that does not begin with white space. *)
Definition starts_clean (text : list Char) : Prop :=
  match text with
  | [] => True
  | c :: _ => is_white c = false
  end.

Definition truncateLabel (value : list Char) (maxLength : nat) : list Char :=
  let text := trim value in
  if bool_decide (length text ≤ maxLength) then text
  else trimEnd (take (Nat.max 0 (maxLength - 1)) text) ++ [ellipsis].
End Truncate.

(** [value.replaceAll(c, replacement)] for a pattern of one character. *)
Fixpoint replaceAll (c : ascii) (replacement : string) (value : string) : string :=
  match value with
  | EmptyString => EmptyString
  | String a rest =>
      if bool_decide (a = c) then replacement +:+ replaceAll c replacement rest
      else String a (replaceAll c replacement rest)
  end.

Definition double_quote : ascii := "034"%char.

Definition escapeHtml (value : string) : string :=
  replaceAll "'" "&#39;"
    (replaceAll double_quote "&quot;"
       (replaceAll ">" "&gt;"
          (replaceAll "<" "&lt;"
             (replaceAll "&" "&amp;" value)))).

(** One character of [escapeHtml]'s output. *)
Definition escape_char (a : ascii) : string :=
  if bool_decide (a = "&"%char) then "&amp;"
  else if bool_decide (a = "<"%char) then "&lt;"
  else if bool_decide (a = ">"%char) then "&gt;"
  else if bool_decide (a = double_quote) then "&quot;"
  else if bool_decide (a = "'"%char) then "&#39;"
  else String a EmptyString.

Fixpoint escape_each (value : string) : string :=
  match value with
  | EmptyString => EmptyString
  | String a rest => escape_char a +:+ escape_each rest
  end.

(** *** The page script's number and id readers (popup.js) *)

Definition is_digit (c : ascii) : bool :=
  match digit_of c with Some _ => true | None => false end.

(** [text.replace(/[^\d]/g, "")]. *)
Fixpoint keep_digits (text : string) : string :=
  match text with
  | EmptyString => EmptyString
  | String c rest =>
      if is_digit c then String c (keep_digits rest) else keep_digits rest
  end.

(** The double nearest to a non-negative integer, ties to the even
    significand: the integer itself below 2^53 = 9007199254740992, and
    above it the multiple of the unit of the 53-bit significand that is
    nearest. From 2^1024 - 2^970 on the double is Infinity, which is no
    integer; there this function yields 2^1024 or more, and nothing
    below reads it as a value of the program. *)
Definition nearest_double (value : Z) : Z :=
  if (value <? 9007199254740992)%Z then value
  else
    let unit := (2 ^ (Z.log2 value - 52))%Z in
    let quotient := (value `div` unit)%Z in
    let remainder := (value `mod` unit)%Z in
    if (unit <? 2 * remainder)%Z || ((2 * remainder =? unit)%Z && Z.odd quotient)
    then ((quotient + 1) * unit)%Z
    else (quotient * unit)%Z.

(** [Number(digits)] for a string of decimal digits: the double nearest
    to the number that the digits spell. *)
Definition decimal_value (digits : string) : Z :=
  nearest_double (default 0%Z (read_all_digits 0 digits)).

Definition toNumber (text : string) : Z :=
  let digitsOnly := keep_digits text in
  match digitsOnly with
  | EmptyString => 0%Z
  | _ => decimal_value digitsOnly
  end.

(** The canonical form under which the [i] flag compares characters:
    the upper case of an ASCII letter, any other character unchanged. *)
Definition canonical (c : ascii) : ascii :=
  let n := nat_of_ascii c in
  if bool_decide (97 ≤ n ≤ 122) then ascii_of_nat (n - 32) else c.

(** [pattern] at the head of [text], compared under the [i] flag: the
    text after it. *)
Fixpoint after_prefix_i (pattern text : string) : option string :=
  match pattern with
  | EmptyString => Some text
  | String p pattern' =>
      match text with
      | String c text' =>
          if bool_decide (canonical p = canonical c) then after_prefix_i pattern' text'
          else None
      | EmptyString => None
      end
  end.

(** The longest run of digits at the head of [text], and the rest. *)
Fixpoint span_digits (text : string) : string * string :=
  match text with
  | String c rest =>
      if is_digit c
      then let '(digits, tail) := span_digits rest in (String c digits, tail)
      else (EmptyString, text)
  | EmptyString => (EmptyString, EmptyString)
  end.

(** The first group of the leftmost match of [first] [literal] [(\d+)]
    under the [i] flag, where [first] is a set of characters. *)
Fixpoint match_digits_after (first : ascii → bool) (literal : string) (text : string)
    : option string :=
  match text with
  | EmptyString => None
  | String c rest =>
      let here :=
        if first c
        then match after_prefix_i literal rest with
             | Some tail =>
                 match span_digits tail with
                 | (EmptyString, _) => None
                 | (digits, _) => Some digits
                 end
             | None => None
             end
        else None in
      match here with
      | Some digits => Some digits
      | None => match_digits_after first literal rest
      end
  end.

Definition extractSketchId (url : string) : option Z :=
  match url with
  | EmptyString => None
  | _ =>
      let sketchMatch :=
        match_digits_after (λ c, bool_decide (c = "/"%char)) "sketch/" url in
      match sketchMatch with
      | Some digits => Some (decimal_value digits)
      | None =>
          let visualMatch :=
            match_digits_after (λ c, bool_decide (c = "?"%char ∨ c = "&"%char))
              "visualID=" url in
          match visualMatch with
          | Some digits => Some (decimal_value digits)
          | None => None
          end
      end
  end.

(** *** The page script's loop over the links (popup.js) *)

(** What the document gives for one link of [links]: its [href]
    attribute, the text of the heading of its card if the card has one,
    the link's own text, and the text of the card's views element if
    there is one. *)
Record Link : Type := {
  link_href : option string;
  link_heading : option string;
  link_text : string;
  link_views : option string;
}.

(** [pattern] at the end of [text], compared under the [i] flag. *)
Definition ends_with_i (pattern text : string) : bool :=
  match after_prefix_i (String.rev pattern) (String.rev text) with
  | Some _ => true
  | None => false
  end.

(** [/\/sketch\/create\/?$/i.test(href)]. *)
Definition is_create_link (href : string) : bool :=
  ends_with_i "/sketch/create" href || ends_with_i "/sketch/create/" href.

Definition parseViewsFromCard (link : Link) : Z :=
  match link_views link with
  | Some directViewsText =>
      if bool_decide (directViewsText = ""%string) then 0%Z
      else toNumber directViewsText
  | None => 0%Z
  end.

Definition scraped_views_compare (left right : Sketch) : Num :=
  Fin (sketch_views right - sketch_views left).

Section Scrape.
(** [new URL(href, window.location.origin).toString()], which throws on
    a string that is no URL ([None]), belongs to the browser. [parseTitle]
    rewrites white space with regular expressions over Unicode classes;
    the loop does not depend on what it returns. *)
Context (resolve : string → option string) (parseTitle : string → string).

(** One pass of the loop over [links]; [None] when the pass throws. *)
Definition scrape_link (byId : list (Z * Sketch)) (link : Link)
    : option (list (Z * Sketch)) :=
  let href := js_or_str (link_href link) "" in
  if bool_decide (href = ""%string) || is_create_link href then Some byId
  else
    match resolve href with
    | None => None
    | Some url =>
        match extractSketchId url with
        | None => Some byId
        | Some sketchId =>
            if Map_has sketchId byId then Some byId
            else
              let title := parseTitle (js_or_str (link_heading link) (link_text link)) in
              let views := parseViewsFromCard link in
              let sketch :=
                {| sketch_id := JsNumber (Fin sketchId); sketch_title := title;
                   sketch_views := views; sketch_url := url |} in
              Some (Map_set sketchId sketch byId)
        end
    end.

Definition scrape_links (links : list Link) : option (list (Z * Sketch)) :=
  foldl (λ state link, state ≫= λ byId, scrape_link byId link) (Some []) links.

(** [scrapeOpenProcessingPage]: the [sketches] of the payload. *)
Definition scrapeOpenProcessingPage (links : list Link) : option (list Sketch) :=
  byId ← scrape_links links;
  Some (Array_sort scraped_views_compare (Map_values byId)).

End Scrape.

(** *** The sketch filter and the page summary (options.js) *)

Section Filter.
(** [String.prototype.localeCompare] with its options belongs to the
    engine. *)
Context (localeCompare : string → string → Num).

Definition title_compare (left right : Series) : Num :=
  localeCompare (series_title left) (series_title right).

(** The options of the filter: value and text. *)
Definition filter_options (lines : list Series) : list (string * string) :=
  ("all"%string,
   "All sketches (" +:+ Number_toString (Z.of_nat (length lines)) +:+ ")")
  :: ((λ line,
         (Number_toString (series_id line),
          series_title line +:+ " (#" +:+ Number_toString (series_id line) +:+ ")"))
      <$> Array_sort title_compare lines).

(** [populateFilterOptions]: the options, and the selection it leaves
    in [state.selectedSketchId]. *)
Definition populateFilterOptions (lines : list Series) (selectedSketchId : string)
    : list (string * string) * string :=
  let previousValue := selectedSketchId in
  let options := filter_options lines in
  let hasPrevious :=
    bool_decide (Exists (λ option, option.1 = previousValue) options) in
  (options, if hasPrevious then previousValue else "all"%string).
End Filter.

(** The series that [render] draws for a selection. *)
Definition selected_series (lines : list Series) (selectedSketchId : string)
    : list Series :=
  if bool_decide (selectedSketchId = "all"%string) then lines
  else filter (λ item, Number_toString (series_id item) = selectedSketchId) lines.

(** The summary line of [render]. *)
Inductive Summary : Type :=
  | NoStoredSnapshots
  | NoDataForSelectedSketch
  | AllSketches (captures sketches : nat)
  | SelectedSketch (captures : nat) (title : string) (sketchId : Z).

(** [render]: the summary, and the stats when it draws them. *)
Definition render (state : State) (selectedSketchId : string)
    : Summary * option (Z * Breakdown) :=
  match normalizedHistory state with
  | [] => (NoStoredSnapshots, None)
  | _ =>
      let lines := selected_series (series state) selectedSketchId in
      match lines with
      | [] => (NoDataForSelectedSketch, None)
      | selected :: _ =>
          (if bool_decide (selectedSketchId = "all"%string)
           then AllSketches (length (normalizedHistory state)) (length lines)
           else SelectedSketch (length (normalizedHistory state))
                  (series_title selected) (series_id selected),
           Some (drawStats lines (normalizedHistory state)))
      end
  end.

(** *** Sample data for the capture flow, the page script and the labels *)

(** The code units that [trim] and [trimEnd] remove (WhiteSpace and
    LineTerminator of the language), and the code unit of the ellipsis
    that [truncateLabel] appends. *)
Definition is_white_space (unit : N) : bool :=
  bool_decide (unit ∈ [9; 10; 11; 12; 13; 32; 160; 5760; 8192; 8193; 8194; 8195;
                       8196; 8197; 8198; 8199; 8200; 8201; 8202; 8232; 8233; 8239;
                       8287; 12288; 65279]%N).

Definition horizontal_ellipsis : N := 8230%N.

(** The code units of " My sketch ". *)
Definition padded_title : list N :=
  [32; 77; 121; 32; 115; 107; 101; 116; 99; 104; 32]%N.

(** A sketch list page of the site, and the same page after more views:
    a link to the editor, two sketches, and a second link to the first
    sketch. *)
Definition sample_resolve (href : string) : option string :=
  Some ("https://openprocessing.org" +:+ href).

Definition sample_parseTitle (rawTitle : string) : string := rawTitle.

Definition sketch_link (href : string) (heading : option string) (text : string)
    (views : option string) : Link :=
  {| link_href := Some href; link_heading := heading; link_text := text;
     link_views := views |}.

Definition list_page : list Link :=
  [ sketch_link "/sketch/create" None "Create a sketch" None;
    sketch_link "/sketch/101" (Some "Waves") "Waves 1,234" (Some "1,234");
    sketch_link "/sketch/202" None "Dots" (Some "56 views");
    sketch_link "/sketch/101" None "thumbnail" None ].

Definition list_page_later : list Link :=
  [ sketch_link "/sketch/create" None "Create a sketch" None;
    sketch_link "/sketch/101" (Some "Waves") "Waves 1,250" (Some "1,250");
    sketch_link "/sketch/202" None "Dots" (Some "2,056 views");
    sketch_link "/sketch/101" None "thumbnail" None ].

(** Three clicks on the capture button: on the list page, on a tab of
    another site, and on the list page again. *)
Definition click (url : string) (links : list Link) (today now : string) : Attempt :=
  {| attempt_tab := Some {| tab_id := Some 7%Z; tab_url := Some url |};
     attempt_payload :=
       Some (scrapeOpenProcessingPage sample_resolve sample_parseTitle links);
     attempt_today := today; attempt_now := now;
     attempt_rejects := λ _, false |}.

(** A click on the list page on which the browser rejects the update
    of the badge. *)
Definition click_without_badge : Attempt :=
  {| attempt_tab :=
       Some {| tab_id := Some 7%Z;
               tab_url := Some "https://openprocessing.org/user/78298" |};
     attempt_payload :=
       Some (scrapeOpenProcessingPage sample_resolve sample_parseTitle list_page);
     attempt_today := "2026-02-22"; attempt_now := "2026-02-22T21:00:00.000+01:00";
     attempt_rejects := λ call, bool_decide (call = UpdateBadge) |}.

Definition clicks : list Attempt :=
  [ click "https://openprocessing.org/user/78298" list_page
      "2026-02-22" "2026-02-22T21:00:00.000+01:00";
    click "https://example.org/" list_page
      "2026-02-23" "2026-02-23T09:00:00.000+01:00";
    click "https://openprocessing.org/user/78298" list_page_later
      "2026-02-23" "2026-02-23T21:00:00.000+01:00" ].

(** A comparison of titles by code units. *)
Definition code_unit_compare (left right : string) : Num :=
  match String.compare left right with
  | Lt => Fin (-1)
  | Eq => Fin 0
  | Gt => Fin 1
  end.

(** ** Array methods: general facts *)

Section ArrayFacts.
Context {A : Type}.

Lemma findIndex_Some (p : A → bool) (l : list A) (i : nat) :
  findIndex p l = Some i →
  ∃ x, l !! i = Some x ∧ p x = true ∧
       ∀ j y, j < i → l !! j = Some y → p y = false.
Proof.
  revert i. induction l as [|a l IH]; intros i; simpl; [done|].
  destruct (p a) eqn:Hpa.
  - intros [= <-]. exists a. repeat split; [done|]. intros j y Hj. lia.
  - destruct (findIndex p l) as [k|] eqn:Hk; simpl; [|done].
    intros [= <-]. destruct (IH k eq_refl) as (x & Hx & Hpx & Hbefore).
    exists x. repeat split; [done..|].
    intros [|j] y Hj; simpl.
    + by intros [= <-].
    + apply Hbefore. lia.
Qed.

Lemma findIndex_None (p : A → bool) (l : list A) :
  findIndex p l = None ↔ ∀ x, x ∈ l → p x = false.
Proof.
  induction l as [|a l IH]; simpl.
  - split; [|done]. intros _ x Hx. by apply elem_of_nil in Hx.
  - destruct (p a) eqn:Hpa.
    + split; [done|]. intros Hall. rewrite Hall in Hpa; [done|left].
    + destruct (findIndex p l) as [k|] eqn:Hk; simpl.
      * split; [done|]. intros Hall.
        assert (Some k = None) as Hbad; [|done].
        apply IH. intros x Hx. apply Hall. by right.
      * split; [|done]. intros _ x [->|Hx]%elem_of_cons; [done|].
        by apply IH.
Qed.

Lemma findIndex_is_Some (p : A → bool) (l : list A) (x : A) :
  x ∈ l → p x = true → is_Some (findIndex p l).
Proof.
  intros Hx Hpx. destruct (findIndex p l) eqn:Hfind; [by eexists|].
  rewrite findIndex_None in Hfind. rewrite (Hfind x Hx) in Hpx. done.
Qed.

Context (comparefn : A → A → Num).

Lemma sort_insert_Permutation (x : A) (l : list A) :
  sort_insert comparefn x l ≡ₚ x :: l.
Proof.
  induction l as [|y l IH]; simpl; [done|].
  destruct (Num_pos (comparefn x y)); [|done].
  rewrite IH. apply Permutation_swap.
Qed.

Lemma Array_sort_Permutation (l : list A) : Array_sort comparefn l ≡ₚ l.
Proof.
  induction l as [|x l IH]; simpl; [done|].
  by rewrite sort_insert_Permutation, IH.
Qed.

Lemma Array_sort_length (l : list A) : length (Array_sort comparefn l) = length l.
Proof. by rewrite Array_sort_Permutation. Qed.

Lemma elem_of_Array_sort (x : A) (l : list A) : x ∈ Array_sort comparefn l ↔ x ∈ l.
Proof. by rewrite Array_sort_Permutation. Qed.

(** A comparator that computes [key x - key y] on the elements of the
    array is consistent there, and the sorted array is ascending by
    [key]. *)
Lemma sort_insert_sorted (key : A → Z) (x : A) (l : list A) :
  (∀ y, y ∈ l → comparefn x y = Fin (key x - key y)) →
  StronglySorted (λ a b, (key a ≤ key b)%Z) l →
  StronglySorted (λ a b, (key a ≤ key b)%Z) (sort_insert comparefn x l).
Proof.
  induction l as [|y l IH]; intros Hcmp Hsorted; simpl.
  - repeat constructor.
  - apply StronglySorted_inv in Hsorted as [Hl Hy].
    rewrite (Hcmp y) by left. simpl.
    destruct (Z.ltb_spec 0 (key x - key y)) as [Hgt|Hle].
    + constructor.
      * apply IH; [|done]. intros z Hz. apply Hcmp. by right.
      * rewrite sort_insert_Permutation. constructor; [lia|done].
    + constructor; [by constructor|].
      constructor; [lia|].
      eapply Forall_impl; [exact Hy|]. simpl. intros z Hz. lia.
Qed.

Lemma Array_sort_sorted (key : A → Z) (l : list A) :
  (∀ x y, x ∈ l → y ∈ l → comparefn x y = Fin (key x - key y)) →
  StronglySorted (λ a b, (key a ≤ key b)%Z) (Array_sort comparefn l).
Proof.
  induction l as [|x l IH]; intros Hcmp; simpl; [constructor|].
  apply sort_insert_sorted.
  - intros y Hy%(proj1 (elem_of_Array_sort _ _)). apply Hcmp; [left|by right].
  - apply IH. intros a b Ha Hb. apply Hcmp; by right.
Qed.

(** Being ascending by [key] is a property of the list of keys. *)
Lemma StronglySorted_by_key (key : A → Z) (l : list A) :
  StronglySorted (λ a b, (key a ≤ key b)%Z) l ↔ StronglySorted Z.le (key <$> l).
Proof.
  induction l as [|x l IH]; csimpl.
  - split; constructor.
  - split; intros [Hl Hx]%StronglySorted_inv; constructor;
      try (by apply IH); revert Hx; by rewrite Forall_fmap.
Qed.

(** An array in which no element compares greater than a later one is
    left as it is. *)
Lemma Array_sort_already_sorted (l : list A) :
  StronglySorted (λ a b, Num_pos (comparefn a b) = false) l →
  Array_sort comparefn l = l.
Proof.
  induction 1 as [|x l Hl IH Hx]; simpl; [done|].
  rewrite IH. destruct l as [|y l']; simpl; [done|].
  apply Forall_cons in Hx as [-> _]. done.
Qed.
End ArrayFacts.

(** ** The history store (popup.js) *)

Section History.
Context `{Engine}.

Lemma snapshotTime_effective_time (snapshot : Snapshot) :
  snapshotTime snapshot = Fin (effective_time snapshot).
Proof.
  unfold effective_time, snapshotTime, Date_parse.
  by destruct (time_value _).
Qed.

Lemma well_stamped_Date_parse (snapshot : Snapshot) :
  well_stamped snapshot →
  Date_parse (js_or_str (js_or (fetched_at snapshot) (date snapshot)) "")
  = Fin (effective_time snapshot).
Proof.
  intros (stamp & t & Hstamp & Hne & Ht).
  unfold effective_time, snapshotTime, js_or, truthy, js_or_str, Date_parse.
  rewrite Hstamp. rewrite !bool_decide_eq_false_2 by done. simpl.
  rewrite bool_decide_eq_false_2 by done. by rewrite Ht.
Qed.

Lemma well_stamped_same_time (a b : Snapshot) :
  well_stamped a → fetched_at a = fetched_at b → effective_time a = effective_time b.
Proof.
  intros (stamp & t & Hstamp & Hne & Ht) Hab.
  unfold effective_time, snapshotTime, js_or, truthy, js_or_str.
  rewrite <- Hab, Hstamp. rewrite !bool_decide_eq_false_2 by done. simpl.
  by rewrite !bool_decide_eq_false_2 by done.
Qed.

Lemma appendSnapshot_duplicate (history : list Snapshot) (snapshot : Snapshot) (i : nat) :
  findIndex (λ entry, bool_decide (fetched_at entry = fetched_at snapshot)) history = Some i →
  appendSnapshot history snapshot = <[i := snapshot]> history.
Proof. unfold appendSnapshot. by intros ->. Qed.

Lemma appendSnapshot_fresh (history : list Snapshot) (snapshot : Snapshot) :
  findIndex (λ entry, bool_decide (fetched_at entry = fetched_at snapshot)) history = None →
  appendSnapshot history snapshot
  = Array_sort appendSnapshot_compare (history ++ [snapshot]).
Proof. unfold appendSnapshot. by intros ->. Qed.

(** C1. When some entry of the history has the [fetched_at] of the new
    snapshot, [appendSnapshot] overwrites the first such entry in its
    slot: the length is unchanged, that slot holds the new snapshot, and
    every other slot holds what it held. *)
Theorem appendSnapshot_replaces_in_place (history : list Snapshot) (snapshot : Snapshot) :
  (∃ entry, entry ∈ history ∧ fetched_at entry = fetched_at snapshot) →
  ∃ (i : nat) (old : Snapshot),
    history !! i = Some old ∧
    fetched_at old = fetched_at snapshot ∧
    (∀ j earlier, j < i → history !! j = Some earlier →
                  fetched_at earlier ≠ fetched_at snapshot) ∧
    length (appendSnapshot history snapshot) = length history ∧
    appendSnapshot history snapshot !! i = Some snapshot ∧
    (∀ j, j ≠ i → appendSnapshot history snapshot !! j = history !! j).
Proof.
  intros (entry & Hin & Hsame).
  destruct (findIndex_is_Some
              (λ entry, bool_decide (fetched_at entry = fetched_at snapshot))
              history entry Hin) as [i Hi].
  { by apply bool_decide_eq_true. }
  destruct (findIndex_Some _ _ _ Hi) as (old & Hold & Hp & Hbefore).
  apply bool_decide_eq_true in Hp.
  exists i, old. rewrite (appendSnapshot_duplicate _ _ _ Hi).
  split_and!; [done|done| | | |].
  - intros j earlier Hj Hearlier.
    specialize (Hbefore j earlier Hj Hearlier).
    by apply bool_decide_eq_false in Hbefore.
  - apply length_insert.
  - apply list_lookup_insert_eq. by eapply lookup_lt_Some.
  - intros j Hj. by apply list_lookup_insert_ne.
Qed.

(** What a merge keeps: the new snapshot, and every entry with another
    [fetched_at]. *)
Lemma appendSnapshot_elem_of (history : list Snapshot) (snapshot s : Snapshot) :
  NoDup (fetched_at <$> history) →
  s ∈ appendSnapshot history snapshot ↔
  s = snapshot ∨ (s ∈ history ∧ fetched_at s ≠ fetched_at snapshot).
Proof.
  intros Hnodup.
  destruct (findIndex (λ entry, bool_decide (fetched_at entry = fetched_at snapshot))
              history) as [i|] eqn:Hfind.
  - rewrite (appendSnapshot_duplicate _ _ _ Hfind).
    destruct (findIndex_Some _ _ _ Hfind) as (old & Hold & Hp & _).
    apply bool_decide_eq_true in Hp.
    rewrite list_elem_of_lookup. split.
    + intros [j Hj]. apply list_lookup_insert_Some in Hj as [(_ & -> & _)|[Hne Hj]].
      * by left.
      * right. split; [by eapply list_elem_of_lookup_2|].
        intros Hsame. apply Hne.
        apply (NoDup_lookup _ i j (fetched_at snapshot) Hnodup).
        -- by rewrite list_lookup_fmap, Hold; simpl; rewrite Hp.
        -- by rewrite list_lookup_fmap, Hj; simpl; rewrite Hsame.
    + intros [->|[[j Hj]%list_elem_of_lookup_1 Hne]].
      * exists i. apply list_lookup_insert_eq. by eapply lookup_lt_Some.
      * exists j. rewrite list_lookup_insert_ne; [done|].
        intros ->. rewrite Hold in Hj. injection Hj as ->. done.
  - rewrite (appendSnapshot_fresh _ _ Hfind).
    rewrite elem_of_Array_sort, elem_of_app, list_elem_of_singleton.
    rewrite findIndex_None in Hfind. split.
    + intros [Hs| ->]; [right|by left]. split; [done|].
      specialize (Hfind s Hs). by apply bool_decide_eq_false in Hfind.
    + intros [->|[Hs _]]; [by right|by left].
Qed.

Lemma appendSnapshot_NoDup (history : list Snapshot) (snapshot : Snapshot) :
  NoDup (fetched_at <$> history) →
  NoDup (fetched_at <$> appendSnapshot history snapshot).
Proof.
  intros Hnodup.
  destruct (findIndex (λ entry, bool_decide (fetched_at entry = fetched_at snapshot))
              history) as [i|] eqn:Hfind.
  - rewrite (appendSnapshot_duplicate _ _ _ Hfind).
    destruct (findIndex_Some _ _ _ Hfind) as (old & Hold & Hp & _).
    apply bool_decide_eq_true in Hp.
    rewrite list_fmap_insert, list_insert_id; [done|].
    by rewrite list_lookup_fmap, Hold; simpl; rewrite Hp.
  - rewrite (appendSnapshot_fresh _ _ Hfind).
    rewrite Array_sort_Permutation, fmap_app. simpl.
    apply NoDup_app. split_and!; [done| |apply NoDup_singleton].
    intros stamp (e & -> & He)%list_elem_of_fmap Hin%list_elem_of_singleton.
    rewrite findIndex_None in Hfind. specialize (Hfind e He).
    by apply bool_decide_eq_false in Hfind.
Qed.

Lemma last_capture_snoc (snapshots : list Snapshot) (x s : Snapshot) :
  last_capture (snapshots ++ [x]) s ↔
  s = x ∨ (last_capture snapshots s ∧ fetched_at s ≠ fetched_at x).
Proof.
  unfold last_capture. split.
  - intros (before & after & Heq & Hafter).
    destruct after as [|y after _] using rev_ind.
    + left. apply app_inj_tail in Heq as [_ ->]. done.
    + right. rewrite app_comm_cons, app_assoc in Heq.
      apply app_inj_tail in Heq as [-> <-].
      apply Forall_app in Hafter as [Hafter Hx].
      rewrite Forall_singleton in Hx. split; [|by apply not_eq_sym].
      by exists before, after.
  - intros [->|[(before & after & -> & Hafter) Hne]].
    + exists snapshots, []. split; [done|constructor].
    + exists before, (after ++ [x]). split.
      * by rewrite <- app_assoc.
      * apply Forall_app. split; [done|]. by apply Forall_singleton, not_eq_sym.
Qed.

Lemma merge_all_snoc (snapshots : list Snapshot) (x : Snapshot) :
  merge_all (snapshots ++ [x]) = appendSnapshot (merge_all snapshots) x.
Proof. unfold merge_all. by rewrite foldl_snoc. Qed.

Lemma merge_all_contents (snapshots : list Snapshot) :
  NoDup (fetched_at <$> merge_all snapshots) ∧
  ∀ s, s ∈ merge_all snapshots ↔ last_capture snapshots s.
Proof.
  induction snapshots as [|x snapshots [IHnodup IHmem]] using rev_ind.
  - split; [constructor|]. intros s. split.
    + by intros ?%elem_of_nil.
    + intros (before & after & Heq & _). by destruct before.
  - rewrite merge_all_snoc. split; [by apply appendSnapshot_NoDup|].
    intros s. rewrite appendSnapshot_elem_of by done.
    by rewrite last_capture_snoc, IHmem.
Qed.

Lemma appendSnapshot_sorted (history : list Snapshot) (snapshot : Snapshot) :
  Forall well_stamped history → well_stamped snapshot →
  StronglySorted (λ a b, (effective_time a ≤ effective_time b)%Z) history →
  StronglySorted (λ a b, (effective_time a ≤ effective_time b)%Z)
    (appendSnapshot history snapshot).
Proof.
  intros Hhistory Hsnapshot Hsorted.
  destruct (findIndex (λ entry, bool_decide (fetched_at entry = fetched_at snapshot))
              history) as [i|] eqn:Hfind.
  - rewrite (appendSnapshot_duplicate _ _ _ Hfind).
    destruct (findIndex_Some _ _ _ Hfind) as (old & Hold & Hp & _).
    apply bool_decide_eq_true in Hp.
    apply StronglySorted_by_key. apply StronglySorted_by_key in Hsorted.
    rewrite list_fmap_insert, list_insert_id; [done|].
    rewrite list_lookup_fmap, Hold. simpl. f_equal.
    symmetry. by apply well_stamped_same_time.
  - rewrite (appendSnapshot_fresh _ _ Hfind).
    apply Array_sort_sorted. intros a b Ha Hb.
    assert (∀ c, c ∈ history ++ [snapshot] → well_stamped c) as Hall.
    { intros c [Hc| ->%list_elem_of_singleton]%elem_of_app; [|done].
      by eapply (proj1 (Forall_forall _ _) Hhistory). }
    unfold appendSnapshot_compare.
    by rewrite !well_stamped_Date_parse by auto.
Qed.

(** One more stamped snapshot keeps a merged history ascending. *)
Lemma merge_all_snoc_sorted (snapshots : list Snapshot) (x : Snapshot) :
  Forall well_stamped (snapshots ++ [x]) →
  StronglySorted (λ a b, (effective_time a ≤ effective_time b)%Z) (merge_all snapshots) →
  StronglySorted (λ a b, (effective_time a ≤ effective_time b)%Z)
    (merge_all (snapshots ++ [x])).
Proof.
  intros [Hstamped Hx]%Forall_app Hsorted. rewrite Forall_singleton in Hx.
  rewrite merge_all_snoc. apply appendSnapshot_sorted; [|done..].
  apply Forall_forall. intros s Hs.
  apply merge_all_contents in Hs as (before & after & -> & _).
  apply Forall_app in Hstamped as [_ Hstamped].
  by apply Forall_cons in Hstamped as [? _].
Qed.

(** C2, for stamped snapshots. Merging, in any order and into the empty
    history, snapshots that each carry a non-empty [fetched_at] read by
    [Date.parse] gives a history ascending by effective timestamp. After
    any run of merges the history has no two entries of the same
    [fetched_at] and holds exactly the last capture of every
    [fetched_at]. *)
Theorem merge_all_sorted_and_duplicate_free (snapshots : list Snapshot) :
  (Forall well_stamped snapshots →
   StronglySorted (λ a b, (effective_time a ≤ effective_time b)%Z)
     (merge_all snapshots)) ∧
  NoDup (fetched_at <$> merge_all snapshots) ∧
  (∀ s, s ∈ merge_all snapshots ↔ last_capture snapshots s).
Proof.
  split; [|apply merge_all_contents].
  induction snapshots as [|x snapshots IH] using rev_ind; intros Hstamped.
  - constructor.
  - apply merge_all_snoc_sorted; [done|].
    apply IH. by apply Forall_app in Hstamped as [? _].
Qed.
End History.

(** ** The delta analyzer: totals, latest delta and lookback *)

Section Stats.

Lemma lastIncrease_scan_Some (totals : list Z) (n i : nat) :
  lastIncrease_scan totals n = Some i →
  1 ≤ i ≤ n ∧
  (∃ here before, totals !! i = Some here ∧ totals !! (i - 1) = Some before ∧
                  (before < here)%Z) ∧
  (∀ j a b, i < j ≤ n → totals !! j = Some a → totals !! (j - 1) = Some b →
            (a ≤ b)%Z).
Proof.
  induction n as [|n IH]; simpl; [done|].
  assert (lastIncrease_scan totals n = Some i →
          ∀ a b, totals !! S n = Some a → totals !! n = Some b → (a ≤ b)%Z →
          1 ≤ i ≤ S n ∧
          (∃ here before, totals !! i = Some here ∧ totals !! (i - 1) = Some before ∧
                          (before < here)%Z) ∧
          (∀ j a b, i < j ≤ S n → totals !! j = Some a → totals !! (j - 1) = Some b →
                    (a ≤ b)%Z)) as Hstep.
  { intros Hscan a b Ha Hb Hab. destruct (IH Hscan) as (Hi & Hpair & Hlater).
    split_and!; [lia|lia|done|].
    intros j a' b' Hj Ha' Hb'. destruct (decide (j = S n)) as [->|Hne].
    - replace (S n - 1) with n in Hb' by lia. congruence.
    - apply (Hlater j); [lia|done..]. }
  destruct (totals !! S n) as [here|] eqn:Hhere.
  - destruct (totals !! n) as [before|] eqn:Hbefore.
    + destruct (Z.ltb_spec before here) as [Hlt|Hge].
      * intros [= <-]. split_and!; [lia|lia| |].
        -- exists here, before. replace (S n - 1) with n by lia. done.
        -- intros j a b Hj. lia.
      * intros Hscan. by apply (Hstep Hscan here before).
    + apply lookup_ge_None in Hbefore. apply lookup_lt_Some in Hhere. lia.
  - intros Hscan. destruct (IH Hscan) as (Hi & Hpair & Hlater).
    split_and!; [lia|lia|done|].
    intros j a b Hj Ha Hb. destruct (decide (j = S n)) as [->|Hne]; [congruence|].
    apply (Hlater j); [lia|done..].
Qed.

Lemma lastIncrease_scan_None (totals : list Z) (n : nat) :
  lastIncrease_scan totals n = None →
  ∀ j a b, 1 ≤ j ≤ n → totals !! j = Some a → totals !! (j - 1) = Some b →
           (a ≤ b)%Z.
Proof.
  induction n as [|n IH]; simpl; [intros _ j a b Hj; lia|].
  intros Hscan j a b Hj Ha Hb.
  destruct (decide (j = S n)) as [->|Hne].
  - replace (S n - 1) with n in Hb by lia. rewrite Ha, Hb in Hscan.
    destruct (Z.ltb_spec b a); [done|lia].
  - apply (IH) with (j := j); [|lia|done..].
    destruct (totals !! S n), (totals !! n); try done.
    by destruct (_ <? _)%Z.
Qed.

Lemma latestDelta_two (front : list Z) (previous last : Z) :
  latestDelta (front ++ [previous; last]) = Some (last - previous)%Z.
Proof.
  unfold latestDelta, previousTotal, latestTotal.
  rewrite length_app. simpl.
  rewrite bool_decide_eq_true_2 by lia.
  replace (length front + 2 - 2) with (length front + 0) by lia.
  replace (length front + 2 - 1) with (length front + 1) by lia.
  rewrite !lookup_app_r by lia.
  replace (length front + 0 - length front) with 0 by lia.
  replace (length front + 1 - length front) with 1 by lia. simpl.
  by destruct front.
Qed.

Lemma drawPopupStats_totals_two (front : list Z) (previous last : Z)
    (increases : list Increase) :
  drawPopupStats_totals (front ++ [previous; last]) increases
  = (last,
     if (0 <? last - previous)%Z then NewViews (last - previous) increases
     else lastIncrease_breakdown (front ++ [previous; last])).
Proof.
  unfold drawPopupStats_totals.
  destruct (front ++ [previous; last]) as [|x l] eqn:Heq; [by destruct front|].
  rewrite <- Heq. clear Heq. rewrite length_app. simpl.
  rewrite bool_decide_eq_false_2 by lia.
  replace (length front + 2 - 2) with (length front + 0) by lia.
  replace (length front + 2 - 1) with (length front + 1) by lia.
  rewrite !lookup_app_r by lia.
  replace (length front + 0 - length front) with 0 by lia.
  replace (length front + 1 - length front) with 1 by lia. simpl.
  by destruct (_ <? _)%Z.
Qed.

Lemma drawStats_totals_two (front : list Z) (previous last : Z)
    (increases : list Increase) :
  drawStats_totals (front ++ [previous; last]) increases
  = (last,
     if (0 <? last - previous)%Z then NewViews (last - previous) increases
     else lastIncrease_breakdown (front ++ [previous; last])).
Proof.
  unfold drawStats_totals. rewrite latestDelta_two.
  assert (latestTotal (front ++ [previous; last]) = last) as ->.
  { unfold latestTotal. destruct (front ++ [previous; last]) eqn:Heq;
      [by destruct front|]. rewrite <- Heq, length_app. simpl.
    replace (length front + 2 - 1) with (length front + 1) by lia.
    rewrite lookup_app_r by lia.
    by replace (length front + 1 - length front) with 1 by lia. }
  by destruct (_ <? _)%Z.
Qed.

(** Both stats functions compute one total per snapshot. *)
Lemma series_totals_length (lines : list Series) (snapshots : list Snapshot) :
  length (series_totals lines snapshots) = length snapshots.
Proof. unfold series_totals. apply length_imap. Qed.

Lemma popup_totals_length (history : list Snapshot) :
  length (popup_totals history) = length history.
Proof. unfold popup_totals. apply length_fmap. Qed.

(** C7. With fewer than two totals there is no latest delta, and both
    stats functions answer with a waiting state; with two or more, the
    latest delta is the last total minus the one before it, of either
    sign, and both functions answer from it. *)
Theorem latestDelta_null_or_difference (totals : list Z) (increases : list Increase) :
  (length totals < 2 →
     latestDelta totals = None ∧
     (drawStats_totals totals increases).2 = WaitingForNextCapture ∧
     is_waiting (drawPopupStats_totals totals increases).2 ∧
     (length totals = 1 →
        (drawPopupStats_totals totals increases).2 = WaitingForNextCapture)) ∧
  (∀ front previous last, totals = front ++ [previous; last] →
     latestDelta totals = Some (last - previous)%Z ∧
     drawStats_totals totals increases = drawPopupStats_totals totals increases ∧
     (drawStats_totals totals increases).2
     = if (0 <? last - previous)%Z then NewViews (last - previous) increases
       else lastIncrease_breakdown totals).
Proof.
  split.
  - intros Hlen. destruct totals as [|x [|y l]]; simpl in Hlen; [| |lia].
    + unfold is_waiting. split_and!; [done|done|by left|done].
    + unfold is_waiting. split_and!; [done|done|by right|done].
  - intros front previous last ->.
    rewrite latestDelta_two, drawStats_totals_two, drawPopupStats_totals_two.
    done.
Qed.

(** C6, from two totals on. With at least two totals and a latest delta that is not
    positive, both stats functions answer with the lookback: the
    greatest index whose total exceeds the one before it, with their
    difference, or "none observed yet" when no total exceeds the one
    before it. On [100, 150, 150] the answer is index 1 with 50. *)
Theorem lookback_reports_last_increase (totals : list Z) (increases : list Increase)
    (d : Z) :
  latestDelta totals = Some d → (d ≤ 0)%Z →
  (drawStats_totals totals increases).2 = lastIncrease_breakdown totals ∧
  (drawPopupStats_totals totals increases).2 = lastIncrease_breakdown totals ∧
  ((∃ i here before,
      lastIncrease_breakdown totals = NoneSince i (here - before) ∧
      1 ≤ i ∧ totals !! i = Some here ∧ totals !! (i - 1) = Some before ∧
      (before < here)%Z ∧
      (∀ j a b, i < j → totals !! j = Some a → totals !! (j - 1) = Some b →
                (a ≤ b)%Z))
   ∨ (lastIncrease_breakdown totals = NoneObservedYet ∧
      (∀ j a b, 1 ≤ j → totals !! j = Some a → totals !! (j - 1) = Some b →
                (a ≤ b)%Z))) ∧
  lastIncrease_breakdown [100; 150; 150]%Z = NoneSince 1 50.
Proof.
  intros Hdelta Hd.
  assert (∃ front previous last, totals = front ++ [previous; last])
    as (front & previous & last & Htotals).
  { unfold latestDelta, previousTotal in Hdelta. case_bool_decide as Hlen; [|done].
    destruct totals as [|last rest _] using rev_ind; [simpl in Hlen; lia|].
    destruct rest as [|previous front _] using rev_ind.
    - simpl in Hlen. lia.
    - exists front, previous, last. by rewrite <- app_assoc. }
  assert (d = (last - previous)%Z) as ->.
  { rewrite Htotals, latestDelta_two in Hdelta. congruence. }
  split_and!; [| | |done].
  - rewrite Htotals at 1. rewrite drawStats_totals_two. simpl.
    destruct (Z.ltb_spec 0 (last - previous)); [lia|by rewrite Htotals].
  - rewrite Htotals at 1. rewrite drawPopupStats_totals_two. simpl.
    destruct (Z.ltb_spec 0 (last - previous)); [lia|by rewrite Htotals].
  - unfold lastIncrease_breakdown, lastIncreaseIndex.
    destruct (lastIncrease_scan totals (length totals - 1)) as [i|] eqn:Hscan.
    + left. apply lastIncrease_scan_Some in Hscan
        as (Hi & (here & before & Hhere & Hbefore & Hlt) & Hlater).
      exists i, here, before. rewrite Hhere, Hbefore. simpl.
      split_and!; [done|lia|done|done|done|].
      intros j a b Hj Ha Hb. apply (Hlater j); [|done..].
      apply lookup_lt_Some in Ha. lia.
    + right. split; [done|].
      intros j a b Hj Ha Hb.
      apply (lastIncrease_scan_None _ _ Hscan j); [|done..].
      apply lookup_lt_Some in Ha. lia.
Qed.
End Stats.

(** ** Maps in insertion order: general facts *)

Section OrderedMapFacts.
Context {K V : Type} `{EqDecision K}.
Implicit Types (k : K) (v : V) (m : list (K * V)).

Lemma Map_get_set k k' v m :
  Map_get k' (Map_set k v m) = if decide (k' = k) then Some v else Map_get k' m.
Proof.
  induction m as [|[k0 v0] m IH]; simpl.
  - by destruct (decide (k' = k)).
  - destruct (decide (k = k0)) as [->|Hne]; simpl.
    + by destruct (decide (k' = k0)).
    + destruct (decide (k' = k0)) as [->|Hne'].
      * by rewrite decide_False by done.
      * done.
Qed.

Lemma Map_get_None k m : Map_get k m = None ↔ k ∉ m.*1.
Proof.
  induction m as [|[k0 v0] m IH]; simpl.
  - split; [|done]. intros _ Hin. by apply elem_of_nil in Hin.
  - rewrite not_elem_of_cons. destruct (decide (k = k0)) as [->|Hne].
    + split; [done|]. by intros [? _].
    + rewrite IH. tauto.
Qed.

Lemma Map_has_true k m : Map_has k m = true ↔ k ∈ m.*1.
Proof.
  unfold Map_has. destruct (Map_get k m) eqn:Hget.
  - split; [|done]. intros _. destruct (decide (k ∈ m.*1)) as [|Hno]; [done|].
    apply Map_get_None in Hno. congruence.
  - split; [done|]. intros Hin. by apply Map_get_None in Hget.
Qed.

Lemma Map_set_keys k v m :
  (Map_set k v m).*1 = if Map_has k m then m.*1 else m.*1 ++ [k].
Proof.
  unfold Map_has. induction m as [|[k0 v0] m IH]; csimpl; [done|].
  destruct (decide (k = k0)) as [->|Hne]; csimpl; [done|].
  rewrite IH. by destruct (Map_get k m).
Qed.

Lemma Map_get_elem_of k v m : Map_get k m = Some v → (k, v) ∈ m.
Proof.
  induction m as [|[k0 v0] m IH]; simpl; [done|].
  destruct (decide (k = k0)) as [->|Hne].
  - intros [= ->]. left.
  - intros Hget. right. by apply IH.
Qed.

Lemma elem_of_Map_get k v m : NoDup m.*1 → (k, v) ∈ m → Map_get k m = Some v.
Proof.
  induction m as [|[k0 v0] m IH]; simpl.
  - by intros _ ?%elem_of_nil.
  - intros [Hk0 Hm]%NoDup_cons [Heq|Hin]%elem_of_cons.
    + injection Heq as -> ->. by rewrite decide_True.
    + rewrite decide_False; [by apply IH|].
      intros ->. apply Hk0. apply list_elem_of_fmap. by exists (k0, v).
Qed.
End OrderedMapFacts.

(** ** Loops that skip elements, and sorting under a map *)

Section LoopFacts.
Context {A B : Type}.

(** A loop whose body leaves the accumulator alone on the elements
    outside [P] may run over the elements of [P] only. *)
Lemma foldl_filter_skip (P : A → Prop) `{∀ x, Decision (P x)}
    (f : B → A → B) (l : list A) (b : B) :
  (∀ acc x, ¬ P x → f acc x = acc) →
  foldl f b (filter P l) = foldl f b l.
Proof.
  intros Hskip. revert b. induction l as [|x l IH]; intros b; [done|].
  rewrite filter_cons. destruct (decide (P x)) as [HP|HP]; simpl.
  - apply IH.
  - rewrite (Hskip b x HP). apply IH.
Qed.

(** A loop that pushes at most one element per step builds [omap]. *)
Lemma foldl_push_omap (g : A → option B) (l : list A) (pushed : list B) :
  foldl (λ acc x, match g x with Some y => acc ++ [y] | None => acc end) pushed l
  = pushed ++ omap g l.
Proof.
  revert pushed. induction l as [|x l IH]; intros pushed; simpl.
  - by rewrite app_nil_r.
  - rewrite IH. destruct (g x); [|done]. by rewrite <- app_assoc.
Qed.

Lemma foldl_ext_all (f g : B → A → B) (l : list A) (b : B) :
  (∀ acc x, f acc x = g acc x) → foldl f b l = foldl g b l.
Proof.
  intros Hfg. revert b. induction l as [|x l IH]; intros b; simpl; [done|].
  by rewrite Hfg, IH.
Qed.

Lemma NoDup_omap_inj (g : A → option B) (l : list A) (x y : A) (k : B) :
  NoDup (omap g l) → x ∈ l → y ∈ l → g x = Some k → g y = Some k → x = y.
Proof.
  induction l as [|a l IH]; [by intros _ ?%elem_of_nil|].
  simpl. intros Hnodup Hx Hy Hgx Hgy.
  assert (∀ z, z ∈ l → g z = Some k → g a = Some k → False) as Hclash.
  { intros z Hz Hgz Hga. rewrite Hga in Hnodup.
    apply NoDup_cons in Hnodup as [Hk _]. apply Hk.
    apply list_elem_of_omap. by exists z. }
  assert (NoDup (omap g l)) as Hl.
  { destruct (g a); [by apply NoDup_cons in Hnodup as [_ ?]|done]. }
  apply elem_of_cons in Hx as [->|Hx]; apply elem_of_cons in Hy as [->|Hy].
  - done.
  - destruct (Hclash y Hy Hgy Hgx).
  - destruct (Hclash x Hx Hgx Hgy).
  - by apply IH.
Qed.

Lemma omap_filter (P : A → Prop) `{∀ x, Decision (P x)} (g : A → option B)
    (l : list A) :
  omap g (filter P l) = omap (λ x, if decide (P x) then g x else None) l.
Proof.
  induction l as [|x l IH]; [done|]. rewrite filter_cons. csimpl.
  destruct (decide (P x)); csimpl; by rewrite IH.
Qed.

Lemma omap_Some_fmap (f : A → B) (l : list A) :
  omap (λ x, Some (f x)) l = f <$> l.
Proof. induction l as [|x l IH]; csimpl; by rewrite ?IH. Qed.

(** Keys stay pairwise distinct under a loop that keeps them. *)
Lemma NoDup_omap_keys {K : Type} (key : B → K) (keyed : A → option K)
    (g : A → option B) (l : list A) :
  (∀ x y, g x = Some y → keyed x = Some (key y)) →
  NoDup (omap keyed l) → NoDup (key <$> omap g l).
Proof.
  intros Hkeys. induction l as [|x l IH]; csimpl; [done|].
  destruct (g x) as [y|] eqn:Hgx; csimpl.
  - rewrite (Hkeys x y Hgx). intros [Hfresh Hl]%NoDup_cons.
    apply NoDup_cons. split; [|by apply IH].
    intros (y' & Hy' & (x' & Hx' & Hgx')%list_elem_of_omap)%list_elem_of_fmap.
    apply Hfresh. apply list_elem_of_omap. exists x'. split; [done|].
    by rewrite (Hkeys x' y' Hgx'), Hy'.
  - destruct (keyed x); [|done]. intros [_ Hl]%NoDup_cons. by apply IH.
Qed.

(** Sorting commutes with a map under which the comparator does not
    change. *)
Lemma Array_sort_fmap (comparefn : A → A → Num) (f : A → A) (l : list A) :
  (∀ x y, comparefn (f x) (f y) = comparefn x y) →
  Array_sort comparefn (f <$> l) = f <$> Array_sort comparefn l.
Proof.
  intros Hcmp. induction l as [|x l IH]; csimpl; [done|].
  rewrite IH. generalize (Array_sort comparefn l). intros sorted.
  induction sorted as [|y sorted IHs]; csimpl; [done|].
  rewrite Hcmp. destruct (Num_pos (comparefn x y)); csimpl; [|done].
  by rewrite IHs.
Qed.
End LoopFacts.

(** ** The series builder (options.js) *)

Section SeriesBuilder.
Context `{Engine}.

Lemma finite_id_Some (sketch : Sketch) (sketchId : Z) :
  finite_id sketch = Some sketchId ↔ Number_ (sketch_id sketch) = Fin sketchId.
Proof. unfold finite_id. destruct (Number_ _); naive_solver. Qed.

Lemma record_sketch_skip (label : string) (bySketch : list (Z * SeriesAcc))
    (sketch : Sketch) :
  finite_id sketch = None → record_sketch label bySketch sketch = bySketch.
Proof. unfold finite_id, record_sketch. by destruct (Number_ _). Qed.

Lemma record_sketch_keys (label : string) (bySketch : list (Z * SeriesAcc))
    (sketch : Sketch) (sketchId : Z) :
  finite_id sketch = Some sketchId →
  (record_sketch label bySketch sketch).*1
  = if Map_has sketchId bySketch then bySketch.*1 else bySketch.*1 ++ [sketchId].
Proof.
  intros Hid%finite_id_Some. unfold record_sketch. rewrite Hid.
  destruct (Map_has sketchId bySketch) eqn:Hhas.
  - unfold Map_has in Hhas. destruct (Map_get sketchId bySketch) eqn:Hget; [|done].
    rewrite Map_set_keys. unfold Map_has. by rewrite Hget.
  - rewrite Map_get_set, decide_True by done.
    rewrite !Map_set_keys, Hhas. unfold Map_has.
    by rewrite Map_get_set, decide_True by done.
Qed.

Lemma record_sketch_points (label : string) (bySketch : list (Z * SeriesAcc))
    (sketch : Sketch) (sketchId other : Z) :
  finite_id sketch = Some sketchId →
  points_of (record_sketch label bySketch sketch) other
  = if decide (other = sketchId)
    then <[label := sketch_views sketch]> (points_of bySketch sketchId)
    else points_of bySketch other.
Proof.
  intros Hid%finite_id_Some. unfold record_sketch, points_of. rewrite Hid.
  destruct (Map_has sketchId bySketch) eqn:Hhas.
  - unfold Map_has in Hhas. destruct (Map_get sketchId bySketch) eqn:Hget; [|done].
    rewrite Map_get_set. by destruct (decide (other = sketchId)).
  - unfold Map_has in Hhas. destruct (Map_get sketchId bySketch) eqn:Hget; [done|].
    rewrite Map_get_set, decide_True by done.
    rewrite !Map_get_set. by destruct (decide (other = sketchId)).
Qed.

Lemma record_sketch_acc_id (label : string) (bySketch : list (Z * SeriesAcc))
    (sketch : Sketch) :
  (∀ k entry, Map_get k bySketch = Some entry → acc_id entry = k) →
  ∀ k entry, Map_get k (record_sketch label bySketch sketch) = Some entry →
             acc_id entry = k.
Proof.
  intros Hinv k entry. unfold record_sketch.
  destruct (Number_ (sketch_id sketch)) as [sketchId| |]; [|by apply Hinv..].
  destruct (Map_has sketchId bySketch) eqn:Hhas.
  - unfold Map_has in Hhas. destruct (Map_get sketchId bySketch) eqn:Hget; [|done].
    rewrite Map_get_set. destruct (decide (k = sketchId)) as [->|Hne].
    + intros [= <-]. simpl. by apply Hinv.
    + by apply Hinv.
  - rewrite Map_get_set, decide_True by done.
    rewrite !Map_get_set. destruct (decide (k = sketchId)) as [->|Hne].
    + by intros [= <-].
    + by apply Hinv.
Qed.

Lemma record_writes_snoc (writes : list (string * Sketch)) (write : string * Sketch)
    (bySketch : list (Z * SeriesAcc)) :
  record_writes (writes ++ [write]) bySketch
  = record_sketch write.1 (record_writes writes bySketch) write.2.
Proof. unfold record_writes. by rewrite foldl_snoc. Qed.

Lemma fold_history_writes (normalizedHistory : list Snapshot) :
  fold_history normalizedHistory
  = record_writes (writes_of (labelled normalizedHistory)) [].
Proof.
  unfold fold_history. generalize (labelled normalizedHistory).
  generalize (@nil (Z * SeriesAcc)). intros bySketch entries. revert bySketch.
  induction entries as [|entry entries IH]; intros bySketch; [done|].
  unfold writes_of. rewrite bind_cons. unfold record_writes.
  rewrite foldl_app, foldl_fmap. simpl. apply IH.
Qed.

Lemma last_write_snoc (writes : list (string * Sketch)) (write : string * Sketch)
    (sketchId : Z) (label : string) :
  last_write (writes ++ [write]) sketchId label
  = if bool_decide (finite_id write.2 = Some sketchId ∧ write.1 = label)
    then Some (sketch_views write.2) else last_write writes sketchId label.
Proof. unfold last_write. by rewrite foldl_snoc. Qed.

Lemma last_write_Some (writes : list (string * Sketch)) (sketchId : Z)
    (label : string) (v : Z) :
  last_write writes sketchId label = Some v →
  ∃ sketch, (label, sketch) ∈ writes ∧ finite_id sketch = Some sketchId ∧
            sketch_views sketch = v.
Proof.
  induction writes as [|[label' sketch] writes IH] using rev_ind; [done|].
  rewrite last_write_snoc. simpl. case_bool_decide as Hmatch.
  - destruct Hmatch as [Hid ->]. intros [= <-]. exists sketch.
    split_and!; [|done..]. apply elem_of_app. right. left.
  - intros (sketch' & Hin & Hid & Hv)%IH. exists sketch'.
    split_and!; [|done..]. apply elem_of_app. by left.
Qed.

Lemma last_write_agree (writes : list (string * Sketch)) (sketchId : Z)
    (label : string) (v : Z) :
  (∀ sketch, (label, sketch) ∈ writes → finite_id sketch = Some sketchId →
             sketch_views sketch = v) →
  (∃ sketch, (label, sketch) ∈ writes ∧ finite_id sketch = Some sketchId) →
  last_write writes sketchId label = Some v.
Proof.
  induction writes as [|[label' sketch] writes IH] using rev_ind.
  - intros _ (sketch & Hin & _). by apply elem_of_nil in Hin.
  - intros Hall (sketch' & Hin & Hid).
    rewrite last_write_snoc. simpl. case_bool_decide as Hmatch.
    + destruct Hmatch as [Hid' ->]. f_equal. apply Hall; [|done].
      apply elem_of_app. right. left.
    + apply IH.
      * intros sketch'' Hin'' Hid''. apply Hall; [|done].
        apply elem_of_app. by left.
      * apply elem_of_app in Hin as [Hin|Hin%list_elem_of_singleton].
        -- by exists sketch'.
        -- injection Hin as <- <-. by destruct Hmatch.
Qed.

Lemma points_of_record_writes (writes : list (string * Sketch)) (sketchId : Z)
    (label : string) :
  points_of (record_writes writes []) sketchId !! label
  = last_write writes sketchId label.
Proof.
  induction writes as [|[label' sketch] writes IH] using rev_ind; [done|].
  rewrite record_writes_snoc, last_write_snoc. simpl.
  destruct (finite_id sketch) as [k|] eqn:Hid.
  - rewrite (record_sketch_points _ _ _ k) by done.
    destruct (decide (sketchId = k)) as [->|Hne].
    + rewrite lookup_insert. destruct (decide (label' = label)) as [->|Hlabel].
      * by rewrite bool_decide_eq_true_2.
      * rewrite bool_decide_eq_false_2; [done|]. by intros [_ ?].
    + rewrite bool_decide_eq_false_2; [done|]. intros [? _]. congruence.
  - rewrite record_sketch_skip by done.
    rewrite bool_decide_eq_false_2; [done|]. intros [? _]. congruence.
Qed.

Lemma record_writes_keys (writes : list (string * Sketch)) :
  NoDup (record_writes writes []).*1 ∧
  ∀ k, k ∈ (record_writes writes []).*1 ↔
       ∃ write, write ∈ writes ∧ finite_id write.2 = Some k.
Proof.
  induction writes as [|[label sketch] writes [IHnodup IHkeys]] using rev_ind.
  - split; [constructor|]. intros k. split.
    + by intros ?%elem_of_nil.
    + intros (write & Hin & _). by apply elem_of_nil in Hin.
  - rewrite record_writes_snoc. simpl.
    destruct (finite_id sketch) as [k0|] eqn:Hid.
    + rewrite (record_sketch_keys _ _ _ k0) by done.
      destruct (Map_has k0 (record_writes writes [])) eqn:Hhas.
      * split; [done|]. intros k. rewrite IHkeys. split.
        -- intros (write & Hin & Hk). exists write. split; [|done].
           apply elem_of_app. by left.
        -- intros (write & [Hin|Hin%list_elem_of_singleton]%elem_of_app & Hk).
           ++ by exists write.
           ++ subst write. simpl in Hk. rewrite Hid in Hk. injection Hk as <-.
              apply IHkeys. by apply Map_has_true.
      * assert (k0 ∉ (record_writes writes []).*1) as Hfresh.
        { intros Hin%Map_has_true. congruence. }
        split.
        -- apply NoDup_app. split_and!; [done| |apply NoDup_singleton].
           intros k Hk ->%list_elem_of_singleton. done.
        -- intros k. rewrite elem_of_app, list_elem_of_singleton, IHkeys. split.
           ++ intros [(write & Hin & Hk)| ->].
              ** exists write. split; [|done]. apply elem_of_app. by left.
              ** exists (label, sketch). split; [|done]. apply elem_of_app. right. left.
           ++ intros (write & [Hin|Hin%list_elem_of_singleton]%elem_of_app & Hk).
              ** left. by exists write.
              ** subst write. simpl in Hk. rewrite Hid in Hk. injection Hk as <-.
                 by right.
    + rewrite record_sketch_skip by done. split; [done|].
      intros k. rewrite IHkeys. split.
      * intros (write & Hin & Hk). exists write. split; [|done].
        apply elem_of_app. by left.
      * intros (write & [Hin|Hin%list_elem_of_singleton]%elem_of_app & Hk).
        -- by exists write.
        -- subst write. simpl in Hk. congruence.
Qed.

Lemma record_writes_acc_id (writes : list (string * Sketch)) (k : Z)
    (entry : SeriesAcc) :
  Map_get k (record_writes writes []) = Some entry → acc_id entry = k.
Proof.
  revert k entry.
  induction writes as [|[label sketch] writes IH] using rev_ind; [done|].
  rewrite record_writes_snoc. by apply record_sketch_acc_id.
Qed.

Lemma elem_of_writes_of_labelled (normalizedHistory : list Snapshot)
    (label : string) (sketch : Sketch) :
  (label, sketch) ∈ writes_of (labelled normalizedHistory) ↔
  ∃ i snapshot, normalizedHistory !! i = Some snapshot ∧
                snapshotLabel snapshot i = label ∧ sketch ∈ sketches snapshot.
Proof.
  unfold writes_of, labelled. rewrite list_elem_of_bind. split.
  - intros ([label' snapshot] & Hsketch & Hentry).
    apply elem_of_lookup_imap in Hentry as (i & snapshot' & Heq & Hi).
    injection Heq as -> ->. simpl in Hsketch.
    apply list_elem_of_fmap in Hsketch as (sketch' & Heq & Hin).
    injection Heq as -> ->. by exists i, snapshot'.
  - intros (i & snapshot & Hi & <- & Hin).
    exists (snapshotLabel snapshot i, snapshot). split.
    + simpl. apply list_elem_of_fmap. by exists sketch.
    + apply elem_of_lookup_imap. by exists i, snapshot.
Qed.

Lemma time_labels_lookup (normalizedHistory : list Snapshot) (i : nat) :
  time_labels normalizedHistory !! i
  = (λ snapshot, snapshotLabel snapshot i) <$> normalizedHistory !! i.
Proof.
  unfold time_labels, labelled. rewrite list_lookup_fmap, list_lookup_imap.
  by destruct (normalizedHistory !! i).
Qed.

Lemma length_time_labels (normalizedHistory : list Snapshot) :
  length (time_labels normalizedHistory) = length normalizedHistory.
Proof. unfold time_labels, labelled. by rewrite length_fmap, length_imap. Qed.

Lemma elem_of_mapped_series (normalizedHistory : list Snapshot) (line : Series) :
  line ∈ mapped_series normalizedHistory ↔
  ∃ entry,
    Map_get (acc_id entry) (fold_history normalizedHistory) = Some entry ∧
    line = make_series (time_labels normalizedHistory)
             (snapshotDateByLabel normalizedHistory) entry.
Proof.
  unfold mapped_series, Map_values. rewrite list_elem_of_fmap. split.
  - intros (entry & -> & Hin).
    apply list_elem_of_fmap in Hin as ([k e] & -> & Hin). simpl.
    assert (Map_get k (fold_history normalizedHistory) = Some e) as Hget.
    { apply elem_of_Map_get; [|done].
      rewrite fold_history_writes. apply record_writes_keys. }
    exists e. split; [|done].
    rewrite fold_history_writes in Hget.
    by rewrite (record_writes_acc_id _ _ _ Hget), fold_history_writes.
  - intros (entry & Hget & ->). exists entry. split; [done|].
    apply list_elem_of_fmap. exists (acc_id entry, entry). split; [done|].
    by apply Map_get_elem_of.
Qed.

Lemma length_points_mapped_series (normalizedHistory : list Snapshot) (line : Series) :
  line ∈ mapped_series normalizedHistory →
  length (points line) = length normalizedHistory.
Proof.
  intros (entry & _ & ->)%elem_of_mapped_series. simpl.
  by rewrite length_fmap, length_time_labels.
Qed.

(** The point of a series at an index holds the views last written for
    the sketch under the label of the snapshot at that index, or 0. *)
Lemma mapped_series_point (normalizedHistory : list Snapshot) (line : Series)
    (i : nat) (snapshot : Snapshot) :
  line ∈ mapped_series normalizedHistory →
  normalizedHistory !! i = Some snapshot →
  ∃ point,
    points line !! i = Some point ∧
    timeLabel point = snapshotLabel snapshot i ∧
    point_views point
    = default 0%Z (last_write (writes_of (labelled normalizedHistory))
                     (series_id line) (snapshotLabel snapshot i)).
Proof.
  intros (entry & Hget & ->)%elem_of_mapped_series Hi. simpl.
  rewrite list_lookup_fmap, time_labels_lookup, Hi. simpl.
  eexists. split; [done|]. simpl. split; [done|].
  rewrite <- points_of_record_writes, <- fold_history_writes.
  unfold points_of. by rewrite Hget.
Qed.

Lemma mapped_series_point_inv (normalizedHistory : list Snapshot) (line : Series)
    (i : nat) (point : Point) :
  line ∈ mapped_series normalizedHistory →
  points line !! i = Some point →
  ∃ snapshot,
    normalizedHistory !! i = Some snapshot ∧
    point_views point
    = default 0%Z (last_write (writes_of (labelled normalizedHistory))
                     (series_id line) (snapshotLabel snapshot i)).
Proof.
  intros Hline Hpoint.
  destruct (lookup_lt_is_Some_2 normalizedHistory i) as [snapshot Hi].
  { rewrite <- (length_points_mapped_series _ line) by done.
    by eapply lookup_lt_Some. }
  exists snapshot. split; [done|].
  destruct (mapped_series_point _ _ _ _ Hline Hi) as (point' & Hpoint' & _ & Hviews).
  congruence.
Qed.

Lemma elem_of_series (history : list Snapshot) (line : Series) :
  line ∈ series (buildState history) ↔
  line ∈ mapped_series (normalizedHistory (buildState history)) ∧
  Exists (λ point, (0 < point_views point)%Z) (points line).
Proof. simpl. rewrite elem_of_Array_sort, list_elem_of_filter. tauto. Qed.

Lemma timeLabels_buildState (history : list Snapshot) :
  timeLabels (buildState history)
  = time_labels (normalizedHistory (buildState history)).
Proof. done. Qed.

Lemma normalizedHistory_Permutation (history : list Snapshot) :
  normalizedHistory (buildState history) ≡ₚ history.
Proof. apply Array_sort_Permutation. Qed.

(** The sort of [buildState] always yields a history ascending by
    effective timestamp, with unparsable timestamps at epoch 0. *)
Lemma normalizedHistory_sorted (history : list Snapshot) :
  StronglySorted (λ a b, (effective_time a ≤ effective_time b)%Z)
    (normalizedHistory (buildState history)).
Proof.
  apply Array_sort_sorted. intros a b _ _. unfold snapshotTime_compare.
  by rewrite !snapshotTime_effective_time.
Qed.

Lemma normalizedHistory_of_sorted (history : list Snapshot) :
  StronglySorted (λ a b, (effective_time a ≤ effective_time b)%Z) history →
  normalizedHistory (buildState history) = history.
Proof.
  intros Hsorted. apply Array_sort_already_sorted.
  induction Hsorted as [|a l Hl IH Ha]; constructor; [done|].
  eapply Forall_impl; [exact Ha|]. intros b Hab. simpl in Hab.
  unfold snapshotTime_compare. rewrite !snapshotTime_effective_time. simpl.
  apply Z.ltb_ge. lia.
Qed.

(** The label of a stamped snapshot is its [fetched_at]. *)
Lemma well_stamped_label (snapshot : Snapshot) (index : nat) :
  well_stamped snapshot → fetched_at snapshot = Some (snapshotLabel snapshot index).
Proof.
  intros (stamp & t & Hstamp & Hne & _).
  unfold snapshotLabel, js_or, truthy, js_or_str. rewrite Hstamp.
  rewrite !bool_decide_eq_false_2 by done. simpl.
  by rewrite bool_decide_eq_false_2 by done.
Qed.

(** A history built by merging stamped snapshots is its own ascending
    order and has pairwise distinct time labels. *)
Lemma merged_history_is_normalized (snapshots : list Snapshot) :
  Forall well_stamped snapshots →
  normalizedHistory (buildState (merge_all snapshots)) = merge_all snapshots ∧
  NoDup (timeLabels (buildState (merge_all snapshots))).
Proof.
  intros Hstamped.
  assert (StronglySorted (λ a b, (effective_time a ≤ effective_time b)%Z)
            (merge_all snapshots)) as Hsorted.
  { induction snapshots as [|x snapshots IH] using rev_ind; [constructor|].
    apply merge_all_snoc_sorted; [done|].
    apply IH. by apply Forall_app in Hstamped as [? _]. }
  destruct (merge_all_contents snapshots) as (Hnodup & Hcontents).
  assert (normalizedHistory (buildState (merge_all snapshots)) = merge_all snapshots)
    as Hnormal by by apply normalizedHistory_of_sorted.
  split; [done|]. rewrite timeLabels_buildState, Hnormal.
  apply (NoDup_fmap_1 Some).
  replace (Some <$> time_labels (merge_all snapshots))
    with (fetched_at <$> merge_all snapshots); [done|].
  apply list_eq. intros i.
  rewrite !list_lookup_fmap, time_labels_lookup.
  destruct (merge_all snapshots !! i) as [snapshot|] eqn:Hi; [|done]. simpl.
  f_equal. apply well_stamped_label.
  apply list_elem_of_lookup_2, Hcontents in Hi as (before & after & -> & _).
  apply Forall_app in Hstamped as [_ Hstamped].
  by apply Forall_cons in Hstamped as [? _].
Qed.

(** C4, for distinct time labels. Every series of [buildState] has as many points as the
    history has snapshots; and when the time labels of the snapshots
    are pairwise distinct, the point at the index of a snapshot (in
    ascending time order) in which the sketch's id does not occur
    carries that snapshot's label and 0 views. A history that is
    already ascending is its own ascending order. *)
Theorem series_aligned_and_zero_filled (history : list Snapshot) (line : Series) :
  line ∈ series (buildState history) →
  length (points line) = length history ∧
  (NoDup (timeLabels (buildState history)) →
   ∀ i snapshot,
     normalizedHistory (buildState history) !! i = Some snapshot →
     Forall (λ sketch, finite_id sketch ≠ Some (series_id line)) (sketches snapshot) →
     ∃ point, points line !! i = Some point ∧
              timeLabel point = snapshotLabel snapshot i ∧
              point_views point = 0%Z) ∧
  (StronglySorted (λ a b, (effective_time a ≤ effective_time b)%Z) history →
   normalizedHistory (buildState history) = history).
Proof.
  intros [Hline _]%elem_of_series. split_and!.
  - rewrite (length_points_mapped_series _ _ Hline).
    by rewrite normalizedHistory_Permutation.
  - rewrite timeLabels_buildState. intros Hlabels i snapshot Hi Habsent.
    destruct (mapped_series_point _ _ _ _ Hline Hi) as (point & Hpoint & Hlabel & Hviews).
    exists point. split_and!; [done..|]. rewrite Hviews.
    destruct (last_write _ _ _) as [v|] eqn:Hwrite; [|done].
    apply last_write_Some in Hwrite as (sketch & Hin & Hid & _).
    apply elem_of_writes_of_labelled in Hin as (j & snapshot' & Hj & Hsame & Hsketch).
    assert (j = i) as ->.
    { apply (NoDup_lookup _ j i (snapshotLabel snapshot i) Hlabels).
      - by rewrite time_labels_lookup, Hj; simpl; rewrite Hsame.
      - by rewrite time_labels_lookup, Hi. }
    assert (snapshot' = snapshot) as -> by congruence.
    rewrite Forall_forall in Habsent. by destruct (Habsent sketch Hsketch).
  - apply normalizedHistory_of_sorted.
Qed.

(** C5. A series is kept exactly when one of its points has positive
    views; and a sketch id whose records have 0 views in every snapshot
    has no series. *)
Theorem series_kept_iff_some_point_positive (history : list Snapshot) :
  (∀ line,
     line ∈ series (buildState history) ↔
     line ∈ mapped_series (normalizedHistory (buildState history)) ∧
     Exists (λ point, (0 < point_views point)%Z) (points line)) ∧
  (∀ sketchId,
     Forall (λ snapshot,
               Forall (λ sketch, finite_id sketch = Some sketchId →
                                 sketch_views sketch = 0%Z) (sketches snapshot))
       history →
     ∀ line, line ∈ series (buildState history) → series_id line ≠ sketchId).
Proof.
  split; [apply elem_of_series|].
  intros sketchId Hzero line [Hline Hpositive]%elem_of_series <-.
  apply Exists_exists in Hpositive as (point & Hpoint & Hviews).
  apply list_elem_of_lookup_1 in Hpoint as [i Hpoint].
  destruct (mapped_series_point_inv _ _ _ _ Hline Hpoint) as (snapshot & Hi & Hwritten).
  destruct (last_write _ _ _) as [v|] eqn:Hwrite; simpl in Hwritten; [|lia].
  apply last_write_Some in Hwrite as (sketch & Hin & Hid & Hv).
  apply elem_of_writes_of_labelled in Hin as (j & snapshot' & Hj & _ & Hsketch).
  apply list_elem_of_lookup_2 in Hj.
  rewrite normalizedHistory_Permutation in Hj.
  rewrite Forall_forall in Hzero. specialize (Hzero snapshot' Hj).
  rewrite Forall_forall in Hzero. specialize (Hzero sketch Hsketch Hid). lia.
Qed.

(** *** Records whose id is not a finite number *)

Lemma finite_id_None_not_Some (sketch : Sketch) :
  ¬ is_Some (finite_id sketch) → finite_id sketch = None.
Proof. destruct (finite_id sketch); [|done]. intros Hno. destruct Hno. by eexists. Qed.

Lemma labelled_finite_only (normalizedHistory : list Snapshot) :
  labelled (finite_only <$> normalizedHistory)
  = (λ entry, (entry.1, finite_only entry.2)) <$> labelled normalizedHistory.
Proof. unfold labelled. rewrite imap_fmap, fmap_imap. by apply imap_ext. Qed.

Lemma time_labels_finite_only (normalizedHistory : list Snapshot) :
  time_labels (finite_only <$> normalizedHistory) = time_labels normalizedHistory.
Proof.
  unfold time_labels. rewrite labelled_finite_only, <- list_fmap_compose.
  by apply list_fmap_ext.
Qed.

Lemma snapshotDateByLabel_finite_only (normalizedHistory : list Snapshot) :
  snapshotDateByLabel (finite_only <$> normalizedHistory)
  = snapshotDateByLabel normalizedHistory.
Proof.
  unfold snapshotDateByLabel.
  by rewrite labelled_finite_only, <- list_fmap_compose.
Qed.

Lemma fold_history_finite_only (normalizedHistory : list Snapshot) :
  fold_history (finite_only <$> normalizedHistory) = fold_history normalizedHistory.
Proof.
  unfold fold_history. rewrite labelled_finite_only, foldl_fmap.
  generalize (labelled normalizedHistory).
  generalize (@nil (Z * SeriesAcc)). intros bySketch entries. revert bySketch.
  induction entries as [|entry entries IH]; intros bySketch; simpl; [done|].
  rewrite foldl_filter_skip; [apply IH|].
  intros acc sketch Hno. by apply record_sketch_skip, finite_id_None_not_Some.
Qed.

Lemma mapped_series_finite_only (normalizedHistory : list Snapshot) :
  mapped_series (finite_only <$> normalizedHistory) = mapped_series normalizedHistory.
Proof.
  unfold mapped_series.
  by rewrite time_labels_finite_only, snapshotDateByLabel_finite_only,
    fold_history_finite_only.
Qed.

Lemma buildState_finite_only (history : list Snapshot) :
  series (buildState (finite_only <$> history)) = series (buildState history) ∧
  timeLabels (buildState (finite_only <$> history)) = timeLabels (buildState history).
Proof.
  unfold buildState. simpl.
  rewrite (Array_sort_fmap snapshotTime_compare finite_only) by done.
  by rewrite mapped_series_finite_only, time_labels_finite_only.
Qed.

(** *** The two increase computations as filters *)

Lemma computeSketchIncreasesFromSnapshots_omap (previousSnapshot latestSnapshot : Snapshot) :
  computeSketchIncreasesFromSnapshots previousSnapshot latestSnapshot
  = Array_sort increases_compare
      (omap (snapshot_increase (previousById_of previousSnapshot))
         (sketches latestSnapshot)).
Proof.
  unfold computeSketchIncreasesFromSnapshots. f_equal.
  fold (previousById_of previousSnapshot).
  rewrite <- (app_nil_l (omap _ _)), <- foldl_push_omap.
  apply foldl_ext_all. intros acc sketch. unfold snapshot_increase.
  destruct (Number_ (sketch_id sketch)); [|done..].
  by destruct (_ <? _)%Z.
Qed.

Lemma computeLatestSketchIncreasesFromSeries_omap (lines : list Series) :
  computeLatestSketchIncreasesFromSeries lines
  = Array_sort increases_compare (omap series_increase lines).
Proof.
  unfold computeLatestSketchIncreasesFromSeries. f_equal.
  rewrite <- (app_nil_l (omap _ _)), <- foldl_push_omap.
  apply foldl_ext_all. intros acc line. unfold series_increase.
  case_bool_decide; [done|]. by destruct (_ <? _)%Z.
Qed.

Lemma computeSketchIncreasesFromSnapshots_finite_only
    (previousSnapshot latestSnapshot : Snapshot) :
  computeSketchIncreasesFromSnapshots (finite_only previousSnapshot)
    (finite_only latestSnapshot)
  = computeSketchIncreasesFromSnapshots previousSnapshot latestSnapshot.
Proof.
  unfold computeSketchIncreasesFromSnapshots. simpl.
  rewrite !foldl_filter_skip; [done|..].
  - intros acc sketch Hno%finite_id_None_not_Some. unfold finite_id in Hno.
    by destruct (Number_ (sketch_id sketch)).
  - intros acc sketch Hno%finite_id_None_not_Some. unfold finite_id in Hno.
    by destruct (Number_ (sketch_id sketch)).
Qed.

Lemma series_id_from_record (history : list Snapshot) (line : Series) :
  line ∈ series (buildState history) →
  ∃ snapshot sketch,
    snapshot ∈ history ∧ sketch ∈ sketches snapshot ∧
    Number_ (sketch_id sketch) = Fin (series_id line).
Proof.
  intros [(entry & Hget & ->)%elem_of_mapped_series _]%elem_of_series. simpl.
  apply Map_get_elem_of in Hget.
  assert (acc_id entry ∈ (fold_history (normalizedHistory (buildState history))).*1)
    as Hkey.
  { apply list_elem_of_fmap. by exists (acc_id entry, entry). }
  rewrite fold_history_writes in Hkey.
  apply record_writes_keys in Hkey as ([label sketch] & Hin & Hid).
  apply elem_of_writes_of_labelled in Hin as (i & snapshot & Hi & _ & Hsketch).
  exists snapshot, sketch. split_and!; [|done|by apply finite_id_Some].
  rewrite <- (normalizedHistory_Permutation history).
  by eapply list_elem_of_lookup_2.
Qed.

(** C10. Records whose id does not coerce to a finite number are
    skipped: the series, the time labels and the increases are those
    of the history without such records, and every series id and every
    increase id is the finite number of some record. *)
Theorem non_finite_ids_are_skipped
    (history : list Snapshot) (previousSnapshot latestSnapshot : Snapshot) :
  series (buildState (finite_only <$> history)) = series (buildState history) ∧
  timeLabels (buildState (finite_only <$> history)) = timeLabels (buildState history) ∧
  computeSketchIncreasesFromSnapshots (finite_only previousSnapshot)
    (finite_only latestSnapshot)
  = computeSketchIncreasesFromSnapshots previousSnapshot latestSnapshot ∧
  (∀ line, line ∈ series (buildState history) →
     ∃ snapshot sketch,
       snapshot ∈ history ∧ sketch ∈ sketches snapshot ∧
       Number_isFinite (Number_ (sketch_id sketch)) = true ∧
       Number_ (sketch_id sketch) = Fin (series_id line)) ∧
  (∀ increase,
     increase ∈ computeSketchIncreasesFromSnapshots previousSnapshot latestSnapshot →
     ∃ sketch,
       sketch ∈ sketches latestSnapshot ∧
       Number_isFinite (Number_ (sketch_id sketch)) = true ∧
       Number_ (sketch_id sketch) = Fin (inc_id increase)) ∧
  (∀ increase,
     increase ∈ computeLatestSketchIncreasesFromSeries (series (buildState history)) →
     ∃ line, line ∈ series (buildState history) ∧ series_id line = inc_id increase).
Proof.
  split_and!.
  - apply buildState_finite_only.
  - apply buildState_finite_only.
  - apply computeSketchIncreasesFromSnapshots_finite_only.
  - intros line (snapshot & sketch & Hs & Hsk & Hid)%series_id_from_record.
    exists snapshot, sketch. by rewrite Hid.
  - intros increase. rewrite computeSketchIncreasesFromSnapshots_omap.
    rewrite elem_of_Array_sort, list_elem_of_omap.
    intros (sketch & Hin & Hinc). exists sketch. split; [done|].
    unfold snapshot_increase in Hinc.
    destruct (Number_ (sketch_id sketch)) as [k| |]; [|done..].
    destruct (_ <? _)%Z; [|done]. by injection Hinc as <-.
  - intros increase. rewrite computeLatestSketchIncreasesFromSeries_omap.
    rewrite elem_of_Array_sort, list_elem_of_omap.
    intros (line & Hin & Hinc). exists line. split; [done|].
    unfold series_increase in Hinc. case_bool_decide; [done|].
    destruct (_ <? _)%Z; [|done]. by injection Hinc as <-.
Qed.

(** *** What the two increase computations read *)

Lemma previousById_lookup (previousSnapshot : Snapshot) (sketchId : Z) :
  previousById_of previousSnapshot !! sketchId
  = last_write ((λ sketch, (""%string, sketch)) <$> sketches previousSnapshot)
      sketchId "".
Proof.
  unfold previousById_of. generalize (sketches previousSnapshot). intros records.
  induction records as [|sketch records IH] using rev_ind; [done|].
  rewrite foldl_snoc, fmap_app. simpl. rewrite last_write_snoc. simpl.
  unfold finite_id.
  destruct (Number_ (sketch_id sketch)) as [k| |].
  - destruct (decide (k = sketchId)) as [->|Hne].
    + by rewrite lookup_insert_eq, bool_decide_eq_true_2.
    + rewrite lookup_insert_ne by done.
      rewrite bool_decide_eq_false_2; [done|]. intros [? _]. congruence.
  - rewrite bool_decide_eq_false_2; [done|]. by intros [? _].
  - rewrite bool_decide_eq_false_2; [done|]. by intros [? _].
Qed.

Lemma previousById_Some (previousSnapshot : Snapshot) (sketchId v : Z) :
  previousById_of previousSnapshot !! sketchId = Some v →
  ∃ sketch, sketch ∈ sketches previousSnapshot ∧
            finite_id sketch = Some sketchId ∧ sketch_views sketch = v.
Proof.
  rewrite previousById_lookup.
  intros (sketch & Hin & Hid & Hv)%last_write_Some.
  apply list_elem_of_fmap in Hin as (sketch' & [= <-] & Hin).
  by exists sketch.
Qed.

Lemma previousById_unique_record (previousSnapshot : Snapshot) (sketch : Sketch)
    (sketchId : Z) :
  NoDup (finite_ids previousSnapshot) →
  sketch ∈ sketches previousSnapshot → finite_id sketch = Some sketchId →
  previousById_of previousSnapshot !! sketchId = Some (sketch_views sketch).
Proof.
  intros Hnodup Hin Hid. rewrite previousById_lookup. apply last_write_agree.
  - intros sketch' (sketch'' & [= <-] & Hin')%list_elem_of_fmap Hid'.
    by rewrite (NoDup_omap_inj finite_id _ sketch' sketch sketchId Hnodup).
  - exists sketch. split; [|done]. apply list_elem_of_fmap. by exists sketch.
Qed.

(** With pairwise distinct labels, the writes under the label of a
    snapshot are the records of that snapshot. *)
Lemma last_write_at_index (normalizedHistory : list Snapshot) (i : nat)
    (snapshot : Snapshot) (sketchId v : Z) :
  NoDup (time_labels normalizedHistory) →
  normalizedHistory !! i = Some snapshot →
  last_write (writes_of (labelled normalizedHistory)) sketchId
    (snapshotLabel snapshot i) = Some v →
  ∃ sketch, sketch ∈ sketches snapshot ∧
            finite_id sketch = Some sketchId ∧ sketch_views sketch = v.
Proof.
  intros Hlabels Hi (sketch & Hin & Hid & Hv)%last_write_Some.
  apply elem_of_writes_of_labelled in Hin as (j & snapshot' & Hj & Hsame & Hsketch).
  assert (j = i) as ->.
  { apply (NoDup_lookup _ j i (snapshotLabel snapshot i) Hlabels).
    - by rewrite time_labels_lookup, Hj; simpl; rewrite Hsame.
    - by rewrite time_labels_lookup, Hi. }
  assert (snapshot' = snapshot) as -> by congruence.
  by exists sketch.
Qed.

Lemma last_write_unique_record (normalizedHistory : list Snapshot) (i : nat)
    (snapshot : Snapshot) (sketch : Sketch) (sketchId : Z) :
  NoDup (time_labels normalizedHistory) →
  normalizedHistory !! i = Some snapshot →
  NoDup (finite_ids snapshot) →
  sketch ∈ sketches snapshot → finite_id sketch = Some sketchId →
  last_write (writes_of (labelled normalizedHistory)) sketchId
    (snapshotLabel snapshot i) = Some (sketch_views sketch).
Proof.
  intros Hlabels Hi Hnodup Hin Hid. apply last_write_agree.
  - intros sketch' Hin' Hid'.
    apply elem_of_writes_of_labelled in Hin' as (j & snapshot' & Hj & Hsame & Hsketch).
    assert (j = i) as ->.
    { apply (NoDup_lookup _ j i (snapshotLabel snapshot i) Hlabels).
      - by rewrite time_labels_lookup, Hj; simpl; rewrite Hsame.
      - by rewrite time_labels_lookup, Hi. }
    assert (snapshot' = snapshot) as -> by congruence.
    by rewrite (NoDup_omap_inj finite_id _ sketch' sketch sketchId Hnodup).
  - exists sketch. split; [|done].
    apply elem_of_writes_of_labelled. by exists i, snapshot.
Qed.

(** Both paths read the same previous views for a sketch. *)
Lemma previous_views_agree (normalizedHistory : list Snapshot) (i : nat)
    (previousSnapshot : Snapshot) (sketchId : Z) :
  NoDup (time_labels normalizedHistory) →
  normalizedHistory !! i = Some previousSnapshot →
  NoDup (finite_ids previousSnapshot) →
  previousById_of previousSnapshot !! sketchId
  = last_write (writes_of (labelled normalizedHistory)) sketchId
      (snapshotLabel previousSnapshot i).
Proof.
  intros Hlabels Hi Hnodup.
  destruct (previousById_of previousSnapshot !! sketchId) as [v|] eqn:Hprev.
  - apply previousById_Some in Hprev as (sketch & Hin & Hid & <-).
    symmetry. by apply last_write_unique_record.
  - destruct (last_write _ _ _) as [v|] eqn:Hwrite; [|done].
    apply (last_write_at_index _ _ _ _ _ Hlabels Hi) in Hwrite
      as (sketch & Hin & Hid & _).
    rewrite (previousById_unique_record _ sketch) in Hprev by done. done.
Qed.

(** The increase of a series, read off the last two snapshots. *)
Lemma series_increase_mapped (front : list Snapshot)
    (previousSnapshot latestSnapshot : Snapshot) (line : Series) :
  let normalizedHistory := front ++ [previousSnapshot; latestSnapshot] in
  let writes := writes_of (labelled normalizedHistory) in
  let delta :=
    (default 0 (last_write writes (series_id line)
                  (snapshotLabel latestSnapshot (length front + 1)))
     - default 0 (last_write writes (series_id line)
                    (snapshotLabel previousSnapshot (length front))))%Z in
  line ∈ mapped_series normalizedHistory →
  series_increase line
  = if (0 <? delta)%Z
    then Some {| inc_id := series_id line;
                 inc_title := title_or_default (series_title line) (series_id line);
                 inc_url := series_url line;
                 delta := delta |}
    else None.
Proof.
  intros normalizedHistory writes delta Hline.
  assert (normalizedHistory !! length front = Some previousSnapshot) as Hprev.
  { unfold normalizedHistory. rewrite lookup_app_r by lia.
    by replace (length front - length front) with 0 by lia. }
  assert (normalizedHistory !! (length front + 1) = Some latestSnapshot) as Hlatest.
  { unfold normalizedHistory. rewrite lookup_app_r by lia.
    by replace (length front + 1 - length front) with 1 by lia. }
  destruct (mapped_series_point _ _ _ _ Hline Hprev) as (pp & Hpp & _ & Hppv).
  destruct (mapped_series_point _ _ _ _ Hline Hlatest) as (pl & Hpl & _ & Hplv).
  assert (length (points line) = length front + 2) as Hlen.
  { rewrite (length_points_mapped_series _ _ Hline).
    unfold normalizedHistory. by rewrite length_app. }
  unfold series_increase. rewrite Hlen.
  rewrite bool_decide_eq_false_2 by lia.
  replace (length front + 2 - 1) with (length front + 1) by lia.
  replace (length front + 2 - 2) with (length front) by lia.
  rewrite Hpp, Hpl. simpl. by rewrite Hppv, Hplv.
Qed.

Lemma series_buildState_Permutation (history : list Snapshot) :
  series (buildState history)
  ≡ₚ filter (λ item, Exists (λ point, (0 < point_views point)%Z) (points item))
       (mapped_series (normalizedHistory (buildState history))).
Proof. apply Array_sort_Permutation. Qed.

Lemma NoDup_series_ids (normalizedHistory : list Snapshot) :
  NoDup (series_id <$> mapped_series normalizedHistory).
Proof.
  unfold mapped_series, Map_values. rewrite <- !list_fmap_compose.
  rewrite fold_history_writes.
  destruct (record_writes_keys (writes_of (labelled normalizedHistory)))
    as [Hnodup _].
  erewrite list_fmap_ext; [exact Hnodup|].
  intros i [k entry] Hi%list_elem_of_lookup_2. simpl.
  apply (record_writes_acc_id (writes_of (labelled normalizedHistory))).
  by apply elem_of_Map_get.
Qed.

Lemma NoDup_snapshot_increases (previousById : gmap Z Z) (latestSnapshot : Snapshot) :
  NoDup (finite_ids latestSnapshot) →
  NoDup (id_and_delta <$> omap (snapshot_increase previousById)
                            (sketches latestSnapshot)).
Proof.
  intros Hlatest_ids. apply (NoDup_fmap_1 fst). rewrite <- list_fmap_compose.
  apply (NoDup_omap_keys _ finite_id); [|done].
  intros sketch increase. unfold snapshot_increase, finite_id.
  destruct (Number_ (sketch_id sketch)); [|done..].
  destruct (_ <? _)%Z; [|done]. by intros [= <-].
Qed.

Lemma NoDup_series_increases (normalizedHistory : list Snapshot) :
  NoDup (id_and_delta
         <$> omap series_increase
               (filter (λ item, Exists (λ point, (0 < point_views point)%Z) (points item))
                  (mapped_series normalizedHistory))).
Proof.
  apply (NoDup_fmap_1 fst). rewrite <- list_fmap_compose, omap_filter.
  apply (NoDup_omap_keys _ (λ line, Some (series_id line))).
  - intros line increase. case_decide; [|done]. unfold series_increase.
    case_bool_decide; [done|]. destruct (_ <? _)%Z; [|done]. by intros [= <-].
  - rewrite omap_Some_fmap. apply NoDup_series_ids.
Qed.

(** The two increase loops push the same pairs of id and delta. *)
Lemma pushed_increases_same_ids_and_deltas
    (front : list Snapshot) (previousSnapshot latestSnapshot : Snapshot) :
  NoDup (time_labels (front ++ [previousSnapshot; latestSnapshot])) →
  NoDup (finite_ids previousSnapshot) →
  NoDup (finite_ids latestSnapshot) →
  Forall (λ sketch, (0 ≤ sketch_views sketch)%Z) (sketches previousSnapshot) →
  id_and_delta <$> omap (snapshot_increase (previousById_of previousSnapshot))
                     (sketches latestSnapshot)
  ≡ₚ id_and_delta
     <$> omap series_increase
           (filter (λ item, Exists (λ point, (0 < point_views point)%Z) (points item))
              (mapped_series (front ++ [previousSnapshot; latestSnapshot]))).
Proof.
  intros Hlabels Hprev_ids Hlatest_ids Hnonneg.
  set (nh := front ++ [previousSnapshot; latestSnapshot]) in *.
  set (writes := writes_of (labelled nh)).
  set (lp := snapshotLabel previousSnapshot (length front)).
  set (ll := snapshotLabel latestSnapshot (length front + 1)).
  assert (nh !! length front = Some previousSnapshot) as Hip.
  { unfold nh. rewrite lookup_app_r by lia.
    by replace (length front - length front) with 0 by lia. }
  assert (nh !! (length front + 1) = Some latestSnapshot) as Hil.
  { unfold nh. rewrite lookup_app_r by lia.
    by replace (length front + 1 - length front) with 1 by lia. }
  assert (∀ k, previousById_of previousSnapshot !! k = last_write writes k lp)
    as Hagree.
  { intros k. by apply previous_views_agree. }
  assert (∀ k, (0 ≤ default 0 (last_write writes k lp))%Z) as Hlp.
  { intros k. destruct (last_write writes k lp) as [v|] eqn:Hwrite; [|done].
    apply (last_write_at_index _ _ _ _ _ Hlabels Hip) in Hwrite
      as (sketch & Hin & _ & <-).
    rewrite Forall_forall in Hnonneg. by apply Hnonneg. }
  apply NoDup_Permutation.
  - by apply NoDup_snapshot_increases.
  - apply NoDup_series_increases.
  - intros [k d]. rewrite !list_elem_of_fmap. split.
    + intros (increase & Heq & (sketch & Hin & Hinc)%list_elem_of_omap).
      unfold snapshot_increase in Hinc.
      destruct (Number_ (sketch_id sketch)) as [k'| |] eqn:Hnum; [|done..].
      destruct (Z.ltb_spec 0
                  (sketch_views sketch
                   - default 0 (previousById_of previousSnapshot !! k'))%Z)
        as [Hpos|]; [|done].
      injection Hinc as <-. injection Heq as -> ->.
      apply finite_id_Some in Hnum. rewrite Hagree in Hpos |- *.
      assert (last_write writes k' ll = Some (sketch_views sketch)) as Hll.
      { by apply last_write_unique_record. }
      destruct (Map_get k' (fold_history nh)) as [entry|] eqn:Hget.
      2:{ apply Map_get_None in Hget. destruct Hget.
          rewrite fold_history_writes. apply record_writes_keys.
          exists (ll, sketch). split; [|done].
          apply elem_of_writes_of_labelled. by exists (length front + 1), latestSnapshot. }
      assert (acc_id entry = k') as Hentry.
      { rewrite fold_history_writes in Hget. by apply record_writes_acc_id in Hget. }
      set (line := make_series (time_labels nh) (snapshotDateByLabel nh) entry).
      assert (line ∈ mapped_series nh) as Hline.
      { apply elem_of_mapped_series. exists entry. by rewrite Hentry. }
      assert (series_id line = k') as Hid by done.
      pose proof (series_increase_mapped front previousSnapshot latestSnapshot
                    line Hline) as Hincrease.
      simpl in Hincrease. fold nh writes lp ll in Hincrease.
      rewrite ?Hid, ?Hentry, Hll in Hincrease. simpl in Hincrease.
      destruct (Z.ltb_spec 0
                  (sketch_views sketch - default 0 (last_write writes k' lp))%Z)
        as [_|]; [|lia].
      eexists. split; [|apply list_elem_of_omap; exists line; split; [|exact Hincrease]].
      * done.
      * apply list_elem_of_filter. split; [|done].
        destruct (mapped_series_point _ _ _ _ Hline Hil) as (point & Hpoint & _ & Hviews).
        apply Exists_exists. exists point. split; [by eapply list_elem_of_lookup_2|].
        fold writes ll in Hviews. rewrite ?Hid, ?Hentry, Hll in Hviews. simpl in Hviews.
        specialize (Hlp k'). lia.
    + intros (increase & Heq & (line & [_ Hline]%list_elem_of_filter & Hinc)%list_elem_of_omap).
      pose proof (series_increase_mapped front previousSnapshot latestSnapshot
                    line Hline) as Hincrease.
      simpl in Hincrease. fold nh writes lp ll in Hincrease.
      rewrite Hinc in Hincrease.
      destruct (Z.ltb_spec 0
                  (default 0 (last_write writes (series_id line) ll)
                   - default 0 (last_write writes (series_id line) lp))%Z)
        as [Hpos|]; [|done].
      injection Hincrease as ->. injection Heq as -> ->.
      destruct (last_write writes (series_id line) ll) as [v|] eqn:Hll.
      2:{ specialize (Hlp (series_id line)). simpl in Hpos. lia. }
      apply (last_write_at_index _ _ _ _ _ Hlabels Hil) in Hll
        as (sketch & Hin & Hid & <-).
      eexists. split; [|apply list_elem_of_omap; exists sketch; split; [done|]].
      2:{ unfold snapshot_increase. apply finite_id_Some in Hid. rewrite Hid.
          rewrite Hagree. simpl in Hpos.
          destruct (Z.ltb_spec 0
                      (sketch_views sketch
                       - default 0 (last_write writes (series_id line) lp))%Z)
            as [_|]; [done|lia]. }
      done.
Qed.

(** X22. Take the last two snapshots of the history in ascending
    time order. When the time labels are pairwise distinct, each of
    the two snapshots has at most one record per finite id, and no
    views of the previous snapshot are negative, the increase list
    computed from the two raw snapshots and the one computed from the
    built series hold the same pairs of id and delta. *)
Theorem increase_paths_same_ids_and_deltas
    (history front : list Snapshot) (previousSnapshot latestSnapshot : Snapshot) :
  normalizedHistory (buildState history) = front ++ [previousSnapshot; latestSnapshot] →
  NoDup (timeLabels (buildState history)) →
  NoDup (finite_ids previousSnapshot) →
  NoDup (finite_ids latestSnapshot) →
  Forall (λ sketch, (0 ≤ sketch_views sketch)%Z) (sketches previousSnapshot) →
  id_and_delta <$> computeSketchIncreasesFromSnapshots previousSnapshot latestSnapshot
  ≡ₚ id_and_delta <$> computeLatestSketchIncreasesFromSeries (series (buildState history)).
Proof.
  intros Hnh Hlabels Hprev_ids Hlatest_ids Hnonneg.
  rewrite timeLabels_buildState, Hnh in Hlabels.
  rewrite computeSketchIncreasesFromSnapshots_omap,
    computeLatestSketchIncreasesFromSeries_omap, !Array_sort_Permutation.
  rewrite series_buildState_Permutation, Hnh.
  by apply pushed_increases_same_ids_and_deltas.
Qed.
End SeriesBuilder.

(** ** The increase ranking (popup.js) *)

Section IncreaseRanking.
Context `{Engine}.

(** C9, with the new sketch counted. From the previous snapshot {A:10, B:5} to the latest
    {A:12, B:5, C:3} the increases are C with 3, then A with 2: C
    counts from 0 because it has no previous record, B is left out
    with delta 0. In general every listed delta is positive and the
    list is descending by delta. *)
Theorem increase_ranking :
  computeSketchIncreasesFromSnapshots ranking_previous ranking_latest
  = [ {| inc_id := 3; inc_title := "C"; inc_url := ""; delta := 3 |};
      {| inc_id := 1; inc_title := "A"; inc_url := ""; delta := 2 |} ] ∧
  ∀ previousSnapshot latestSnapshot,
    Forall (λ increase, (0 < delta increase)%Z)
      (computeSketchIncreasesFromSnapshots previousSnapshot latestSnapshot) ∧
    StronglySorted (λ a b, (delta b ≤ delta a)%Z)
      (computeSketchIncreasesFromSnapshots previousSnapshot latestSnapshot).
Proof.
  split; [reflexivity|]. intros previousSnapshot latestSnapshot.
  rewrite computeSketchIncreasesFromSnapshots_omap. split.
  - apply Forall_forall. intros increase.
    rewrite elem_of_Array_sort, list_elem_of_omap.
    intros (sketch & _ & Hinc). unfold snapshot_increase in Hinc.
    destruct (Number_ (sketch_id sketch)) as [k| |]; [|done..].
    destruct (Z.ltb_spec 0
                (sketch_views sketch
                 - default 0 (previousById_of previousSnapshot !! k))%Z)
      as [Hpos|]; [|done].
    by injection Hinc as <-.
  - assert (∀ l : list Increase,
              StronglySorted (λ a b, (- delta a ≤ - delta b)%Z) l →
              StronglySorted (λ a b, (delta b ≤ delta a)%Z) l) as Hflip.
    { induction 1 as [|a l Hl IH Ha]; constructor; [done|].
      eapply Forall_impl; [exact Ha|]. simpl. intros b Hab. lia. }
    apply Hflip, (Array_sort_sorted _ (λ increase, (- delta increase)%Z)).
    intros a b _ _. unfold increases_compare. f_equal. lia.
Qed.
End IncreaseRanking.

(** ** More on the history store *)

Section HistoryMerges.
Context `{Engine}.

Lemma findIndex_first {A} (p : A → bool) (l : list A) (i : nat) (x : A) :
  l !! i = Some x → p x = true →
  (∀ j y, j < i → l !! j = Some y → p y = false) →
  findIndex p l = Some i.
Proof.
  revert i. induction l as [|a l IH]; intros i Hi Hpx Hbefore; [done|].
  destruct i as [|i]; simpl in *.
  - injection Hi as ->. by rewrite Hpx.
  - rewrite (Hbefore 0 a) by (done || lia).
    rewrite (IH i Hi Hpx); [done|].
    intros j y Hj Hy. apply (Hbefore (S j) y); [lia|done].
Qed.

(** X1. Merging the same snapshot a second time changes nothing, whatever the
    history holds. *)
Theorem appendSnapshot_idempotent (history : list Snapshot) (snapshot : Snapshot) :
  appendSnapshot (appendSnapshot history snapshot) snapshot
  = appendSnapshot history snapshot.
Proof.
  set (same := λ entry, bool_decide (fetched_at entry = fetched_at snapshot)).
  assert (same snapshot = true) as Hsame by by apply bool_decide_eq_true.
  destruct (findIndex same history) as [i|] eqn:Hfind.
  - rewrite (appendSnapshot_duplicate _ _ _ Hfind).
    destruct (findIndex_Some _ _ _ Hfind) as (old & Hold & _ & Hbefore).
    assert (i < length history) as Hi by by eapply lookup_lt_Some.
    rewrite (appendSnapshot_duplicate _ _ i).
    + apply list_insert_insert_eq.
    + apply (findIndex_first _ _ _ snapshot); [by apply list_lookup_insert_eq|done|].
      intros j y Hj Hy. rewrite list_lookup_insert_ne in Hy by lia.
      by apply (Hbefore j).
  - rewrite (appendSnapshot_fresh _ _ Hfind).
    set (merged := Array_sort appendSnapshot_compare (history ++ [snapshot])).
    destruct (findIndex_is_Some same merged snapshot) as [j Hj]; [|done|].
    { apply elem_of_Array_sort, elem_of_app. right. left. }
    destruct (findIndex_Some _ _ _ Hj) as (found & Hfound & Hp & _).
    rewrite (appendSnapshot_duplicate _ _ _ Hj).
    apply list_insert_id. rewrite Hfound. f_equal.
    apply list_elem_of_lookup_2, elem_of_Array_sort, elem_of_app in Hfound
      as [Hold| ->%list_elem_of_singleton]; [|done].
    rewrite findIndex_None in Hfind. rewrite (Hfind found Hold) in Hp. done.
Qed.

(** X2. A snapshot whose [fetched_at] no entry has is added and nothing is
    lost: the new history is the old one and the snapshot, rearranged. *)
Theorem appendSnapshot_fresh_adds_one (history : list Snapshot) (snapshot : Snapshot) :
  Forall (λ entry, fetched_at entry ≠ fetched_at snapshot) history →
  appendSnapshot history snapshot ≡ₚ snapshot :: history ∧
  length (appendSnapshot history snapshot) = S (length history).
Proof.
  intros Hfresh.
  assert (appendSnapshot history snapshot ≡ₚ snapshot :: history) as Hperm.
  { rewrite appendSnapshot_fresh.
    - rewrite Array_sort_Permutation. by rewrite Permutation_app_comm.
    - apply findIndex_None. intros entry Hentry.
      apply bool_decide_eq_false. rewrite Forall_forall in Hfresh. by apply Hfresh. }
  split; [done|]. by rewrite Hperm.
Qed.
End HistoryMerges.

(** ** More on the series builder *)

Section SeriesShape.
Context `{Engine}.

Lemma NoDup_fmap_filter {A B} (f : A → B) (P : A → Prop) `{∀ x, Decision (P x)}
    (l : list A) :
  NoDup (f <$> l) → NoDup (f <$> filter P l).
Proof.
  induction l as [|x l IH]; [done|]. rewrite filter_cons. csimpl.
  intros [Hx Hl]%NoDup_cons. destruct (decide (P x)); csimpl; [|by apply IH].
  apply NoDup_cons. split; [|by apply IH].
  intros (y & Hy & [_ Hin]%list_elem_of_filter)%list_elem_of_fmap.
  apply Hx. apply list_elem_of_fmap. by exists y.
Qed.

Lemma latestViews_mapped_series (normalizedHistory : list Snapshot) (line : Series) :
  line ∈ mapped_series normalizedHistory →
  latestViews line
  = default 0%Z (point_views <$> points line !! (length (points line) - 1)).
Proof.
  intros (entry & _ & ->)%elem_of_mapped_series. simpl.
  by destruct (_ !! _).
Qed.

(** X3. The series are ranked by latest views, highest first; and with
    pairwise distinct time labels the latest views of a series are the
    views of its sketch in the last snapshot, or 0 when the sketch is not
    in it. *)
Theorem series_ranked_by_latest_views (history : list Snapshot) :
  StronglySorted (λ a b, (latestViews b ≤ latestViews a)%Z) (series (buildState history)) ∧
  ∀ front latestSnapshot line,
    normalizedHistory (buildState history) = front ++ [latestSnapshot] →
    NoDup (timeLabels (buildState history)) →
    NoDup (finite_ids latestSnapshot) →
    line ∈ series (buildState history) →
    (∀ sketch, sketch ∈ sketches latestSnapshot →
               finite_id sketch = Some (series_id line) →
               latestViews line = sketch_views sketch) ∧
    (Forall (λ sketch, finite_id sketch ≠ Some (series_id line))
       (sketches latestSnapshot) →
     latestViews line = 0%Z).
Proof.
  split.
  - assert (∀ l : list Series,
              StronglySorted (λ a b, (- latestViews a ≤ - latestViews b)%Z) l →
              StronglySorted (λ a b, (latestViews b ≤ latestViews a)%Z) l) as Hflip.
    { induction 1 as [|a l Hl IH Ha]; constructor; [done|].
      eapply Forall_impl; [exact Ha|]. simpl. intros b Hab. lia. }
    apply Hflip. simpl.
    apply (Array_sort_sorted _ (λ line, (- latestViews line)%Z)).
    intros a b _ _. unfold latestViews_compare. f_equal. lia.
  - intros front latestSnapshot line Hnh Hlabels Hids [Hline _]%elem_of_series.
    rewrite timeLabels_buildState in Hlabels. rewrite Hnh in Hline, Hlabels.
    assert ((front ++ [latestSnapshot]) !! length front = Some latestSnapshot) as Hlast.
    { rewrite lookup_app_r by lia.
      by replace (length front - length front) with 0 by lia. }
    destruct (mapped_series_point _ _ _ _ Hline Hlast) as (point & Hpoint & _ & Hviews).
    assert (latestViews line = point_views point) as ->.
    { rewrite (latestViews_mapped_series _ _ Hline).
      rewrite (length_points_mapped_series _ _ Hline), length_app. simpl.
      replace (length front + 1 - 1) with (length front) by lia.
      by rewrite Hpoint. }
    rewrite Hviews. split.
    + intros sketch Hin Hid.
      by rewrite (last_write_unique_record _ _ _ sketch _ Hlabels Hlast Hids Hin Hid).
    + intros Habsent. destruct (last_write _ _ _) as [v|] eqn:Hwrite; [|done].
      apply (last_write_at_index _ _ _ _ _ Hlabels Hlast) in Hwrite
        as (sketch & Hin & Hid & _).
      rewrite Forall_forall in Habsent. by destruct (Habsent sketch Hin).
Qed.

(** X4. There is at most one series per sketch id, and every series has its
    points on the shared axis of time labels. *)
Theorem series_distinct_and_on_shared_axis (history : list Snapshot) :
  NoDup (series_id <$> series (buildState history)) ∧
  ∀ line, line ∈ series (buildState history) →
          timeLabel <$> points line = timeLabels (buildState history).
Proof.
  split.
  - rewrite series_buildState_Permutation.
    apply NoDup_fmap_filter, NoDup_series_ids.
  - intros line [(entry & _ & ->)%elem_of_mapped_series _]%elem_of_series.
    rewrite timeLabels_buildState. simpl.
    rewrite <- list_fmap_compose. rewrite <- (list_fmap_id (time_labels _)) at 2.
    by apply list_fmap_ext.
Qed.

Lemma record_sketch_keeps_title (label : string) (bySketch : list (Z * SeriesAcc))
    (sketch : Sketch) (k : Z) (entry : SeriesAcc) :
  Map_get k bySketch = Some entry →
  ∃ entry', Map_get k (record_sketch label bySketch sketch) = Some entry' ∧
            acc_title entry' = acc_title entry ∧ acc_url entry' = acc_url entry.
Proof.
  intros Hget. unfold record_sketch.
  destruct (Number_ (sketch_id sketch)) as [sketchId| |]; [|by exists entry..].
  destruct (Map_has sketchId bySketch) eqn:Hhas.
  - unfold Map_has in Hhas.
    destruct (Map_get sketchId bySketch) as [old|] eqn:Hold; [|done].
    rewrite Map_get_set. destruct (decide (k = sketchId)) as [->|Hne].
    + eexists. split; [done|]. simpl. by assert (old = entry) as -> by congruence.
    + by exists entry.
  - unfold Map_has in Hhas.
    destruct (Map_get sketchId bySketch) as [old|] eqn:Hold; [done|].
    assert (k ≠ sketchId) as Hne by congruence.
    rewrite Map_get_set, decide_True by done.
    rewrite !Map_get_set, !decide_False by done. by exists entry.
Qed.

Lemma record_sketch_sets_title (label : string) (bySketch : list (Z * SeriesAcc))
    (sketch : Sketch) (k : Z) :
  finite_id sketch = Some k → Map_get k bySketch = None →
  ∃ entry, Map_get k (record_sketch label bySketch sketch) = Some entry ∧
           acc_title entry = title_or_default (sketch_title sketch) k ∧
           acc_url entry = sketch_url sketch.
Proof.
  intros Hid%finite_id_Some Hget. unfold record_sketch, Map_has.
  rewrite Hid, Hget. rewrite Map_get_set, decide_True by done.
  rewrite Map_get_set, decide_True by done. by eexists.
Qed.

Lemma record_writes_first_title (early late : list (string * Sketch))
    (label : string) (sketch : Sketch) (k : Z) :
  finite_id sketch = Some k →
  Forall (λ write, finite_id write.2 ≠ Some k) early →
  ∃ entry, Map_get k (record_writes (early ++ (label, sketch) :: late) []) = Some entry ∧
           acc_title entry = title_or_default (sketch_title sketch) k ∧
           acc_url entry = sketch_url sketch.
Proof.
  intros Hid Hearly.
  induction late as [|write late IH] using rev_ind.
  - rewrite record_writes_snoc. simpl. apply record_sketch_sets_title; [done|].
    apply Map_get_None. intros (write & Hin & Hwrite)%record_writes_keys.
    rewrite Forall_forall in Hearly. by destruct (Hearly write Hin).
  - rewrite app_comm_cons, app_assoc, record_writes_snoc.
    destruct IH as (entry & Hget & Htitle & Hurl).
    destruct (record_sketch_keeps_title write.1 _ write.2 k entry Hget)
      as (entry' & Hget' & Htitle' & Hurl').
    exists entry'. by rewrite Htitle', Hurl'.
Qed.

Lemma labelled_app (front back : list Snapshot) :
  labelled (front ++ back)
  = labelled front
    ++ imap (λ index snapshot, (snapshotLabel snapshot (length front + index), snapshot))
         back.
Proof. unfold labelled. by rewrite imap_app. Qed.

(** X5. A series carries the title and url of the first record of its sketch,
    in ascending time order; later records do not rename it. *)
Theorem series_title_is_first_seen (history before after : list Snapshot)
    (snapshot : Snapshot) (earlier later : list Sketch) (sketch : Sketch) (line : Series) :
  line ∈ series (buildState history) →
  normalizedHistory (buildState history) = before ++ snapshot :: after →
  sketches snapshot = earlier ++ sketch :: later →
  finite_id sketch = Some (series_id line) →
  Forall (λ previous,
            Forall (λ record, finite_id record ≠ Some (series_id line))
              (sketches previous)) before →
  Forall (λ record, finite_id record ≠ Some (series_id line)) earlier →
  series_title line = title_or_default (sketch_title sketch) (series_id line) ∧
  series_url line = sketch_url sketch.
Proof.
  intros [(entry & Hget & ->)%elem_of_mapped_series _]%elem_of_series
    Hnh Hrecords Hid Hbefore Hearlier.
  simpl in Hid, Hbefore, Hearlier |- *.
  rewrite Hnh, fold_history_writes, labelled_app in Hget.
  unfold writes_of in Hget. rewrite bind_app, imap_cons, bind_cons in Hget.
  simpl in Hget. rewrite Hrecords, fmap_app in Hget. simpl in Hget.
  rewrite <- !app_assoc in Hget. rewrite app_assoc in Hget. simpl in Hget.
  match type of Hget with
  | Map_get _ (record_writes (?early ++ (?label, _) :: ?late) []) = _ =>
      destruct (record_writes_first_title early late label sketch (acc_id entry) Hid)
        as (entry' & Hget' & Htitle & Hurl)
  end.
  - apply Forall_app. split.
    + apply Forall_forall. intros [label' record] Hin. simpl.
      apply (elem_of_writes_of_labelled before label' record) in Hin
        as (i & previous & Hi & _ & Hrecord).
      apply list_elem_of_lookup_2 in Hi.
      rewrite Forall_forall in Hbefore. specialize (Hbefore previous Hi).
      rewrite Forall_forall in Hbefore. by apply Hbefore.
    + apply Forall_fmap. eapply Forall_impl; [exact Hearlier|]. done.
  - assert (entry' = entry) as -> by congruence. done.
Qed.
End SeriesShape.

(** ** The two increase paths on whole entries *)

Section IncreasePaths.
Context `{Engine}.

Lemma title_or_default_twice (title : string) (sketchId : Z) :
  title_or_default (title_or_default title sketchId) sketchId
  = title_or_default title sketchId.
Proof.
  unfold title_or_default, js_or_str, truthy. simpl.
  destruct title as [|c title]; simpl; [|done].
  by destruct (Number_toString sketchId).
Qed.

(** The title and url of an entry of [bySketch] are those of a record
    of its id. *)
Lemma record_writes_title_origin (writes : list (string * Sketch)) (k : Z)
    (entry : SeriesAcc) :
  Map_get k (record_writes writes []) = Some entry →
  ∃ write, write ∈ writes ∧ finite_id write.2 = Some k ∧
           acc_title entry = title_or_default (sketch_title write.2) k ∧
           acc_url entry = sketch_url write.2.
Proof.
  revert entry. induction writes as [|write writes IH] using rev_ind; [done|].
  intros entry. rewrite record_writes_snoc.
  destruct (Map_get k (record_writes writes [])) as [old|] eqn:Hold.
  - destruct (record_sketch_keeps_title write.1 _ write.2 k old Hold)
      as (entry' & Hget & Htitle & Hurl).
    rewrite Hget. intros [= <-].
    destruct (IH old eq_refl) as (origin & Hin & Hid & Htitle' & Hurl').
    exists origin. split_and!; [|done|congruence..].
    apply elem_of_app. by left.
  - intros Hget.
    assert (finite_id write.2 = Some k) as Hid.
    { pose proof (Map_get_elem_of _ _ _ Hget) as Hin.
      assert (k ∈ (record_sketch write.1 (record_writes writes []) write.2).*1)
        as Hkey.
      { apply list_elem_of_fmap. by exists (k, entry). }
      rewrite <- record_writes_snoc in Hkey.
      apply record_writes_keys in Hkey
        as (origin & [Horigin| ->%list_elem_of_singleton]%elem_of_app & Hid); [|done].
      apply Map_get_None in Hold. destruct Hold.
      apply record_writes_keys. by exists origin. }
    destruct (record_sketch_sets_title write.1 _ write.2 k Hid Hold)
      as (entry' & Hget' & Htitle & Hurl).
    assert (entry' = entry) as -> by congruence.
    exists write. split_and!; [|done..]. apply elem_of_app. right. left.
Qed.

Lemma series_title_origin (normalizedHistory : list Snapshot) (line : Series) :
  line ∈ mapped_series normalizedHistory →
  ∃ snapshot record,
    snapshot ∈ normalizedHistory ∧ record ∈ sketches snapshot ∧
    finite_id record = Some (series_id line) ∧
    series_title line = title_or_default (sketch_title record) (series_id line) ∧
    series_url line = sketch_url record.
Proof.
  intros (entry & Hget & ->)%elem_of_mapped_series. simpl.
  rewrite fold_history_writes in Hget.
  apply record_writes_title_origin in Hget
    as ([label record] & Hin & Hid & Htitle & Hurl).
  apply elem_of_writes_of_labelled in Hin as (i & snapshot & Hi & _ & Hrecord).
  exists snapshot, record. split_and!; [|done..].
  by eapply list_elem_of_lookup_2.
Qed.

Lemma snapshot_increase_entry (previousById : gmap Z Z) (sketch : Sketch)
    (increase : Increase) :
  snapshot_increase previousById sketch = Some increase →
  finite_id sketch = Some (inc_id increase) ∧
  inc_title increase = title_or_default (sketch_title sketch) (inc_id increase) ∧
  inc_url increase = sketch_url sketch.
Proof.
  unfold snapshot_increase, finite_id.
  destruct (Number_ (sketch_id sketch)); [|done..].
  destruct (_ <? _)%Z; [|done]. by intros [= <-].
Qed.

Lemma series_increase_entry (line : Series) (increase : Increase) :
  series_increase line = Some increase →
  inc_id increase = series_id line ∧
  inc_title increase = title_or_default (series_title line) (series_id line) ∧
  inc_url increase = series_url line.
Proof.
  unfold series_increase. case_bool_decide; [done|].
  destruct (_ <? _)%Z; [|done]. by intros [= <-].
Qed.

(** X23. Take the hypotheses under which the two increase paths agree on
    ids and deltas, and let every record in the history of a sketch of
    the latest snapshot have the title and the url of that sketch's
    record there: no sketch was renamed or moved. Then the two paths
    list the same entries, titles and urls included. *)
Theorem increase_paths_same_entries_without_rename
    (history front : list Snapshot) (previousSnapshot latestSnapshot : Snapshot) :
  normalizedHistory (buildState history) = front ++ [previousSnapshot; latestSnapshot] →
  NoDup (timeLabels (buildState history)) →
  NoDup (finite_ids previousSnapshot) →
  NoDup (finite_ids latestSnapshot) →
  Forall (λ sketch, (0 ≤ sketch_views sketch)%Z) (sketches previousSnapshot) →
  Forall (λ snapshot,
            Forall (λ record,
                      Forall (λ latest,
                                is_Some (finite_id latest) →
                                finite_id record = finite_id latest →
                                sketch_title record = sketch_title latest ∧
                                sketch_url record = sketch_url latest)
                        (sketches latestSnapshot))
              (sketches snapshot)) history →
  computeSketchIncreasesFromSnapshots previousSnapshot latestSnapshot
  ≡ₚ computeLatestSketchIncreasesFromSeries (series (buildState history)).
Proof.
  intros Hnh Hlabels Hprev_ids Hlatest_ids Hnonneg Hsame.
  rewrite timeLabels_buildState, Hnh in Hlabels.
  rewrite <- (normalizedHistory_Permutation history), Hnh in Hsame.
  rewrite computeSketchIncreasesFromSnapshots_omap,
    computeLatestSketchIncreasesFromSeries_omap, !Array_sort_Permutation.
  rewrite series_buildState_Permutation, Hnh.
  pose proof (pushed_increases_same_ids_and_deltas front previousSnapshot
                latestSnapshot Hlabels Hprev_ids Hlatest_ids Hnonneg) as Hpairs.
  pose proof (NoDup_snapshot_increases (previousById_of previousSnapshot)
                latestSnapshot Hlatest_ids) as Hpushed.
  pose proof (NoDup_series_increases (front ++ [previousSnapshot; latestSnapshot]))
    as Hlisted.
  set (pushed := omap (snapshot_increase (previousById_of previousSnapshot))
                   (sketches latestSnapshot)) in *.
  set (listed := omap series_increase _) in *.
  assert (∀ a b, a ∈ pushed → b ∈ listed → id_and_delta a = id_and_delta b → a = b)
    as Hentry.
  { intros a b (sketch & Hsketch & Ha)%list_elem_of_omap
      (line & [_ Hline]%list_elem_of_filter & Hb)%list_elem_of_omap Hpair.
    apply snapshot_increase_entry in Ha as (Hid & Htitle & Hurl).
    apply series_increase_entry in Hb as (Hid' & Htitle' & Hurl').
    destruct (series_title_origin _ _ Hline)
      as (snapshot & record & Hsnapshot & Hrecord & Hrecord_id & Horigin & Horigin_url).
    injection Hpair as Hids Hdeltas.
    rewrite Forall_forall in Hsame. specialize (Hsame snapshot Hsnapshot).
    rewrite Forall_forall in Hsame. specialize (Hsame record Hrecord).
    rewrite Forall_forall in Hsame.
    destruct (Hsame sketch Hsketch) as [Hsame_title Hsame_url].
    { by rewrite Hid. }
    { rewrite Hrecord_id, Hid. congruence. }
    destruct a as [a_id a_title a_url a_delta], b as [b_id b_title b_url b_delta].
    simpl in *. subst. f_equal.
    - by rewrite Horigin, Hsame_title, title_or_default_twice.
    - by rewrite Horigin_url. }
  apply NoDup_Permutation.
  - by eapply NoDup_fmap_1.
  - by eapply NoDup_fmap_1.
  - intros increase. split.
    + intros Hin.
      assert (id_and_delta increase ∈ id_and_delta <$> listed) as Hpair.
      { rewrite <- Hpairs. apply list_elem_of_fmap. by exists increase. }
      apply list_elem_of_fmap in Hpair as (other & Hpair & Hother).
      by rewrite (Hentry increase other Hin Hother Hpair).
    + intros Hin.
      assert (id_and_delta increase ∈ id_and_delta <$> pushed) as Hpair.
      { rewrite Hpairs. apply list_elem_of_fmap. by exists increase. }
      apply list_elem_of_fmap in Hpair as (other & Hpair & Hother).
      by rewrite <- (Hentry other increase Hother Hin (eq_sym Hpair)).
Qed.
End IncreasePaths.

(** ** The totals of the two pages *)

Section Totals.
Context `{Engine}.









Lemma drawStats_totals_latest (totals : list Z) (increases : list Increase) :
  (drawStats_totals totals increases).1 = latestTotal totals.
Proof. unfold drawStats_totals. by repeat case_match. Qed.




End Totals.

(** ** The sketch filter and the page summary *)

Section Selection.
Context `{Engine} (localeCompare : string → string → Num).

Lemma filter_none {A} (P : A → Prop) `{∀ x, Decision (P x)} (l : list A) :
  (∀ x, x ∈ l → ¬ P x) → filter P l = [].
Proof.
  induction l as [|y l IH]; intros Hnone; [done|].
  rewrite filter_cons_False by (apply Hnone; left).
  apply IH. intros x Hx. apply Hnone. by right.
Qed.

Lemma filter_unique_key {A B} `{EqDecision B} (f : A → B) (l : list A) (x : A) :
  NoDup (f <$> l) → x ∈ l → filter (λ y, f y = f x) l = [x].
Proof.
  induction l as [|y l IH]; [by intros _ ?%elem_of_nil|]. csimpl.
  intros [Hy Hl]%NoDup_cons [->|Hx]%elem_of_cons.
  - rewrite filter_cons_True by done. f_equal.
    apply filter_none. intros z Hz Heq. apply Hy.
    rewrite <- Heq. apply list_elem_of_fmap. by exists z.
  - rewrite filter_cons_False; [by apply IH|].
    intros Heq. apply Hy. rewrite Heq. apply list_elem_of_fmap. by exists x.
Qed.

Lemma selected_series_one (lines : list Series) (line : Series) :
  NoDup (series_id <$> lines) → line ∈ lines →
  Number_toString (series_id line) ≠ "all"%string →
  selected_series lines (Number_toString (series_id line)) = [line].
Proof.
  intros Hnodup Hline Hall. unfold selected_series.
  rewrite bool_decide_eq_false_2 by done.
  rewrite <- (filter_unique_key series_id lines line Hnodup Hline).
  apply list_filter_iff. intros other. unfold Number_toString. split.
  - by intros ?%(inj pretty).
  - by intros ->.
Qed.

Lemma populateFilterOptions_selection (lines : list Series) (previous : string) :
  let selection := (populateFilterOptions localeCompare lines previous).2 in
  (selection = "all"%string ∧
   (previous = "all"%string ∨
    ∀ line, line ∈ lines → Number_toString (series_id line) ≠ previous)) ∨
  (selection = previous ∧ previous ≠ "all"%string ∧
   ∃ line, line ∈ lines ∧ Number_toString (series_id line) = previous).
Proof.
  unfold populateFilterOptions, filter_options. simpl.
  destruct (decide (previous = "all"%string)) as [->|Hall].
  { left. split; [by case_bool_decide|by left]. }
  case_bool_decide as Hhas.
  - right. split_and!; [done..|].
    apply Exists_cons in Hhas as [Hfirst|Hhas]; [by simpl in Hfirst|].
    apply Exists_exists in Hhas as ([value text] & Hoption & Hvalue).
    apply list_elem_of_fmap in Hoption as (line & [= -> _] & Hline).
    exists line. split; [|done]. by apply elem_of_Array_sort in Hline.
  - left. split; [done|]. right. intros line Hline Hvalue. apply Hhas.
    apply Exists_cons. right. apply Exists_exists.
    exists (Number_toString (series_id line),
            series_title line +:+ " (#" +:+ Number_toString (series_id line) +:+ ")").
    split; [|done]. apply list_elem_of_fmap. exists line. split; [done|].
    by apply elem_of_Array_sort.
Qed.

(** X9. [buildState] ends with [populateFilterOptions]: the selection is kept
    when it is ["all"] or the id of a series, and becomes ["all"]
    otherwise. [render] then never reports that the selected sketch has
    no data unless there is no series at all: for a selected sketch it
    draws exactly the one series of that id, with the title of that
    series, and for ["all"] every series. *)
Theorem render_after_populateFilterOptions (history : list Snapshot) (previous : string) :
  let state := buildState history in
  let selection := (populateFilterOptions localeCompare (series state) previous).2 in
  ((previous = "all"%string ∨
    ∃ line, line ∈ series state ∧ Number_toString (series_id line) = previous) →
   selection = previous) ∧
  (selection = previous ∨ selection = "all"%string) ∧
  match render state selection with
  | (NoStoredSnapshots, stats) => history = [] ∧ stats = None
  | (NoDataForSelectedSketch, stats) =>
      series state = [] ∧ selection = "all"%string ∧ stats = None
  | (AllSketches captures sketches, stats) =>
      selection = "all"%string ∧ captures = length history ∧
      sketches = length (series state) ∧
      stats = Some (drawStats (series state) (normalizedHistory state))
  | (SelectedSketch captures title sketchId, stats) =>
      selection ≠ "all"%string ∧ captures = length history ∧
      ∃ line, line ∈ series state ∧ series_id line = sketchId ∧
              series_title line = title ∧ Number_toString sketchId = selection ∧
              stats = Some (drawStats [line] (normalizedHistory state))
  end.
Proof.
  intros state selection.
  pose proof (normalizedHistory_Permutation history) as Hpermutation.
  assert (NoDup (series_id <$> series state)) as Hnodup.
  { unfold state. rewrite series_buildState_Permutation.
    apply NoDup_fmap_filter, NoDup_series_ids. }
  fold state in Hpermutation.
  destruct (populateFilterOptions_selection (series state) previous)
    as [[Hselection Hprevious]|(Hselection & Hall & line & Hline & Hvalue)];
    fold selection in Hselection.
  - split_and!; [|by right|].
    + intros [->|(line & Hline & Hvalue)]; [done|].
      destruct Hprevious as [->|Hnone]; [done|]. by destruct (Hnone line Hline).
    + rewrite Hselection. unfold render, selected_series.
      rewrite !bool_decide_eq_true_2 by done.
      destruct (normalizedHistory state) as [|snapshot rest] eqn:Hhistory.
      { split; [|done]. by apply Permutation_nil_l in Hpermutation. }
      destruct (series state) as [|first lines]; [done|].
      split_and!; [done| |done..]. by rewrite <- Hpermutation.
  - split_and!; [done|by left|].
    rewrite Hselection, <- Hvalue. unfold render.
    destruct (normalizedHistory state) as [|snapshot rest] eqn:Hhistory.
    { split; [|done]. by apply Permutation_nil_l in Hpermutation. }
    rewrite selected_series_one by (by rewrite ?Hvalue).
    rewrite bool_decide_eq_false_2 by (by rewrite Hvalue).
    split_and!; [by rewrite Hvalue|by rewrite <- Hpermutation|].
    by exists line.
Qed.
End Selection.

(** ** The capture flow *)

Section CaptureFlow.
Context `{Engine}.

Lemma appendSnapshot_contains (history : list Snapshot) (snapshot : Snapshot) :
  snapshot ∈ appendSnapshot history snapshot.
Proof.
  destruct (findIndex (λ entry, bool_decide (fetched_at entry = fetched_at snapshot))
              history) as [i|] eqn:Hfind.
  - rewrite (appendSnapshot_duplicate _ _ _ Hfind).
    destruct (findIndex_Some _ _ _ Hfind) as (old & Hold & _).
    apply list_elem_of_insert. by eapply lookup_lt_Some.
  - rewrite (appendSnapshot_fresh _ _ Hfind).
    apply elem_of_Array_sort, elem_of_app. right. left.
Qed.

Lemma appendSnapshot_length_bounds (history : list Snapshot) (snapshot : Snapshot) :
  length history ≤ length (appendSnapshot history snapshot) ≤ S (length history).
Proof.
  destruct (findIndex (λ entry, bool_decide (fetched_at entry = fetched_at snapshot))
              history) as [i|] eqn:Hfind.
  - rewrite (appendSnapshot_duplicate _ _ _ Hfind), length_insert. lia.
  - rewrite (appendSnapshot_fresh _ _ Hfind), Array_sort_length, length_app.
    simpl. lia.
Qed.

(** When the first part of a click yields a snapshot: neither the
    query for the tab nor the page script is rejected, and the four
    checks pass. *)
Lemma capture_snapshot_inr (attempt : Attempt) (snapshot : Snapshot) :
  capture_snapshot attempt = inr snapshot ↔
  attempt_rejects attempt TabsQuery = false ∧
  attempt_rejects attempt ExecuteScript = false ∧
  ∃ tab id url records,
    attempt_tab attempt = Some tab ∧ tab_id tab = Some id ∧ id ≠ 0%Z ∧
    tab_url tab = Some url ∧
    String.prefix "https://openprocessing.org/" url = true ∧
    attempt_payload attempt = Some (Some records) ∧ records ≠ [] ∧
    snapshot = {| date := Some (attempt_today attempt);
                  fetched_at := Some (attempt_now attempt);
                  page_url := url; sketches := records |}.
Proof.
  unfold capture_snapshot. split.
  - destruct (attempt_rejects attempt TabsQuery); [done|].
    destruct (attempt_tab attempt) as [tab|]; [|done].
    destruct (tab_id tab) as [id|] eqn:Hid; [|done].
    destruct (tab_url tab) as [url|] eqn:Hurl; [|done].
    case_bool_decide as Hfalsy; [done|].
    destruct (String.prefix _ url) eqn:Hprefix; simpl; [|done].
    destruct (attempt_rejects attempt ExecuteScript); [done|].
    destruct (attempt_payload attempt) as [[records|]|]; [|done..].
    destruct records as [|record records]; [done|].
    intros [= <-]. split_and!; [done..|].
    exists tab, id, url, (record :: records).
    split_and!; [done|done| |done..]. intros ->. apply Hfalsy. by left.
  - intros (-> & -> & tab & id & url & records & -> & -> & Hid & -> & Hprefix & ->
            & Hrecords & ->).
    rewrite Hprefix. simpl. rewrite bool_decide_eq_false_2.
    + by destruct records.
    + intros [?| ->]; [done|]. discriminate Hprefix.
Qed.

Lemma capture_snapshot_rejected (attempt : Attempt) (call : ChromeCall) :
  capture_snapshot attempt = inl (Rejected call) →
  call = TabsQuery ∨ call = ExecuteScript.
Proof.
  unfold capture_snapshot. repeat case_match; intros [= <-]; (by left) || (by right).
Qed.

Lemma captured_of_any_storage (stored stored' : Stored) (attempt : Attempt) :
  captured_of stored attempt = captured_of stored' attempt.
Proof. done. Qed.

Lemma captured_of_Some_inr (stored : Stored) (attempt : Attempt) (snapshot : Snapshot) :
  captured_of stored attempt = Some snapshot ↔
  capture_snapshot attempt = inr snapshot ∧
  attempt_rejects attempt StorageGet = false ∧
  attempt_rejects attempt StorageSet = false.
Proof.
  unfold captured_of. destruct (capture_snapshot attempt) as [error|built].
  - split; [done|]. by intros [? _].
  - destruct (attempt_rejects attempt StorageGet),
      (attempt_rejects attempt StorageSet); simpl;
      split; try done; try (by intros (_ & ? & ?)).
    + by intros [= ->].
    + by intros ([= ->] & _).
Qed.

(** The storage after a click. *)
Lemma captureCurrentPage_stored (stored : Stored) (attempt : Attempt) :
  (captureCurrentPage stored attempt).1
  = match captured_of stored attempt with
    | Some snapshot =>
        StoredHistory (appendSnapshot (loadSnapshotHistory stored) snapshot)
    | None => stored
    end.
Proof.
  unfold captureCurrentPage, captured_of.
  destruct (capture_snapshot attempt) as [error|snapshot]; [done|].
  destruct (attempt_rejects attempt StorageGet); [done|].
  destruct (attempt_rejects attempt StorageSet); [done|]. simpl.
  by repeat case_match.
Qed.

Lemma captureCurrentPage_load (stored : Stored) (attempt : Attempt) :
  loadSnapshotHistory (captureCurrentPage stored attempt).1
  = match captured_of StoredNothing attempt with
    | Some snapshot => appendSnapshot (loadSnapshotHistory stored) snapshot
    | None => loadSnapshotHistory stored
    end.
Proof.
  rewrite captureCurrentPage_stored, (captured_of_any_storage stored StoredNothing).
  by destruct (captured_of StoredNothing attempt).
Qed.

Lemma capture_run_load (stored : Stored) (attempts : list Attempt) :
  loadSnapshotHistory (capture_run stored attempts)
  = foldl appendSnapshot (loadSnapshotHistory stored)
      (omap (captured_of StoredNothing) attempts).
Proof.
  revert stored. induction attempts as [|attempt attempts IH]; intros stored; [done|].
  unfold capture_run in *. simpl. rewrite IH, captureCurrentPage_load.
  by destruct (captured_of StoredNothing attempt).
Qed.

Lemma captured_of_Some (attempt : Attempt) (snapshot : Snapshot) :
  captured_of StoredNothing attempt = Some snapshot →
  fetched_at snapshot = Some (attempt_now attempt) ∧
  date snapshot = Some (attempt_today attempt) ∧
  sketches snapshot ≠ [] ∧
  String.prefix "https://openprocessing.org/" (page_url snapshot) = true.
Proof.
  intros [Hbuilt _]%captured_of_Some_inr.
  apply capture_snapshot_inr in Hbuilt
    as (_ & _ & tab & id & url & records & _ & _ & _ & _ & Hprefix & _ & Hrecords & ->).
  done.
Qed.


(** What a click shows, by what it stored. *)
Lemma captureCurrentPage_shown (stored : Stored) (attempt : Attempt) :
  (captureCurrentPage stored attempt).2
  = match capture_snapshot attempt with
    | inl error => inl error
    | inr snapshot =>
        if attempt_rejects attempt StorageGet then inl (Rejected StorageGet)
        else if attempt_rejects attempt StorageSet then inl (Rejected StorageSet)
        else if attempt_rejects attempt RefreshStoredCount
        then inl (Rejected RefreshStoredCount)
        else if attempt_rejects attempt UpdateBadge then inl (Rejected UpdateBadge)
        else
          inr {| captured_snapshot := snapshot;
                 captured_sketches := length (sketches snapshot);
                 captured_snapshots :=
                   length (appendSnapshot (loadSnapshotHistory stored) snapshot);
                 captured_badge := updateBadgeForTab (sketches snapshot) |}
    end.
Proof. unfold captureCurrentPage. by repeat case_match. Qed.

(** X6. A click stores the loaded history with its snapshot merged in
    exactly when the tab has an id and a URL under
    https://openprocessing.org/, the page script returned a non-empty
    array, and the browser rejects none of the calls awaited up to the
    write; otherwise it leaves the storage as it was. It reports
    success exactly when it stores and neither [refreshStoredCount] nor
    [updateBadgeForTab] is rejected, and it shows an error although the
    snapshot is stored exactly when one of these two is rejected. The
    stored snapshot has sketches and the stamp of the click and is in the
    stored history; a report carries the stored snapshot and the length
    of the stored history, which is the old length or one more. *)
Theorem captureCurrentPage_outcome (stored : Stored) (attempt : Attempt) :
  (captureCurrentPage stored attempt).1
  = match captured_of stored attempt with
    | Some snapshot =>
        StoredHistory (appendSnapshot (loadSnapshotHistory stored) snapshot)
    | None => stored
    end ∧
  (is_Some (captured_of stored attempt) ↔
   attempt_rejects attempt TabsQuery = false ∧
   attempt_rejects attempt ExecuteScript = false ∧
   attempt_rejects attempt StorageGet = false ∧
   attempt_rejects attempt StorageSet = false ∧
   ∃ tab id url records,
     attempt_tab attempt = Some tab ∧ tab_id tab = Some id ∧ id ≠ 0%Z ∧
     tab_url tab = Some url ∧
     String.prefix "https://openprocessing.org/" url = true ∧
     attempt_payload attempt = Some (Some records) ∧ records ≠ []) ∧
  ((∃ report, (captureCurrentPage stored attempt).2 = inr report) ↔
   is_Some (captured_of stored attempt) ∧
   attempt_rejects attempt RefreshStoredCount = false ∧
   attempt_rejects attempt UpdateBadge = false) ∧
  (∀ error, (captureCurrentPage stored attempt).2 = inl error →
     (is_Some (captured_of stored attempt) ↔
      error = Rejected RefreshStoredCount ∨ error = Rejected UpdateBadge)) ∧
  (∀ snapshot, captured_of stored attempt = Some snapshot →
     snapshot ∈ loadSnapshotHistory (captureCurrentPage stored attempt).1 ∧
     sketches snapshot ≠ [] ∧
     fetched_at snapshot = Some (attempt_now attempt) ∧
     length (loadSnapshotHistory stored)
       ≤ length (loadSnapshotHistory (captureCurrentPage stored attempt).1)
       ≤ S (length (loadSnapshotHistory stored))) ∧
  (∀ report, (captureCurrentPage stored attempt).2 = inr report →
     captured_of stored attempt = Some (captured_snapshot report) ∧
     captured_snapshots report
     = length (loadSnapshotHistory (captureCurrentPage stored attempt).1)).
Proof.
  pose proof (captureCurrentPage_stored stored attempt) as Hstored.
  pose proof (captureCurrentPage_shown stored attempt) as Hshown.
  split_and!.
  - done.
  - split.
    + intros [snapshot (Hbuilt & Hget & Hset)%captured_of_Some_inr].
      apply capture_snapshot_inr in Hbuilt
        as (Hquery & Hscript & tab & id & url & records & Htab & Hid & Hid0 & Hurl
            & Hprefix & Hpayload & Hrecords & _).
      split_and!; [done..|]. by exists tab, id, url, records.
    + intros (Hquery & Hscript & Hget & Hset & tab & id & url & records & Htab & Hid
              & Hid0 & Hurl & Hprefix & Hpayload & Hrecords).
      eexists. apply captured_of_Some_inr. split_and!; [|done..].
      apply capture_snapshot_inr. split_and!; [done..|].
      by exists tab, id, url, records.
  - rewrite Hshown. split.
    + intros [report Hreport].
      destruct (capture_snapshot attempt) as [error|snapshot] eqn:Hbuilt; [done|].
      destruct (attempt_rejects attempt StorageGet) eqn:Hget; [done|].
      destruct (attempt_rejects attempt StorageSet) eqn:Hset; [done|].
      destruct (attempt_rejects attempt RefreshStoredCount); [done|].
      destruct (attempt_rejects attempt UpdateBadge); [done|].
      split_and!; [|done..]. exists snapshot. by apply captured_of_Some_inr.
    + intros ([snapshot (-> & -> & ->)%captured_of_Some_inr] & -> & ->).
      by eexists.
  - intros error. rewrite Hshown. unfold captured_of.
    destruct (capture_snapshot attempt) as [early|snapshot] eqn:Hbuilt.
    { intros [= ->]. split; [by intros [? ?]|].
      intros [->| ->]; by apply capture_snapshot_rejected in Hbuilt as [?|?]. }
    destruct (attempt_rejects attempt StorageGet).
    { intros [= <-]. simpl. split; [by intros [? ?]|]. by intros [?|?]. }
    destruct (attempt_rejects attempt StorageSet).
    { intros [= <-]. simpl. split; [by intros [? ?]|]. by intros [?|?]. }
    simpl. destruct (attempt_rejects attempt RefreshStoredCount).
    { intros [= <-]. split; [by left|by eexists]. }
    destruct (attempt_rejects attempt UpdateBadge); [|done].
    intros [= <-]. split; [by right|by eexists].
  - intros snapshot Hcaptured. rewrite Hstored, Hcaptured. simpl.
    apply captured_of_Some_inr in Hcaptured as [Hbuilt _].
    apply capture_snapshot_inr in Hbuilt
      as (_ & _ & tab & id & url & records & _ & _ & _ & _ & _ & _ & Hrecords & ->).
    split_and!; [apply appendSnapshot_contains|done|done|
                 apply appendSnapshot_length_bounds..].
  - intros report. rewrite Hshown, Hstored. unfold captured_of.
    destruct (capture_snapshot attempt) as [error|snapshot]; [done|].
    destruct (attempt_rejects attempt StorageGet); [done|].
    destruct (attempt_rejects attempt StorageSet); [done|].
    destruct (attempt_rejects attempt RefreshStoredCount); [done|].
    destruct (attempt_rejects attempt UpdateBadge); [done|].
    by intros [= <-].
Qed.

(** X7. Whatever a run of clicks leaves in a storage that held no history is
    the merge of the snapshots that the clicks stored: no two entries
    share a [fetched_at], and every entry has sketches, a date, the
    stamp of its click and a page under https://openprocessing.org/.
    When every stamp is a non-empty string that [Date.parse] reads, the
    stored history is ascending, is its own normal form in [buildState],
    and has pairwise distinct time labels. *)
Theorem capture_run_history (stored : Stored) (attempts : list Attempt) :
  loadSnapshotHistory stored = [] →
  let history := loadSnapshotHistory (capture_run stored attempts) in
  history = merge_all (omap (captured_of StoredNothing) attempts) ∧
  NoDup (fetched_at <$> history) ∧
  Forall (λ snapshot,
            sketches snapshot ≠ [] ∧ is_Some (date snapshot) ∧
            String.prefix "https://openprocessing.org/" (page_url snapshot) = true ∧
            ∃ attempt, attempt ∈ attempts ∧
                       fetched_at snapshot = Some (attempt_now attempt)) history ∧
  (Forall (λ attempt, attempt_now attempt ≠ ""%string ∧
                      is_Some (time_value (attempt_now attempt))) attempts →
   StronglySorted (λ a b, (effective_time a ≤ effective_time b)%Z) history ∧
   normalizedHistory (buildState history) = history ∧
   NoDup (timeLabels (buildState history))).
Proof.
  intros Hempty history.
  assert (history = merge_all (omap (captured_of StoredNothing) attempts)) as Hmerge.
  { unfold history. by rewrite capture_run_load, Hempty. }
  assert (∀ snapshot, snapshot ∈ history →
            ∃ attempt, attempt ∈ attempts ∧
                       captured_of StoredNothing attempt = Some snapshot) as Horigin.
  { intros snapshot Hin. rewrite Hmerge in Hin.
    apply merge_all_contents in Hin as (before & after & Heq & _).
    assert (snapshot ∈ omap (captured_of StoredNothing) attempts) as Hsnapshot.
    { rewrite Heq. apply elem_of_app. right. left. }
    by apply list_elem_of_omap in Hsnapshot. }
  split_and!; [done| | |].
  - rewrite Hmerge. apply merge_all_contents.
  - apply Forall_forall. intros snapshot (attempt & Hattempt & Hcaptured)%Horigin.
    apply captured_of_Some in Hcaptured as (Hstamp & Hdate & Hrecords & Hprefix).
    split_and!; [done|by rewrite Hdate|done|by exists attempt].
  - intros Hstamps.
    assert (Forall well_stamped (omap (captured_of StoredNothing) attempts))
      as Hstamped.
    { apply Forall_forall. intros snapshot (attempt & Hattempt & Hcaptured)%list_elem_of_omap.
      apply captured_of_Some in Hcaptured as (Hstamp & _).
      rewrite Forall_forall in Hstamps.
      destruct (Hstamps attempt Hattempt) as [Hne [t Ht]].
      by exists (attempt_now attempt), t. }
    destruct (merged_history_is_normalized _ Hstamped) as [Hnormal Hlabels].
    rewrite <- Hmerge in Hnormal, Hlabels. split_and!; [|done..].
    rewrite <- Hnormal. apply normalizedHistory_sorted.
Qed.
End CaptureFlow.

(** ** The badge and the relative time *)

Section Badge.
Context `{Engine}.






(** X11. The relative time is empty exactly when [Date.parse] does not read
    the value. Otherwise it is "just now" only for a time ahead of the
    clock, a number of minutes from 1 to 59 below an hour, a number of
    hours from 1 to 23 below a day, and a number of days of at least 1
    from there on, each the elapsed time rounded down. *)
Theorem formatRelativeTime_ranges (now : Z) (value : option string) :
  (formatRelativeTime now value = ""%string ↔
   ∀ time, Date_parse (js_or_str value "") ≠ Fin time) ∧
  ∀ time, Date_parse (js_or_str value "") = Fin time →
    ((now < time)%Z → formatRelativeTime now value = "just now"%string) ∧
    ((0 ≤ now - time < 3600000)%Z →
     ∃ minutes, formatRelativeTime now value = Number_toString minutes +:+ " min ago" ∧
                (1 ≤ minutes ≤ 59)%Z ∧
                (60000 * minutes ≤ Z.max 60000 (now - time) < 60000 * (minutes + 1))%Z) ∧
    ((3600000 ≤ now - time < 86400000)%Z →
     ∃ hours, formatRelativeTime now value = Number_toString hours +:+ "h ago" ∧
              (1 ≤ hours ≤ 23)%Z ∧
              (3600000 * hours ≤ now - time < 3600000 * (hours + 1))%Z) ∧
    ((86400000 ≤ now - time)%Z →
     ∃ days, formatRelativeTime now value = Number_toString days +:+ "d ago" ∧
             (1 ≤ days)%Z ∧
             (86400000 * days ≤ now - time < 86400000 * (days + 1))%Z).
Proof.
  unfold formatRelativeTime.
  pose proof (λ time, Z.div_mod (now - time) 60000) as Hminutes.
  pose proof (λ time, Z.mod_pos_bound (now - time) 60000) as Hminutes'.
  pose proof (λ time, Z.div_mod (now - time) 3600000) as Hhours.
  pose proof (λ time, Z.mod_pos_bound (now - time) 3600000) as Hhours'.
  pose proof (λ time, Z.div_mod (now - time) 86400000) as Hdays.
  pose proof (λ time, Z.mod_pos_bound (now - time) 86400000) as Hdays'.
  split.
  - destruct (Date_parse _) as [time| |]; [|by split..].
    split; [|by intros Hno; destruct (Hno time)]. intros Hempty. exfalso.
    repeat case_match; try discriminate Hempty.
    + by destruct (Number_toString _).
    + by destruct (Number_toString _).
    + by destruct (Number_toString _).
  - intros time ->. cbv zeta.
    change (60 * 1000)%Z with 60000%Z. change (60 * 60000)%Z with 3600000%Z.
    change (24 * 3600000)%Z with 86400000%Z.
    specialize (Hminutes time). specialize (Hminutes' time).
    specialize (Hhours time). specialize (Hhours' time).
    specialize (Hdays time). specialize (Hdays' time).
    split_and!; intros Helapsed.
    + by rewrite (proj2 (Z.ltb_lt _ _)) by lia.
    + rewrite (proj2 (Z.ltb_ge _ _)) by lia.
      rewrite (proj2 (Z.ltb_lt _ 3600000)) by lia.
      eexists. split; [done|]. lia.
    + rewrite (proj2 (Z.ltb_ge _ _)) by lia.
      rewrite (proj2 (Z.ltb_ge _ 3600000)) by lia.
      rewrite (proj2 (Z.ltb_lt _ 86400000)) by lia.
      eexists. split; [done|]. lia.
    + rewrite (proj2 (Z.ltb_ge _ _)) by lia.
      rewrite (proj2 (Z.ltb_ge _ 3600000)) by lia.
      rewrite (proj2 (Z.ltb_ge _ 86400000)) by lia.
      eexists. split; [done|]. lia.
Qed.
End Badge.

(** ** Labels and HTML text *)

Section TruncateFacts.
Context {Char : Type} (is_white : Char → bool) (ellipsis : Char).

Lemma trimStart_suffix (text : list Char) :
  ∃ dropped, text = dropped ++ trimStart is_white text.
Proof.
  induction text as [|c text [dropped IH]]; [by exists []|]. simpl.
  destruct (is_white c); [|by exists []].
  exists (c :: dropped). simpl. by f_equal.
Qed.

Lemma trimEnd_prefix (text : list Char) :
  ∃ dropped, text = trimEnd is_white text ++ dropped.
Proof.
  destruct (trimStart_suffix (reverse text)) as [dropped Hdropped].
  exists (reverse dropped). unfold trimEnd.
  by rewrite <- reverse_app, <- Hdropped, reverse_involutive.
Qed.

Lemma trimEnd_length (text : list Char) :
  length (trimEnd is_white text) ≤ length text.
Proof.
  destruct (trimEnd_prefix text) as [dropped Hdropped].
  rewrite Hdropped at 2. rewrite length_app. lia.
Qed.

Lemma trimStart_starts_clean (text : list Char) :
  starts_clean is_white (trimStart is_white text).
Proof.
  induction text as [|c text IH]; [done|]. simpl.
  by destruct (is_white c) eqn:Hc.
Qed.

Lemma trimStart_clean (text : list Char) :
  starts_clean is_white text → trimStart is_white text = text.
Proof. destruct text as [|c text]; [done|]. simpl. by intros ->. Qed.

Lemma starts_clean_snoc (text : list Char) (c : Char) :
  starts_clean is_white (text ++ [c]) → starts_clean is_white text.
Proof. by destruct text. Qed.

Lemma trimStart_keeps_end (text : list Char) :
  starts_clean is_white (reverse text) → starts_clean is_white (reverse (trimStart is_white text)).
Proof.
  induction text as [|c text IH]; [done|]. simpl. intros Hend.
  destruct (is_white c) eqn:Hc; [|done].
  apply IH. rewrite reverse_cons in Hend. by eapply starts_clean_snoc.
Qed.

Lemma trimEnd_ends_clean (text : list Char) :
  starts_clean is_white (reverse (trimEnd is_white text)).
Proof. unfold trimEnd. rewrite reverse_involutive. apply trimStart_starts_clean. Qed.

Lemma trimEnd_keeps_start (text : list Char) :
  starts_clean is_white text → starts_clean is_white (trimEnd is_white text).
Proof.
  intros Hstart. unfold trimEnd. apply trimStart_keeps_end.
  by rewrite reverse_involutive.
Qed.

Lemma trimEnd_clean (text : list Char) :
  starts_clean is_white (reverse text) → trimEnd is_white text = text.
Proof.
  intros Hend. unfold trimEnd. by rewrite trimStart_clean, reverse_involutive.
Qed.

Lemma trim_clean (text : list Char) :
  starts_clean is_white text → starts_clean is_white (reverse text) → trim is_white text = text.
Proof.
  intros Hstart Hend. unfold trim. rewrite trimStart_clean by done.
  by apply trimEnd_clean.
Qed.

Lemma starts_clean_take (text : list Char) (n : nat) :
  starts_clean is_white text → starts_clean is_white (take n text).
Proof. by destruct text, n. Qed.

(** X12. A label that fits is returned trimmed and whole. One that does not
    fit is cut: what is kept is a beginning of the trimmed text of at
    most [maxLength - 1] characters that does not end in white space,
    followed by the ellipsis. The result has at most [maxLength]
    characters, and one character when [maxLength] is 0. *)
Theorem truncateLabel_fits (value : list Char) (maxLength : nat) :
  length (truncateLabel is_white ellipsis value maxLength) ≤ Nat.max maxLength 1 ∧
  (length (trim is_white value) ≤ maxLength →
   truncateLabel is_white ellipsis value maxLength = trim is_white value) ∧
  (maxLength < length (trim is_white value) →
   ∃ kept rest,
     truncateLabel is_white ellipsis value maxLength = kept ++ [ellipsis] ∧
     trim is_white value = kept ++ rest ∧ rest ≠ [] ∧
     length kept ≤ maxLength - 1 ∧
     ∀ c, last kept = Some c → is_white c = false).
Proof.
  unfold truncateLabel. simpl.
  set (text := trim is_white value).
  set (kept := trimEnd is_white (take (maxLength - 1) text)).
  assert (length kept ≤ maxLength - 1) as Hkept.
  { unfold kept. etrans; [apply trimEnd_length|]. rewrite length_take. lia. }
  split_and!.
  - case_bool_decide; [lia|]. rewrite length_app. simpl. lia.
  - intros Hfits. by rewrite bool_decide_eq_true_2.
  - intros Hlong. rewrite bool_decide_eq_false_2 by lia.
    destruct (trimEnd_prefix (take (maxLength - 1) text)) as [dropped Hdropped].
    fold kept in Hdropped.
    exists kept, (dropped ++ drop (maxLength - 1) text). split_and!; [done| | |done|].
    + by rewrite (assoc_L (++)), <- Hdropped, take_drop.
    + intros Hnil. apply (f_equal length) in Hnil.
      rewrite length_app, length_drop in Hnil. simpl in Hnil. lia.
    + pose proof (trimEnd_ends_clean (take (maxLength - 1) text)) as Hclean.
      fold kept in Hclean. intros c. rewrite <- head_reverse.
      destruct (reverse kept) as [|c' ?]; [done|]. simpl in *. by intros [= <-].
Qed.

(** X13. When the ellipsis is not white space, truncating a truncated label
    again to the same length changes nothing. *)
Theorem truncateLabel_idempotent (value : list Char) (maxLength : nat) :
  is_white ellipsis = false →
  truncateLabel is_white ellipsis
    (truncateLabel is_white ellipsis value maxLength) maxLength
  = truncateLabel is_white ellipsis value maxLength.
Proof.
  intros Hellipsis.
  set (result := truncateLabel is_white ellipsis value maxLength).
  assert (starts_clean is_white result ∧ starts_clean is_white (reverse result) ∧
          (length result ≤ maxLength ∨ result = [ellipsis] ∧ maxLength = 0))
    as (Hstart & Hend & Hlength).
  { unfold result, truncateLabel. simpl.
    assert (starts_clean is_white (trim is_white value)) as Hstart.
    { apply trimEnd_keeps_start, trimStart_starts_clean. }
    set (text := trim is_white value) in *.
    case_bool_decide as Hfits.
    { split_and!; [done|apply trimEnd_ends_clean|by left]. }
    set (kept := trimEnd is_white (take (maxLength - 1) text)).
    assert (length kept ≤ maxLength - 1) as Hkept.
    { unfold kept. etrans; [apply trimEnd_length|]. rewrite length_take. lia. }
    assert (starts_clean is_white kept) as Hkept_start.
    { by apply trimEnd_keeps_start, starts_clean_take. }
    split_and!.
    - by destruct kept.
    - by rewrite reverse_snoc.
    - rewrite length_app. simpl. destruct maxLength as [|n]; [right|left; lia].
      destruct kept; [done|simpl in Hkept; lia]. }
  unfold truncateLabel at 1. simpl. rewrite trim_clean by done.
  destruct Hlength as [Hfits|[-> ->]]; [by rewrite bool_decide_eq_true_2|done].
Qed.
End TruncateFacts.

Section EscapeFacts.

Lemma append_cons (x : ascii) (a b : string) : String x a +:+ b = String x (a +:+ b).
Proof. done. Qed.

Lemma append_nil (b : string) : EmptyString +:+ b = b.
Proof. done. Qed.

Lemma string_app_assoc (a b c : string) : (a +:+ b) +:+ c = a +:+ (b +:+ c).
Proof.
  induction a as [|x a IH]; [done|]. rewrite !append_cons. by rewrite IH.
Qed.

Lemma list_ascii_of_string_app (a b : string) :
  list_ascii_of_string (a +:+ b) = list_ascii_of_string a ++ list_ascii_of_string b.
Proof.
  induction a as [|x a IH]; [done|]. rewrite append_cons. simpl. by rewrite IH.
Qed.

Lemma replaceAll_app (c : ascii) (replacement a b : string) :
  replaceAll c replacement (a +:+ b)
  = replaceAll c replacement a +:+ replaceAll c replacement b.
Proof.
  induction a as [|x a IH]; [done|]. rewrite append_cons. simpl.
  case_bool_decide; rewrite IH; [|done]. by rewrite string_app_assoc.
Qed.

Lemma escapeHtml_app (a b : string) :
  escapeHtml (a +:+ b) = escapeHtml a +:+ escapeHtml b.
Proof. unfold escapeHtml. by rewrite !replaceAll_app. Qed.

Lemma escapeHtml_char (a : ascii) :
  escapeHtml (String a EmptyString) = escape_char a.
Proof.
  unfold escape_char, escapeHtml.
  repeat (case_bool_decide; [by subst|]).
  by repeat (simpl; rewrite bool_decide_eq_false_2 by done).
Qed.

Lemma escape_char_shape (a : ascii) :
  (a = "&"%char ∧ escape_char a = "&amp;"%string) ∨
  (a = "<"%char ∧ escape_char a = "&lt;"%string) ∨
  (a = ">"%char ∧ escape_char a = "&gt;"%string) ∨
  (a = double_quote ∧ escape_char a = "&quot;"%string) ∨
  (a = "'"%char ∧ escape_char a = "&#39;"%string) ∨
  (a ≠ "&"%char ∧ a ≠ "<"%char ∧ a ≠ ">"%char ∧ a ≠ double_quote ∧ a ≠ "'"%char ∧
   escape_char a = String a EmptyString).
Proof.
  unfold escape_char.
  repeat (case_bool_decide; [tauto|]).
  by repeat right.
Qed.

Lemma escape_each_inj (a b : string) :
  escape_each a = escape_each b → a = b.
Proof.
  revert b. induction a as [|x a IH]; intros [|y b]; simpl.
  - done.
  - destruct (escape_char_shape y)
      as [[_ ->]|[[_ ->]|[[_ ->]|[[_ ->]|[[_ ->]|(_&_&_&_&_& ->)]]]]];
      rewrite ?append_cons; discriminate.
  - destruct (escape_char_shape x)
      as [[_ ->]|[[_ ->]|[[_ ->]|[[_ ->]|[[_ ->]|(_&_&_&_&_& ->)]]]]];
      rewrite ?append_cons; discriminate.
  - destruct (escape_char_shape x)
      as [[-> ->]|[[-> ->]|[[-> ->]|[[-> ->]|[[-> ->]|(?&?&?&?&?& ->)]]]]];
    destruct (escape_char_shape y)
      as [[-> ->]|[[-> ->]|[[-> ->]|[[-> ->]|[[-> ->]|(?&?&?&?&?& ->)]]]]];
    rewrite ?append_cons, ?append_nil; intros Heq; try discriminate Heq;
      try (injection Heq as Heq; by rewrite (IH _ Heq));
      try (injection Heq as -> Heq; by rewrite (IH _ Heq));
      try (by injection Heq as -> _); try (by injection Heq as <- _).
Qed.

(** X14. The five replacements of [escapeHtml] amount to escaping every
    character of the input on its own: an entity that an earlier
    replacement wrote is not touched by a later one. The result holds no
    [<], [>], double quote or single quote, and two different inputs have
    different results. *)
Theorem escapeHtml_escapes_each (value : string) :
  escapeHtml value = escape_each value ∧
  Forall (λ c, c ≠ "<"%char ∧ c ≠ ">"%char ∧ c ≠ double_quote ∧ c ≠ "'"%char)
    (list_ascii_of_string (escapeHtml value)) ∧
  ∀ other, escapeHtml other = escapeHtml value → other = value.
Proof.
  assert (∀ text, escapeHtml text = escape_each text) as Heach.
  { induction text as [|a text IH]; [done|].
    change (String a text) with (String a EmptyString +:+ text).
    rewrite escapeHtml_app, escapeHtml_char, IH. done. }
  split_and!; [done| |].
  - rewrite Heach. induction value as [|a value IH]; [constructor|]. simpl.
    rewrite list_ascii_of_string_app. apply Forall_app. split; [|done].
    destruct (escape_char_shape a)
      as [[_ ->]|[[_ ->]|[[_ ->]|[[_ ->]|[[_ ->]|(?&?&?&?&?& ->)]]]]];
      simpl; repeat constructor; done.
  - intros other. rewrite !Heach. apply escape_each_inj.
Qed.
End EscapeFacts.

(** ** The page script's readers *)

Section Readers.

Lemma keep_digits_app (a b : string) :
  keep_digits (a +:+ b) = keep_digits a +:+ keep_digits b.
Proof.
  induction a as [|c a IH]; [done|]. rewrite append_cons. simpl.
  destruct (is_digit c); [|done]. by rewrite append_cons, IH.
Qed.

Lemma read_all_digits_app (acc : Z) (a b : string) :
  read_all_digits acc (a +:+ b)
  = (read_all_digits acc a ≫= λ acc', read_all_digits acc' b).
Proof.
  revert acc. induction a as [|c a IH]; intros acc; [done|].
  rewrite append_cons. simpl. destruct (digit_of c) as [d|]; [|done]. simpl.
  apply IH.
Qed.

Lemma read_all_digits_nonneg (acc : Z) (digits : string) (value : Z) :
  (0 ≤ acc)%Z → read_all_digits acc digits = Some value → (0 ≤ value)%Z.
Proof.
  revert acc. induction digits as [|c digits IH]; intros acc Hacc; simpl.
  - by intros [= <-].
  - unfold digit_of. case_bool_decide as Hc; [|done]. simpl. apply IH. lia.
Qed.

Lemma digit_chars :
  Forall (λ d : N, digit_of (pretty_N_char d) = Some (Z.of_N d))
    (N.of_nat <$> seq 0 10).
Proof. apply (bool_decide_unpack _). vm_compute. exact I. Qed.

Lemma digit_of_pretty_N_char (d : N) :
  (d < 10)%N → digit_of (pretty_N_char d) = Some (Z.of_N d).
Proof.
  intros Hd. pose proof digit_chars as Hchars. rewrite Forall_forall in Hchars.
  apply Hchars, list_elem_of_fmap. exists (N.to_nat d).
  split; [by rewrite N2Nat.id|]. apply elem_of_seq. lia.
Qed.

(** What [pretty] puts in front of the text it is given: digits only,
    which read back as the number. *)
Lemma pretty_N_go_digits (x : N) (s : string) :
  ∃ digits,
    pretty_N_go x s = digits +:+ s ∧
    Forall (λ c, is_digit c = true) (list_ascii_of_string digits) ∧
    ((0 < x)%N → digits ≠ EmptyString) ∧
    ∀ acc, ∃ scale, read_all_digits acc digits = Some (acc * scale + Z.of_N x)%Z.
Proof.
  revert s. induction (N.lt_wf_0 x) as [x _ IH]. intros s.
  destruct (decide (x = 0%N)) as [->|Hx].
  { exists EmptyString. rewrite pretty_N_go_0. split_and!; [done|constructor|lia|].
    intros acc. exists 1%Z. simpl. f_equal. lia. }
  rewrite pretty_N_go_step by lia.
  destruct (IH (x `div` 10)%N) with (s := String (pretty_N_char (x `mod` 10)) s)
    as (digits & Hdigits & Hall & _ & Hread).
  { apply N.div_lt; lia. }
  pose proof (digit_of_pretty_N_char (x `mod` 10)%N) as Hchar.
  assert (x `mod` 10 < 10)%N as Hmod by (apply N.mod_lt; lia).
  specialize (Hchar Hmod).
  exists (digits +:+ String (pretty_N_char (x `mod` 10)) EmptyString). split_and!.
  - by rewrite Hdigits, string_app_assoc.
  - rewrite list_ascii_of_string_app. apply Forall_app. split; [done|].
    repeat constructor. unfold is_digit. by rewrite Hchar.
  - intros _. by destruct digits.
  - intros acc. destruct (Hread acc) as [scale Hscale]. exists (scale * 10)%Z.
    rewrite read_all_digits_app, Hscale. simpl. rewrite Hchar. simpl. f_equal.
    rewrite (N.div_mod x 10) at 3 by lia. rewrite N2Z.inj_add, N2Z.inj_mul.
    change (Z.of_N 10) with 10%Z. lia.
Qed.

Lemma pretty_digits (n : Z) :
  (0 ≤ n)%Z →
  Forall (λ c, is_digit c = true) (list_ascii_of_string (Number_toString n)) ∧
  Number_toString n ≠ EmptyString ∧
  read_all_digits 0 (Number_toString n) = Some n.
Proof.
  intros Hn. unfold Number_toString. destruct n as [|p|p]; [|clear Hn|lia].
  { split_and!; [by repeat constructor|done..]. }
  change (pretty (Z.pos p)) with (pretty_N_go (N.pos p) EmptyString).
  destruct (pretty_N_go_digits (N.pos p) EmptyString) as (digits & -> & Hall & Hne & Hread).
  assert (digits +:+ EmptyString = digits) as ->.
  { clear. induction digits as [|c digits IH]; [done|]. by rewrite append_cons, IH. }
  split_and!; [done|apply Hne; lia|].
  destruct (Hread 0%Z) as [scale ->]. f_equal.
Qed.

Lemma keep_digits_all (digits : string) :
  Forall (λ c, is_digit c = true) (list_ascii_of_string digits) →
  keep_digits digits = digits.
Proof.
  induction digits as [|c digits IH]; [done|]. simpl.
  intros [Hc Hdigits]%Forall_cons. rewrite Hc. f_equal. by apply IH.
Qed.

Lemma span_digits_all (digits rest : string) :
  Forall (λ c, is_digit c = true) (list_ascii_of_string digits) →
  match rest with String c _ => is_digit c = false | EmptyString => True end →
  span_digits (digits +:+ rest) = (digits, rest).
Proof.
  intros Hdigits Hrest. induction digits as [|c digits IH].
  - rewrite append_nil. destruct rest as [|c rest]; [done|]. simpl. by rewrite Hrest.
  - apply Forall_cons in Hdigits as [Hc Hdigits]. rewrite append_cons. simpl.
    by rewrite Hc, IH.
Qed.

Lemma nearest_double_nonneg (value : Z) :
  (0 ≤ value)%Z → (0 ≤ nearest_double value)%Z.
Proof.
  intros Hvalue. unfold nearest_double.
  destruct (Z.ltb_spec value 9007199254740992%Z); [done|].
  assert (0 ≤ 2 ^ (Z.log2 value - 52))%Z as Hunit by (apply Z.pow_nonneg; lia).
  pose proof (Z_div_nonneg_nonneg value _ Hvalue Hunit) as Hquotient.
  destruct (_ || _); nia.
Qed.

Lemma nearest_double_exact (value : Z) :
  (value ≤ 9007199254740992)%Z → nearest_double value = value.
Proof.
  intros Hvalue. destruct (decide (value = 9007199254740992%Z)) as [->|]; [done|].
  unfold nearest_double. by rewrite (proj2 (Z.ltb_lt _ _)) by lia.
Qed.

Lemma toNumber_nonneg (text : string) : (0 ≤ toNumber text)%Z.
Proof.
  unfold toNumber, decimal_value. destruct (keep_digits text) as [|c digits]; [done|].
  apply nearest_double_nonneg.
  destruct (read_all_digits 0 _) as [value|] eqn:Hread; [|done]. simpl.
  by eapply read_all_digits_nonneg.
Qed.

(** X15. [toNumber] looks at the digits of the text only, in their order: it
    is never negative, it is 0 when there is no digit, and a text whose
    digits spell the decimal form of [n], with whatever separators,
    units or spaces between and around them, reads as [n] when [n] is at
    most 2^53, where every integer is a double, and as the double
    nearest to [n] as long as that double is finite. *)
Theorem toNumber_reads_the_digits (text : string) :
  (0 ≤ toNumber text)%Z ∧
  (keep_digits text = EmptyString → toNumber text = 0%Z) ∧
  (∀ c rest, is_digit c = false →
             toNumber (text +:+ String c rest) = toNumber (text +:+ rest)) ∧
  (∀ n, (0 ≤ n ≤ 9007199254740992)%Z →
        keep_digits text = Number_toString n → toNumber text = n) ∧
  (∀ n, (0 ≤ n)%Z → (nearest_double n < 2 ^ 1024)%Z →
        keep_digits text = Number_toString n → toNumber text = nearest_double n).
Proof.
  split_and!.
  - apply toNumber_nonneg.
  - unfold toNumber. by intros ->.
  - intros c rest Hc. unfold toNumber. rewrite !keep_digits_app. simpl.
    by rewrite Hc.
  - intros n [Hn Hsafe] Hdigits. unfold toNumber, decimal_value. rewrite Hdigits.
    destruct (pretty_digits n Hn) as (_ & Hne & ->). simpl.
    rewrite nearest_double_exact by done.
    by destruct (Number_toString n).
  - intros n Hn _ Hdigits. unfold toNumber, decimal_value. rewrite Hdigits.
    destruct (pretty_digits n Hn) as (_ & Hne & ->). simpl.
    by destruct (Number_toString n).
Qed.

Lemma digits_hold_no_slash (digits : string) :
  Forall (λ c, is_digit c = true) (list_ascii_of_string digits) →
  match_digits_after (λ c, bool_decide (c = "/"%char)) "sketch/" digits = None.
Proof.
  induction digits as [|c digits IH]; [done|]. simpl.
  intros [Hc Hdigits]%Forall_cons. case_bool_decide as Hslash; [by subst|].
  by apply IH.
Qed.

(** X16. On a URL of the site, [extractSketchId] reads the id back when the
    id is at most 2^53, where every integer is a double: the decimal
    digits after [/sketch/] up to the end or to the first character that
    is not a digit, and, when the URL has no [/sketch/] path, the digits
    of its [visualID] parameter. A [/sketch/] path comes first even when
    a [visualID] parameter follows. The empty URL has no id. *)
Theorem extractSketchId_reads_id (n : Z) (rest : string) :
  (0 ≤ n ≤ 9007199254740992)%Z →
  match rest with String c _ => is_digit c = false | EmptyString => True end →
  extractSketchId ("https://openprocessing.org/sketch/" +:+ Number_toString n +:+ rest)
  = Some n ∧
  (∀ other, extractSketchId ("https://openprocessing.org/sketch/" +:+ Number_toString n
                             +:+ "?visualID=" +:+ other) = Some n) ∧
  extractSketchId ("https://openprocessing.org/visuals/?visualID=" +:+ Number_toString n)
  = Some n ∧
  extractSketchId EmptyString = None.
Proof.
  intros [Hn Hsafe] Hrest. destruct (pretty_digits n Hn) as (Hdigits & Hne & Hread).
  assert (decimal_value (Number_toString n) = n) as Hvalue.
  { unfold decimal_value. rewrite Hread. simpl. by apply nearest_double_exact. }
  split_and!; [| | |done].
  - unfold extractSketchId. rewrite !append_cons, append_nil. simpl.
    rewrite span_digits_all by done.
    destruct (Number_toString n); [done|]. by rewrite Hvalue.
  - intros other. unfold extractSketchId. rewrite !append_cons, append_nil. simpl.
    rewrite span_digits_all by done.
    destruct (Number_toString n); [done|]. by rewrite Hvalue.
  - unfold extractSketchId. rewrite !append_cons, append_nil. simpl.
    rewrite digits_hold_no_slash by done.
    rewrite <- (append_nil (Number_toString n)) at 1.
    assert (Number_toString n = Number_toString n +:+ EmptyString) as Hnil.
    { clear. induction (Number_toString n) as [|c digits IH]; [done|].
      by rewrite append_cons, <- IH. }
    rewrite append_nil, Hnil, span_digits_all, <- Hnil by done.
    destruct (Number_toString n); [done|]. by rewrite Hvalue.
Qed.
End Readers.

(** ** The page script's loop *)

Section Scraping.
Context `{Engine} (resolve : string → option string) (parseTitle : string → string).


Lemma descending_of_negated {A} (key : A → Z) (l : list A) :
  StronglySorted (λ a b, (- key a ≤ - key b)%Z) l →
  StronglySorted (λ a b, (key b ≤ key a)%Z) l.
Proof.
  induction 1 as [|x sorted _ IH Hx]; constructor; [done|].
  eapply Forall_impl; [exact Hx|]. simpl. intros other. lia.
Qed.






End Scraping.

(** ** From the page script to the two pages *)

Section EndToEnd.
Context `{Engine} (resolve : string → option string) (parseTitle : string → string).

End EndToEnd.

(** ** The new views and the sketches named for them *)

Section NewViewsNamed.
Context `{Engine}.





End NewViewsNamed.

(** ** The stats of a selected sketch, and the increases of the series *)

Section SelectedSketch.
Context `{Engine}.

Lemma filter_none_omap {A B} (g : A → option B) (l : list A) :
  (∀ x, x ∈ l → g x = None) → omap g l = [].
Proof.
  induction l as [|x l IH]; intros Hnone; [done|]. csimpl.
  rewrite (Hnone x) by left. apply IH. intros y Hy. apply Hnone. by right.
Qed.

(** X20. For one selected series [drawStats] works on the points of that
    series: its totals are the views of the points, capture by capture,
    and the total it shows is the series' latest views. *)
Theorem selected_sketch_totals (history : list Snapshot) (line : Series) :
  line ∈ series (buildState history) →
  series_totals [line] (normalizedHistory (buildState history))
  = point_views <$> points line ∧
  (drawStats [line] (normalizedHistory (buildState history))).1 = latestViews line.
Proof.
  intros [Hline _]%elem_of_series.
  pose proof (length_points_mapped_series _ _ Hline) as Hlength.
  assert (series_totals [line] (normalizedHistory (buildState history))
          = point_views <$> points line) as Htotals.
  { apply list_eq. intros i. unfold series_totals.
    rewrite list_lookup_imap, list_lookup_fmap.
    destruct (normalizedHistory (buildState history) !! i) as [snapshot|] eqn:Hi.
    - destruct (mapped_series_point _ _ _ _ Hline Hi) as (point & Hpoint & _).
      simpl. rewrite !Hpoint. simpl. by f_equal.
    - apply lookup_ge_None in Hi. rewrite <- Hlength in Hi.
      apply lookup_ge_None in Hi. by rewrite Hi. }
  split; [done|]. unfold drawStats. rewrite drawStats_totals_latest, Htotals.
  rewrite (latestViews_mapped_series _ _ Hline). unfold latestTotal.
  destruct (points line) as [|point rest]; [done|].
  change (point_views <$> point :: rest)
    with (point_views point :: (point_views <$> rest)) at 1.
  by rewrite length_fmap, list_lookup_fmap.
Qed.

(** X21. The increases that the options page lists are in descending order,
    all positive, and name each sketch at most once; with fewer than two
    captures there are none. *)
Theorem series_increases_ranked (history : list Snapshot) :
  let increases :=
    computeLatestSketchIncreasesFromSeries (series (buildState history)) in
  StronglySorted (λ a b, (delta b ≤ delta a)%Z) increases ∧
  Forall (λ increase, (0 < delta increase)%Z) increases ∧
  NoDup (inc_id <$> increases) ∧
  (length history < 2 → increases = []).
Proof.
  intros increases. unfold increases.
  rewrite computeLatestSketchIncreasesFromSeries_omap.
  assert (∀ line increase, series_increase line = Some increase →
            inc_id increase = series_id line ∧ (0 < delta increase)%Z ∧
            2 ≤ length (points line)) as Hpushed.
  { intros line increase. unfold series_increase.
    case_bool_decide as Hshort; [done|].
    destruct (Z.ltb_spec 0
                (default 0 (point_views <$> points line !! (length (points line) - 1)%nat)
                 - default 0 (point_views <$> points line !! (length (points line) - 2)%nat))%Z);
      [|done].
    intros [= <-]. simpl. split_and!; [done|done|lia]. }
  split_and!.
  - apply descending_of_negated, Array_sort_sorted.
    intros a b _ _. unfold increases_compare. f_equal. lia.
  - apply Forall_forall. intros increase.
    rewrite elem_of_Array_sort, list_elem_of_omap.
    intros (line & _ & Hincrease). by apply Hpushed in Hincrease as (_ & ? & _).
  - rewrite (fmap_Permutation inc_id _ _ (Array_sort_Permutation _ _)).
    apply (NoDup_omap_keys inc_id (λ line, Some (series_id line))).
    + intros line increase Hincrease. f_equal. symmetry.
      by apply Hpushed in Hincrease as (? & _).
    + rewrite omap_Some_fmap, series_buildState_Permutation.
      apply NoDup_fmap_filter, NoDup_series_ids.
  - intros Hshort.
    assert (omap series_increase (series (buildState history)) = []) as ->; [|done].
    apply (filter_none_omap series_increase). intros line [Hline _]%elem_of_series.
    apply length_points_mapped_series in Hline.
    rewrite (Permutation_length (normalizedHistory_Permutation history)) in Hline.
    destruct (series_increase line) as [increase|] eqn:Hincrease; [|done].
    apply Hpushed in Hincrease as (_ & _ & ?). lia.
Qed.
End SelectedSketch.

(** ** The properties on sample data, under the concrete engine *)

Section Samples.
#[local] Existing Instance iso_engine.

(** Decides a closed decidable statement by evaluation. *)
Ltac by_evaluation := apply (bool_decide_unpack _); vm_compute; exact I.

Lemma appendSnapshot_replaces_in_place_witness :
  (∃ entry, entry ∈ [first_capture] ∧ fetched_at entry = fetched_at recapture) ∧
  length (appendSnapshot [first_capture] recapture) = 1 ∧
  appendSnapshot [first_capture] recapture !! 0 = Some recapture.
Proof.
  assert (∃ entry, entry ∈ [first_capture] ∧ fetched_at entry = fetched_at recapture)
    as Hduplicate.
  { exists first_capture. split; [left|reflexivity]. }
  split; [exact Hduplicate|].
  destruct (appendSnapshot_replaces_in_place [first_capture] recapture Hduplicate)
    as (i & old & Hold & _ & _ & Hlength & Hslot & _).
  destruct i as [|i]; [|discriminate Hold].
  split; [exact Hlength|exact Hslot].
Defined.

Lemma merge_all_sorted_and_duplicate_free_witness :
  let snapshots := [ranking_latest; stamped_middle; ranking_previous; first_capture] in
  Forall well_stamped snapshots ∧
  StronglySorted (λ a b, (effective_time a ≤ effective_time b)%Z) (merge_all snapshots) ∧
  NoDup (fetched_at <$> merge_all snapshots) ∧
  (∀ s, s ∈ merge_all snapshots ↔ last_capture snapshots s).
Proof.
  intros snapshots.
  assert (Forall well_stamped snapshots) as Hstamped.
  { repeat constructor;
      (eexists _, _; split_and!; [reflexivity|discriminate|vm_compute; reflexivity]). }
  exact (conj Hstamped
           (conj (proj1 (merge_all_sorted_and_duplicate_free snapshots) Hstamped)
              (proj2 (merge_all_sorted_and_duplicate_free snapshots)))).
Defined.

Lemma merge_all_unsorted_after_undated_replace :
  merge_all [dated_early; stamped_middle; dated_late] = [dated_late; stamped_middle] ∧
  (effective_time stamped_middle < effective_time dated_late)%Z ∧
  ¬ StronglySorted (λ a b, (effective_time a ≤ effective_time b)%Z)
      (merge_all [dated_early; stamped_middle; dated_late]).
Proof.
  split_and!.
  - vm_compute. reflexivity.
  - vm_compute. reflexivity.
  - by_evaluation.
Qed.

Lemma increase_paths_same_ids_and_deltas_witness :
  let history := [ranking_previous; ranking_latest] in
  normalizedHistory (buildState history) = [] ++ [ranking_previous; ranking_latest] ∧
  NoDup (timeLabels (buildState history)) ∧
  NoDup (finite_ids ranking_previous) ∧
  NoDup (finite_ids ranking_latest) ∧
  Forall (λ sketch, (0 ≤ sketch_views sketch)%Z) (sketches ranking_previous) ∧
  id_and_delta <$> computeSketchIncreasesFromSnapshots ranking_previous ranking_latest
  ≡ₚ id_and_delta <$> computeLatestSketchIncreasesFromSeries (series (buildState history)).
Proof.
  intros history.
  assert (normalizedHistory (buildState history)
          = [] ++ [ranking_previous; ranking_latest]) as Hlast_two.
  { vm_compute. reflexivity. }
  assert (NoDup (timeLabels (buildState history))) as Hlabels by by_evaluation.
  assert (NoDup (finite_ids ranking_previous)) as Hprevious by by_evaluation.
  assert (NoDup (finite_ids ranking_latest)) as Hlatest by by_evaluation.
  assert (Forall (λ sketch, (0 ≤ sketch_views sketch)%Z) (sketches ranking_previous))
    as Hviews by by_evaluation.
  exact (conj Hlast_two (conj Hlabels (conj Hprevious (conj Hlatest (conj Hviews
           (increase_paths_same_ids_and_deltas history [] ranking_previous
              ranking_latest Hlast_two Hlabels Hprevious Hlatest Hviews)))))).
Defined.

(** C3 (defect in options.js). A sketch is renamed between two
    captures. The increase computed from the two snapshots carries the
    title of the latest snapshot; the series that [buildState] builds
    keeps the title of the first capture, and the increase computed from
    the series carries that one: the two paths give different entries
    for the same id and delta. *)
Lemma increase_paths_differ_on_renamed_sketch :
  let history := merge_all [before_rename; after_rename] in
  history = [before_rename; after_rename] ∧
  normalizedHistory (buildState history) = history ∧
  sketch_title <$> sketches after_rename = ["New title"%string] ∧
  series_title <$> series (buildState history) = ["Old title"%string] ∧
  computeSketchIncreasesFromSnapshots before_rename after_rename
  = [ {| inc_id := 1; inc_title := "New title"; inc_url := ""; delta := 2 |} ] ∧
  computeLatestSketchIncreasesFromSeries (series (buildState history))
  = [ {| inc_id := 1; inc_title := "Old title"; inc_url := ""; delta := 2 |} ] ∧
  ¬ (computeSketchIncreasesFromSnapshots before_rename after_rename
     ≡ₚ computeLatestSketchIncreasesFromSeries (series (buildState history))).
Proof.
  intros history.
  assert (computeSketchIncreasesFromSnapshots before_rename after_rename
          = [ {| inc_id := 1; inc_title := "New title"; inc_url := ""; delta := 2 |} ])
    as Hsnapshots by (vm_compute; reflexivity).
  assert (computeLatestSketchIncreasesFromSeries (series (buildState history))
          = [ {| inc_id := 1; inc_title := "Old title"; inc_url := ""; delta := 2 |} ])
    as Hseries by (vm_compute; reflexivity).
  split_and!; [vm_compute; reflexivity..|done|done|].
  rewrite Hsnapshots, Hseries. intros Hsame.
  apply Permutation_singleton_r in Hsame. discriminate Hsame.
Qed.

Lemma series_aligned_and_zero_filled_witness :
  let history := [ranking_previous; ranking_latest] in
  ∃ line,
    line ∈ series (buildState history) ∧ series_id line = 3%Z ∧
    length (points line) = 2 ∧
    ∃ point, points line !! 0 = Some point ∧ point_views point = 0%Z.
Proof.
  intros history.
  assert (∃ line, series (buildState history) !! 2 = Some line ∧ series_id line = 3%Z)
    as (line & Hline & Hid).
  { vm_compute. eexists. split; reflexivity. }
  apply list_elem_of_lookup_2 in Hline.
  exists line. split; [exact Hline|]. split; [exact Hid|].
  destruct (series_aligned_and_zero_filled history line Hline)
    as (Hlength & Hzero & _).
  split; [exact Hlength|].
  assert (NoDup (timeLabels (buildState history))) as Hlabels by by_evaluation.
  assert (Forall (λ sketch, finite_id sketch ≠ Some (series_id line))
            (sketches ranking_previous)) as Habsent.
  { rewrite Hid. by_evaluation. }
  destruct (Hzero Hlabels 0 ranking_previous eq_refl Habsent)
    as (point & Hpoint & _ & Hviews).
  exists point. split; [exact Hpoint|exact Hviews].
Defined.

Lemma series_point_nonzero_under_shared_label :
  let history := [day_only; day_stamped] in
  normalizedHistory (buildState history) = history ∧
  NoDup (fetched_at <$> history) ∧
  ∃ line point,
    line ∈ series (buildState history) ∧ series_id line = 1%Z ∧
    history !! 1 = Some day_stamped ∧
    Forall (λ sketch, finite_id sketch ≠ Some 1%Z) (sketches day_stamped) ∧
    points line !! 1 = Some point ∧ point_views point = 5%Z.
Proof.
  intros history. split_and!; [vm_compute; reflexivity|by_evaluation|].
  assert (∃ line point,
            series (buildState history) !! 0 = Some line ∧ series_id line = 1%Z ∧
            points line !! 1 = Some point ∧ point_views point = 5%Z)
    as (line & point & Hline & Hid & Hpoint & Hviews).
  { vm_compute. eexists _, _. split_and!; reflexivity. }
  exists line, point. split_and!; [|done|done| |done|done].
  - by eapply list_elem_of_lookup_2.
  - by_evaluation.
Qed.

Lemma series_kept_iff_some_point_positive_witness :
  Forall (λ snapshot,
            Forall (λ sketch, finite_id sketch = Some 4%Z → sketch_views sketch = 0%Z)
              (sketches snapshot)) [with_unviewed] ∧
  (∀ line, line ∈ series (buildState [with_unviewed]) → series_id line ≠ 4%Z) ∧
  series_id <$> mapped_series (normalizedHistory (buildState [with_unviewed]))
  = [1%Z; 4%Z].
Proof.
  assert (Forall (λ snapshot,
                    Forall (λ sketch, finite_id sketch = Some 4%Z →
                                      sketch_views sketch = 0%Z)
                      (sketches snapshot)) [with_unviewed]) as Hunviewed
    by by_evaluation.
  split; [exact Hunviewed|]. split; [|vm_compute; reflexivity].
  exact (proj2 (series_kept_iff_some_point_positive [with_unviewed]) 4%Z Hunviewed).
Defined.

Lemma lookback_reports_last_increase_witness :
  latestDelta [100; 150; 150]%Z = Some 0%Z ∧ (0 ≤ 0)%Z ∧
  (drawStats_totals [100; 150; 150]%Z []).2 = NoneSince 1 50 ∧
  (drawPopupStats_totals [100; 150; 150]%Z []).2 = NoneSince 1 50.
Proof.
  assert (latestDelta [100; 150; 150]%Z = Some 0%Z) as Hdelta by reflexivity.
  assert (0 ≤ 0)%Z as Hle by lia.
  destruct (lookback_reports_last_increase [100; 150; 150]%Z [] 0%Z Hdelta Hle)
    as (Hoptions & Hpopup & _ & Hexample).
  split; [exact Hdelta|]. split; [exact Hle|].
  split; [exact (eq_trans Hoptions Hexample)|exact (eq_trans Hpopup Hexample)].
Defined.

Lemma single_total_is_waiting_not_none_observed :
  latestDelta [100%Z] = None ∧
  (∀ j a b, 1 ≤ j → [100%Z] !! j = Some a → [100%Z] !! (j - 1) = Some b → (a ≤ b)%Z) ∧
  (drawStats_totals [100%Z] []).2 = WaitingForNextCapture ∧
  (drawPopupStats_totals [100%Z] []).2 = WaitingForNextCapture ∧
  (drawStats_totals [100%Z] []).2 ≠ NoneObservedYet ∧
  (drawPopupStats_totals [100%Z] []).2 ≠ NoneObservedYet.
Proof.
  split_and!; [reflexivity| |reflexivity|reflexivity|discriminate|discriminate].
  intros [|[|j]] a b Hj Ha Hb; [lia|discriminate Ha|discriminate Ha].
Qed.

Lemma latestDelta_null_or_difference_witness :
  length [100%Z] < 2 ∧
  latestDelta [100%Z] = None ∧
  (drawStats_totals [100%Z] []).2 = WaitingForNextCapture ∧
  (drawPopupStats_totals [100%Z] []).2 = WaitingForNextCapture ∧
  latestDelta [100; 90]%Z = Some (-10)%Z.
Proof.
  assert (length [100%Z] < 2) as Hshort by (simpl; lia).
  destruct (proj1 (latestDelta_null_or_difference [100%Z] []) Hshort)
    as (Hnull & Hoptions & _ & Hpopup).
  destruct (proj2 (latestDelta_null_or_difference [100; 90]%Z []) [] 100%Z 90%Z eq_refl)
    as (Hdifference & _).
  split; [exact Hshort|]. split; [exact Hnull|]. split; [exact Hoptions|].
  split; [exact (Hpopup eq_refl)|exact Hdifference].
Defined.

(** C8 (defect in popup.js). Merging a capture without [fetched_at] and
    [date] into a history that holds a dated capture leaves it behind
    the dated one, although its time under [snapshotTime] is 0 and
    [buildState] sorts it in front. *)
Lemma appendSnapshot_keeps_undated_capture_last :
  appendSnapshot [first_capture] undated_capture = [first_capture; undated_capture] ∧
  appendSnapshot_compare first_capture undated_capture = NaN ∧
  snapshotTime undated_capture = Fin 0 ∧
  snapshotTime first_capture = Fin 1771876800000 ∧
  normalizedHistory (buildState [first_capture; undated_capture])
  = [undated_capture; first_capture].
Proof. split_and!; vm_compute; reflexivity. Qed.

Lemma increase_ranking_includes_new_sketch :
  computeSketchIncreasesFromSnapshots ranking_previous ranking_latest
  ≠ [ {| inc_id := 1; inc_title := "A"; inc_url := ""; delta := 2 |} ].
Proof. intros Hranking. vm_compute in Hranking. discriminate Hranking. Qed.

Lemma non_finite_ids_are_skipped_witness :
  series (buildState (finite_only <$> [with_ghost_records]))
  = series (buildState [with_ghost_records]) ∧
  series_id <$> series (buildState [with_ghost_records]) = [1%Z] ∧
  ∃ line, line ∈ series (buildState [with_ghost_records]) ∧
    ∃ snapshot sketch,
      snapshot ∈ [with_ghost_records] ∧ sketch ∈ sketches snapshot ∧
      Number_isFinite (Number_ (sketch_id sketch)) = true ∧
      Number_ (sketch_id sketch) = Fin (series_id line).
Proof.
  destruct (non_finite_ids_are_skipped [with_ghost_records] with_ghost_records
              with_ghost_records) as (Hseries & _ & _ & Hids & _).
  split; [exact Hseries|]. split; [vm_compute; reflexivity|].
  assert (∃ line, series (buildState [with_ghost_records]) !! 0 = Some line)
    as (line & Hline).
  { vm_compute. eexists. reflexivity. }
  apply list_elem_of_lookup_2 in Hline.
  exists line. split; [exact Hline|exact (Hids line Hline)].
Defined.
(** *** The rest of popup.js and options.js on sample data *)

Lemma appendSnapshot_fresh_adds_one_witness :
  Forall (λ entry, fetched_at entry ≠ fetched_at ranking_latest) [ranking_previous] ∧
  appendSnapshot [ranking_previous] ranking_latest ≡ₚ [ranking_latest; ranking_previous] ∧
  length (appendSnapshot [ranking_previous] ranking_latest) = 2.
Proof.
  assert (Forall (λ entry, fetched_at entry ≠ fetched_at ranking_latest)
            [ranking_previous]) as Hfresh by by_evaluation.
  exact (conj Hfresh
           (appendSnapshot_fresh_adds_one [ranking_previous] ranking_latest Hfresh)).
Defined.

Lemma series_ranked_by_latest_views_witness :
  let history := [ranking_previous; ranking_latest] in
  ∃ line, line ∈ series (buildState history) ∧ series_id line = 1%Z ∧
          latestViews line = 12%Z.
Proof.
  intros history.
  assert (∃ line, series (buildState history) !! 0 = Some line ∧ series_id line = 1%Z)
    as (line & Hline & Hid).
  { vm_compute. eexists. split; reflexivity. }
  apply list_elem_of_lookup_2 in Hline.
  exists line. split; [exact Hline|]. split; [exact Hid|].
  assert (normalizedHistory (buildState history) = [ranking_previous] ++ [ranking_latest])
    as Hlast by (vm_compute; reflexivity).
  assert (NoDup (timeLabels (buildState history))) as Hlabels by by_evaluation.
  assert (NoDup (finite_ids ranking_latest)) as Hids by by_evaluation.
  apply (proj1 (proj2 (series_ranked_by_latest_views history) [ranking_previous]
                  ranking_latest line Hlast Hlabels Hids Hline)
           (sketch_record 1 "A" 12)).
  - by_evaluation.
  - rewrite Hid. vm_compute. reflexivity.
Defined.

Lemma series_distinct_and_on_shared_axis_witness :
  let history := [ranking_previous; ranking_latest] in
  ∃ line, line ∈ series (buildState history) ∧
          timeLabel <$> points line
          = ["2026-02-22T21:00:00.000+01:00"; "2026-02-23T21:00:00.000+01:00"]%string.
Proof.
  intros history.
  assert (∃ line, series (buildState history) !! 2 = Some line) as (line & Hline).
  { vm_compute. eexists. reflexivity. }
  apply list_elem_of_lookup_2 in Hline.
  exists line. split; [exact Hline|].
  rewrite (proj2 (series_distinct_and_on_shared_axis history) line Hline).
  vm_compute. reflexivity.
Defined.

Lemma series_title_is_first_seen_witness :
  let history := [before_rename; after_rename] in
  ∃ line, line ∈ series (buildState history) ∧ series_id line = 1%Z ∧
          series_title line = "Old title"%string.
Proof.
  intros history.
  assert (∃ line, series (buildState history) !! 0 = Some line ∧ series_id line = 1%Z)
    as (line & Hline & Hid).
  { vm_compute. eexists. split; reflexivity. }
  apply list_elem_of_lookup_2 in Hline.
  exists line. split; [exact Hline|]. split; [exact Hid|].
  assert (normalizedHistory (buildState history) = [] ++ before_rename :: [after_rename])
    as Hhistory by (vm_compute; reflexivity).
  assert (sketches before_rename = [] ++ sketch_record 1 "Old title" 10 :: [])
    as Hrecords by reflexivity.
  assert (finite_id (sketch_record 1 "Old title" 10) = Some (series_id line)) as Hrecord.
  { rewrite Hid. vm_compute. reflexivity. }
  destruct (series_title_is_first_seen history [] [after_rename] before_rename [] []
              (sketch_record 1 "Old title" 10) line Hline Hhistory Hrecords Hrecord
              (Forall_nil_2 _) (Forall_nil_2 _)) as [Htitle _].
  rewrite Htitle, Hid. vm_compute. reflexivity.
Defined.

Lemma captureCurrentPage_outcome_witness :
  (captureCurrentPage StoredNothing click_without_badge).2
  = inl (Rejected UpdateBadge) ∧
  ∃ snapshot,
    captured_of StoredNothing click_without_badge = Some snapshot ∧
    snapshot ∈ loadSnapshotHistory (captureCurrentPage StoredNothing click_without_badge).1 ∧
    fetched_at snapshot = Some "2026-02-22T21:00:00.000+01:00"%string.
Proof.
  assert ((captureCurrentPage StoredNothing click_without_badge).2
          = inl (Rejected UpdateBadge)) as Hshown by (vm_compute; reflexivity).
  split; [exact Hshown|].
  destruct (captureCurrentPage_outcome StoredNothing click_without_badge)
    as (_ & _ & _ & Herror & Hsnapshot & _).
  destruct (proj2 (Herror (Rejected UpdateBadge) Hshown) (or_intror eq_refl))
    as [snapshot Hcaptured].
  exists snapshot. split; [exact Hcaptured|].
  destruct (Hsnapshot snapshot Hcaptured) as (Hin & _ & Hstamp & _).
  split; [exact Hin|exact Hstamp].
Defined.

Lemma capture_run_history_witness :
  let history := loadSnapshotHistory (capture_run StoredNothing clicks) in
  loadSnapshotHistory StoredNothing = [] ∧
  Forall (λ attempt, attempt_now attempt ≠ ""%string ∧
                     is_Some (time_value (attempt_now attempt))) clicks ∧
  length history = 2 ∧
  NoDup (fetched_at <$> history) ∧
  StronglySorted (λ a b, (effective_time a ≤ effective_time b)%Z) history ∧
  normalizedHistory (buildState history) = history.
Proof.
  intros history.
  assert (Forall (λ attempt, attempt_now attempt ≠ ""%string ∧
                             is_Some (time_value (attempt_now attempt))) clicks)
    as Hstamps by by_evaluation.
  destruct (capture_run_history StoredNothing clicks eq_refl)
    as (_ & Hnodup & _ & Hsorted).
  destruct (Hsorted Hstamps) as (Hascending & Hnormal & _).
  split_and!; [reflexivity|exact Hstamps|vm_compute; reflexivity|exact Hnodup
              |exact Hascending|exact Hnormal].
Defined.


Lemma render_after_populateFilterOptions_witness :
  let state := buildState [ranking_previous; ranking_latest] in
  (populateFilterOptions code_unit_compare (series state) "3").2 = "3"%string ∧
  (populateFilterOptions code_unit_compare (series state) "4").2 = "all"%string.
Proof.
  intros state. split; [|vm_compute; reflexivity].
  apply (proj1 (render_after_populateFilterOptions code_unit_compare
                  [ranking_previous; ranking_latest] "3")).
  right.
  assert (∃ line, series state !! 2 = Some line ∧
                  Number_toString (series_id line) = "3"%string)
    as (line & Hline & Hvalue).
  { vm_compute. eexists. split; reflexivity. }
  exists line. split; [|exact Hvalue]. by eapply list_elem_of_lookup_2.
Defined.


Lemma formatRelativeTime_ranges_witness :
  let value := Some "2026-02-23T21:00:00.000+01:00"%string in
  let now := (1771876800000 + 7200000)%Z in
  Date_parse (js_or_str value "") = Fin 1771876800000 ∧
  ∃ hours, formatRelativeTime now value = Number_toString hours +:+ "h ago" ∧
           (1 ≤ hours ≤ 23)%Z ∧
           (3600000 * hours ≤ now - 1771876800000 < 3600000 * (hours + 1))%Z.
Proof.
  intros value now.
  assert (Date_parse (js_or_str value "") = Fin 1771876800000) as Hparse.
  { vm_compute. reflexivity. }
  split; [exact Hparse|].
  apply (proj2 (formatRelativeTime_ranges now value) 1771876800000%Z Hparse).
  unfold now. lia.
Defined.

Lemma truncateLabel_fits_witness :
  4 < length (trim is_white_space padded_title) ∧
  ∃ kept rest,
    truncateLabel is_white_space horizontal_ellipsis padded_title 4
    = kept ++ [horizontal_ellipsis] ∧
    trim is_white_space padded_title = kept ++ rest ∧ rest ≠ [] ∧
    length kept ≤ 4 - 1 ∧
    ∀ c, last kept = Some c → is_white_space c = false.
Proof.
  assert (4 < length (trim is_white_space padded_title)) as Hlong by by_evaluation.
  exact (conj Hlong
           (proj2 (proj2 (truncateLabel_fits is_white_space horizontal_ellipsis
                            padded_title 4)) Hlong)).
Defined.

Lemma truncateLabel_idempotent_witness :
  is_white_space horizontal_ellipsis = false ∧
  truncateLabel is_white_space horizontal_ellipsis
    (truncateLabel is_white_space horizontal_ellipsis padded_title 4) 4
  = truncateLabel is_white_space horizontal_ellipsis padded_title 4.
Proof.
  assert (is_white_space horizontal_ellipsis = false) as Hellipsis by reflexivity.
  exact (conj Hellipsis
           (truncateLabel_idempotent is_white_space horizontal_ellipsis
              padded_title 4 Hellipsis)).
Defined.

Lemma escapeHtml_escapes_each_witness :
  escapeHtml "a<b" = escapeHtml "a<b" ∧
  escapeHtml "a<b" = "a&lt;b"%string ∧ "a<b"%string = "a<b"%string.
Proof.
  split; [reflexivity|]. split; [vm_compute; reflexivity|].
  exact (proj2 (proj2 (escapeHtml_escapes_each "a<b")) "a<b"%string eq_refl).
Defined.

Lemma toNumber_reads_the_digits_witness :
  (0 ≤ 1234 ≤ 9007199254740992)%Z ∧
  keep_digits "1,234 views" = Number_toString 1234 ∧
  toNumber "1,234 views" = 1234%Z.
Proof.
  assert (0 ≤ 1234 ≤ 9007199254740992)%Z as Hn by lia.
  assert (keep_digits "1,234 views" = Number_toString 1234) as Hdigits.
  { vm_compute. reflexivity. }
  exact (conj Hn (conj Hdigits
           (proj1 (proj2 (proj2 (proj2 (toNumber_reads_the_digits "1,234 views"))))
              1234%Z Hn Hdigits))).
Defined.

Lemma extractSketchId_reads_id_witness :
  (0 ≤ 2745217 ≤ 9007199254740992)%Z ∧ is_digit "#" = false ∧
  extractSketchId ("https://openprocessing.org/sketch/" +:+ Number_toString 2745217
                   +:+ "#code") = Some 2745217%Z.
Proof.
  assert (0 ≤ 2745217 ≤ 9007199254740992)%Z as Hn by lia.
  assert (is_digit "#" = false) as Hrest by reflexivity.
  exact (conj Hn (conj Hrest
           (proj1 (extractSketchId_reads_id 2745217 "#code" Hn Hrest)))).
Defined.




Lemma selected_sketch_totals_witness :
  let state := buildState [ranking_previous; ranking_latest] in
  ∃ line, line ∈ series state ∧ series_id line = 3%Z ∧
          series_totals [line] (normalizedHistory state) = [0; 3]%Z ∧
          (drawStats [line] (normalizedHistory state)).1 = 3%Z.
Proof.
  intros state.
  assert (∃ line, series state !! 2 = Some line ∧ series_id line = 3%Z ∧
                  point_views <$> points line = [0; 3]%Z ∧ latestViews line = 3%Z)
    as (line & Hline & Hid & Hpoints & Hlatest).
  { vm_compute. eexists. split_and!; reflexivity. }
  apply list_elem_of_lookup_2 in Hline.
  destruct (selected_sketch_totals [ranking_previous; ranking_latest] line Hline)
    as [Htotals Htotal].
  exists line. split_and!; [exact Hline|exact Hid| |].
  - rewrite <- Hpoints. exact Htotals.
  - rewrite <- Hlatest. exact Htotal.
Defined.

Lemma series_increases_ranked_witness :
  length [ranking_latest] < 2 ∧
  computeLatestSketchIncreasesFromSeries (series (buildState [ranking_latest])) = [].
Proof.
  assert (length [ranking_latest] < 2) as Hshort by (simpl; lia).
  exact (conj Hshort
           (proj2 (proj2 (proj2 (series_increases_ranked [ranking_latest]))) Hshort)).
Defined.

Lemma increase_paths_same_entries_without_rename_witness :
  let history := [ranking_previous; ranking_latest] in
  normalizedHistory (buildState history) = [] ++ [ranking_previous; ranking_latest] ∧
  computeSketchIncreasesFromSnapshots ranking_previous ranking_latest
  ≡ₚ computeLatestSketchIncreasesFromSeries (series (buildState history)).
Proof.
  intros history.
  assert (normalizedHistory (buildState history)
          = [] ++ [ranking_previous; ranking_latest]) as Hlast_two.
  { vm_compute. reflexivity. }
  assert (NoDup (timeLabels (buildState history))) as Hlabels by by_evaluation.
  assert (NoDup (finite_ids ranking_previous)) as Hprevious by by_evaluation.
  assert (NoDup (finite_ids ranking_latest)) as Hlatest by by_evaluation.
  assert (Forall (λ sketch, (0 ≤ sketch_views sketch)%Z) (sketches ranking_previous))
    as Hviews by by_evaluation.
  assert (Forall (λ snapshot,
                    Forall (λ record,
                              Forall (λ latest,
                                        is_Some (finite_id latest) →
                                        finite_id record = finite_id latest →
                                        sketch_title record = sketch_title latest ∧
                                        sketch_url record = sketch_url latest)
                                (sketches ranking_latest))
                      (sketches snapshot)) history) as Hsame by by_evaluation.
  exact (conj Hlast_two
           (increase_paths_same_entries_without_rename history [] ranking_previous
              ranking_latest Hlast_two Hlabels Hprevious Hlatest Hviews Hsame)).
Defined.

(** Beyond 2^53 the page script reads the nearest double. *)
Lemma toNumber_rounds_to_the_nearest_double :
  toNumber "9007199254740993 views" = 9007199254740992%Z ∧
  toNumber "9007199254740995" = 9007199254740996%Z ∧
  extractSketchId "https://openprocessing.org/sketch/9007199254740993"
  = Some 9007199254740992%Z.
Proof. split_and!; vm_compute; reflexivity. Qed.

End Samples.
